(** * schedulers: the task payload, the per-worker queue, the thread pool
      and the C-callback packager

    A shallow embedding of [include/schedulers/utils.hpp] (work_item),
    of the thread_pool_task_queue and basic_thread_pool of
    [schedulers.hpp] / [schedulers.cpp], and of
    [package_task_as_c_callback.hpp].

    The C++ code is stateful: it allocates through allocators, runs
    constructors and destructors, throws, asserts, and synchronises with
    other threads.  All of this is threaded through one state-and-outcome
    monad [M] over a [world].  Every effect that a caller can observe is
    appended to the [log] of the world, so that statements such as
    "exactly one allocation" are statements about the events a run adds to
    the log. *)

From Stdlib Require Import ZArith Lia String.
From stdpp Require Import base list gmap.

Local Open Scope Z_scope.

(** ** Platform constants *)

(** Sizes that the C++ implementation fixes.  [sizeof_buffer] is
    [sizeof(std::aligned_storage_t<3 * sizeof(void* )>)], the size of
    [work_item::_buffer]; [hardware_concurrency] is the value returned by
    [std::thread::hardware_concurrency()]. *)
Record platform := {
  sizeof_ptr : nat;
  sizeof_buffer : nat;
  hardware_concurrency : Z
}.

(** [unsigned] is a 32-bit type on every platform the library targets:
    arithmetic on it wraps modulo [UINT_MOD]. *)
Definition UINT_MOD : Z := 2 ^ 32.
Definition INT_MAX : Z := 2 ^ 31 - 1.
Definition to_unsigned (z : Z) : Z := z mod UINT_MOD.

(** ** Callables *)

(** What the code asks of the type [F] of a callable through
    [sizeof] and [<type_traits>], and how its special members behave. *)
Record fn_type := {
  sizeof_fn : nat;                     (* sizeof(F) *)
  sizeof_embedded : nat;               (* sizeof(work_item::fun_without_alloc<F>) *)
  nothrow_move_constructible : bool;   (* std::is_nothrow_move_constructible<F> *)
  trivially_copyable : bool;           (* std::is_trivially_copyable<F> *)
  construct_throws : bool;             (* constructing the stored copy from the
                                          caller's argument throws *)
  call_throws : bool                   (* operator() leaves by an exception *)
}.

(** A callable object: its type and its object representation. *)
Record callable := {
  fn_ty : fn_type;
  fn_repr : list Byte.byte
}.

(** Allocators.  Copies and rebound copies of an allocator are
    interchangeable, so an allocator is identified by its origin. *)
Inductive allocator :=
| std_allocator
| user_allocator (id : nat).

Definition addr := positive.

(** ** Events *)

Inductive event :=
| EvAllocate (a : allocator) (p : addr)     (* allocator_traits::allocate(a, 1) returned p *)
| EvDeallocate (a : allocator) (p : addr)   (* allocator_traits::deallocate(a, p, 1) *)
| EvConstruct (f : callable)                (* a callable is copy- or move-constructed *)
| EvDestroy (f : callable)                  (* the destructor of a callable runs *)
| EvInvoke (f : callable)                   (* operator() of a callable is entered *)
| EvNotifyOne (q : nat)                     (* _ready.notify_one() of queue q *)
| EvNotifyAll (q : nat)                     (* _ready.notify_all() of queue q *)
| EvTryPush (q : nat) (ok : bool)           (* _queues[q].try_push returned ok *)
| EvPush (q : nat)                          (* _queues[q].push returned *)
| EvTryPop (q : nat) (ok : bool) (out : option callable)
                                            (* _queues[q].try_pop(f) returned ok; on
                                               success f holds out *)
| EvPop (q : nat) (ok : bool) (out : option callable)
                                            (* _queues[q].pop(f) returned ok; on
                                               success f holds out *)
| EvDone (q : nat).                         (* _queues[q].done returned *)

Definition is_allocation (e : event) : bool :=
  match e with EvAllocate _ _ => true | _ => false end.

Definition is_deallocation (e : event) : bool :=
  match e with EvDeallocate _ _ => true | _ => false end.

Definition is_destruction (e : event) : bool :=
  match e with EvDestroy _ => true | _ => false end.

Definition is_invocation (e : event) : bool :=
  match e with EvInvoke _ => true | _ => false end.

(** The events of the pool's own control flow: its calls into the work
    queues and the invocation of payloads. *)
Definition is_pool_event (e : event) : bool :=
  match e with
  | EvTryPush _ _ | EvPush _ | EvTryPop _ _ _ | EvPop _ _ _ | EvInvoke _ => true
  | _ => false
  end.

Definition pool_trace (evs : list event) : list event :=
  List.filter is_pool_event evs.

(** ** work_item: representation *)

(** [work_item::_target] is null, or the address of the object's own
    [_buffer] (then a [fun_without_alloc<F>] lives in the buffer), or the
    address of a [fun_with_alloc<Alloc, F>] node on the heap. *)
Inductive target :=
| nullptr
| buffer_ptr
| heap_ptr (p : addr).

Record work_item := {
  _buffer : option callable;
  _target : target
}.

(** A heap cell is raw storage ([None]) or holds a constructed node
    [std::tuple<Alloc, F>]. *)
Definition cell := option (allocator * callable).

(** ** Other threads *)

(** What another thread may do to the shared state between two
    synchronisation points of the thread under observation. *)
Inductive env_action :=
| EnvSubmit (q : nat) (a : allocator) (f : callable) (* a submitter's payload lands on queue q *)
| EnvTake (q : nat)                                  (* another worker pops the front of queue q *)
| EnvDone (q : nat).                                 (* the destructor calls done() on queue q *)

(** One synchronisation point: what the other threads did since the last
    one, and whether the mutex is free when this thread asks for it. *)
Record tick := {
  interference : list env_action;
  lock_free : bool
}.

(** ** The world *)

Record task_queue := {
  _queue : list work_item;
  _done : bool
}.

(** A thread started by the pool: it runs [run(thread_index)]. *)
Record thread := { thread_index : Z }.

Record world := {
  heap : gmap addr cell;
  log : list event;
  sched : list tick;
  (* the members of the basic_thread_pool object *)
  _num_threads : Z;
  _queues : list task_queue;
  _threads : list thread;
  _next_thread : Z
}.

Definition set_heap (h : gmap addr cell) (w : world) : world :=
  {| heap := h; log := log w; sched := sched w; _num_threads := _num_threads w;
     _queues := _queues w; _threads := _threads w; _next_thread := _next_thread w |}.

Definition set_log (l : list event) (w : world) : world :=
  {| heap := heap w; log := l; sched := sched w; _num_threads := _num_threads w;
     _queues := _queues w; _threads := _threads w; _next_thread := _next_thread w |}.

Definition set_sched (s : list tick) (w : world) : world :=
  {| heap := heap w; log := log w; sched := s; _num_threads := _num_threads w;
     _queues := _queues w; _threads := _threads w; _next_thread := _next_thread w |}.

Definition set_num_threads (n : Z) (w : world) : world :=
  {| heap := heap w; log := log w; sched := sched w; _num_threads := n;
     _queues := _queues w; _threads := _threads w; _next_thread := _next_thread w |}.

Definition set_queues (qs : list task_queue) (w : world) : world :=
  {| heap := heap w; log := log w; sched := sched w; _num_threads := _num_threads w;
     _queues := qs; _threads := _threads w; _next_thread := _next_thread w |}.

Definition set_threads (ts : list thread) (w : world) : world :=
  {| heap := heap w; log := log w; sched := sched w; _num_threads := _num_threads w;
     _queues := _queues w; _threads := ts; _next_thread := _next_thread w |}.

Definition set_next_thread (n : Z) (w : world) : world :=
  {| heap := heap w; log := log w; sched := sched w; _num_threads := _num_threads w;
     _queues := _queues w; _threads := _threads w; _next_thread := n |}.

(** ** The monad *)

Inductive stop :=
| Throw                      (* a C++ exception propagates *)
| AssertFail (msg : string)  (* a failed assert() *)
| Undefined                  (* undefined behaviour *)
| Blocked.                   (* the thread waits and is never woken *)

Inductive outcome (A : Type) :=
| Ret (a : A)
| Stop (s : stop).
Arguments Ret {A} a.
Arguments Stop {A} s.

Definition M (A : Type) : Type := world -> outcome A * world.

Definition ret {A} (a : A) : M A := fun w => (Ret a, w).

Definition bind {A B} (m : M A) (k : A -> M B) : M B := fun w =>
  match m w with
  | (Ret a, w') => k a w'
  | (Stop s, w') => (Stop s, w')
  end.

Definition halt {A} (s : stop) : M A := fun w => (Stop s, w).

Notation "'do' x <- m ; k" := (bind m (fun x => k))
  (at level 10, x pattern, m at level 100, k at level 200,
   format "'[v' 'do'  x  <-  m ; '/' k ']'").
Notation "m ;; k" := (bind m (fun _ => k))
  (at level 100, k at level 200, right associativity, only parsing).

(** [assert(c && msg)] *)
Definition assert (c : bool) (msg : string) : M unit :=
  if c then ret tt else halt (AssertFail msg).

(** A local object with a destructor: the destructor runs when the scope
    is left by a return and when it is left by an exception. *)
Definition scope_exit {A} (body : M A) (dtor : M unit) : M A := fun w =>
  match body w with
  | (Ret a, w') =>
      match dtor w' with
      | (Ret _, w'') => (Ret a, w'')
      | (Stop s, w'') => (Stop s, w'')
      end
  | (Stop Throw, w') =>
      match dtor w' with
      | (Ret _, w'') => (Stop Throw, w'')
      | (Stop s, w'') => (Stop s, w'')
      end
  | (Stop s, w') => (Stop s, w')
  end.

(** A cleanup that runs only when the scope is left by an exception,
    which then continues to propagate. *)
Definition on_throw {A} (body : M A) (cleanup : M unit) : M A := fun w =>
  match body w with
  | (Stop Throw, w') =>
      match cleanup w' with
      | (Ret _, w'') => (Stop Throw, w'')
      | (Stop s, w'') => (Stop s, w'')
      end
  | r => r
  end.

Definition emit (e : event) : M unit := fun w => (Ret tt, set_log (log w ++ [e]) w).

Definition get_heap : M (gmap addr cell) := fun w => (Ret (heap w), w).

Definition put_heap (h : gmap addr cell) : M unit := fun w => (Ret tt, set_heap h w).

(** The events a run added to the log. *)
Definition new_events (w w' : world) : list event := drop (length (log w)) (log w').

(** ** Allocators and object lifetime *)

(** [std::allocator_traits<A>::allocate(a, 1)]: fresh raw storage. *)
Definition allocate (a : allocator) : M addr :=
  do h <- get_heap;
  let p := fresh (dom h) in
  put_heap (<[p := None]> h) ;;
  emit (EvAllocate a p) ;;
  ret p.

(** [std::allocator_traits<A>::deallocate(a, p, 1)].  Giving back storage
    that is not allocated is undefined. *)
Definition deallocate (a : allocator) (p : addr) : M unit :=
  do h <- get_heap;
  match h !! p with
  | Some _ => put_heap (delete p h) ;; emit (EvDeallocate a p)
  | None => halt Undefined
  end.

(** Constructing the stored copy of the caller's [f] (by copy or by
    move, as [forward<F>(f)] has it): either the constructor throws, or a
    new object with the value of [f] exists. *)
Definition construct_callable (f : callable) : M unit :=
  if construct_throws (fn_ty f) then halt Throw else emit (EvConstruct f).

(** [allocator_traits::construct(a, p, alloc, f)]: a node
    [std::tuple<Alloc, F>] is constructed in the raw storage at [p]. *)
Definition construct_node (p : addr) (a : allocator) (f : callable) : M unit :=
  do h <- get_heap;
  match h !! p with
  | Some None => construct_callable f ;; put_heap (<[p := Some (a, f)]> h)
  | _ => halt Undefined
  end.

(** The node at [p]; reading storage that holds no node is undefined. *)
Definition read_node (p : addr) : M (allocator * callable) :=
  do h <- get_heap;
  match h !! p with
  | Some (Some n) => ret n
  | _ => halt Undefined
  end.

(** The destructor of the node at [p]: the storage stays allocated. *)
Definition destroy_node (p : addr) : M unit :=
  do n <- read_node p;
  emit (EvDestroy n.2) ;;
  do h <- get_heap;
  put_heap (<[p := None]> h).

(** [allocate_unique<T>(alloc, alloc, f)] followed by [release()]: the
    storage comes from the allocator; should the construction of the node
    throw, [temp_deleter] gives the storage back before the exception
    leaves.  (For [std::allocator] the overload calls
    [std::make_unique<T>], whose new-expression obtains the storage from
    the global operator new, which is where [std::allocator] gets it, and
    releases it again if the constructor throws.) *)
Definition allocate_unique (a : allocator) (f : callable) : M addr :=
  do p <- allocate a;
  on_throw (construct_node p a f) (deallocate a p) ;;
  ret p.

(** The deleter returned by [make_allocator_deleter<T>(alloc)], applied to
    [p]: destroy, then deallocate through [alloc]. *)
Definition allocator_deleter (a : allocator) (p : option addr) : M unit :=
  match p with
  | Some p => destroy_node p ;; deallocate a p
  | None => ret tt
  end.

(** Invoking a callable as an rvalue: [move(f)()]. *)
Definition invoke (f : callable) : M unit :=
  emit (EvInvoke f) ;;
  if call_throws (fn_ty f) then halt Throw else ret tt.

(** ** work_item: operations *)

Definition target_eqb (a b : target) : bool :=
  match a, b with
  | nullptr, nullptr => true
  | buffer_ptr, buffer_ptr => true
  | heap_ptr p, heap_ptr q => bool_decide (p = q)
  | _, _ => false
  end.

(** [work_item::work_item()] *)
Definition work_item_default : work_item :=
  {| _buffer := None; _target := nullptr |}.

(** [explicit operator bool() const noexcept { return _target != nullptr; }] *)
Definition operator_bool (wi : work_item) : bool :=
  negb (target_eqb (_target wi) nullptr).

(** [is_embedded(): static_cast<void*>(_target) == &_buffer] *)
Definition is_embedded (wi : work_item) : bool :=
  target_eqb (_target wi) buffer_ptr.

(** The two concrete classes behind [work_item::base]. *)
Inductive node :=
| fun_with_alloc (p : addr) (a : allocator) (f : callable)
| fun_without_alloc (f : callable).

(** Following [_target] to the object whose virtual functions are called.
    A null pointer, a buffer without a node and storage without a node
    have no such object. *)
Definition deref (wi : work_item) : M node :=
  match _target wi with
  | nullptr => halt Undefined
  | buffer_ptr =>
      match _buffer wi with
      | Some f => ret (fun_without_alloc f)
      | None => halt Undefined
      end
  | heap_ptr p => do n <- read_node p; ret (fun_with_alloc p n.1 n.2)
  end.

(** [base::destroy()] *)
Definition destroy (n : node) : M unit :=
  match n with
  | fun_with_alloc p a f => destroy_node p
  | fun_without_alloc f => emit (EvDestroy f)
  end.

(** [base::destroy_dealloc()] *)
Definition destroy_dealloc (n : node) : M unit :=
  match n with
  | fun_with_alloc p a f =>
      (* real_alloc = rebound_alloc{move(std::get<0>(data))} *)
      let real_alloc := a in
      destroy n ;;
      deallocate real_alloc p
  | fun_without_alloc f => assert false "must not be called"
  end.

(** [base::move_and_destroy(memory)]: the result is the callable that now
    lives in [memory]. *)
Definition move_and_destroy (n : node) : M callable :=
  match n with
  | fun_with_alloc p a f => assert false "must not be called" ;; halt Undefined
  | fun_without_alloc f =>
      (* new (memory) fun_without_alloc{move(f)}: only callables with a
         non-throwing move constructor are ever put into a buffer *)
      emit (EvConstruct f) ;;
      destroy n ;;
      ret f
  end.

(** [base::operator()() &&] *)
Definition call_node (n : node) : M unit :=
  match n with
  | fun_with_alloc p a f => invoke f
  | fun_without_alloc f => invoke f
  end.

(** The callable that a work_item holds, if any: the node in its buffer,
    or the node its target points to on the heap. *)
Definition held (h : gmap addr cell) (wi : work_item) : option callable :=
  match _target wi with
  | nullptr => None
  | buffer_ptr => _buffer wi
  | heap_ptr p =>
      match h !! p with
      | Some (Some n) => Some n.2
      | _ => None
      end
  end.

(** [work_item& operator=(work_item&& other) noexcept]: the pair of the
    assigned-to and the assigned-from object afterwards. *)
Definition move_assign (this other : work_item) : M (work_item * work_item) :=
  assert (negb (operator_bool this)) "must move to empty work_item" ;;
  assert (operator_bool other) "moved from work_item twice" ;;
  do this' <- (if is_embedded other then
             do n <- deref other;
             do f <- move_and_destroy n;
             ret {| _buffer := Some f; _target := buffer_ptr |}
           else
             ret {| _buffer := _buffer this; _target := _target other |});
  ret (this',
        {| _buffer := if is_embedded other then None else _buffer other;
           _target := nullptr |}).

(** [work_item(work_item&& other) noexcept] *)
Definition move_construct (other : work_item) : M (work_item * work_item) :=
  let this := {| _buffer := None; _target := nullptr |} in
  move_assign this other.

(** [~work_item()] *)
Definition work_item_destructor (wi : work_item) : M unit :=
  if operator_bool wi then
    do n <- deref wi;
    if is_embedded wi then destroy n else destroy_dealloc n
  else ret tt.

(** [auto operator()() && -> void { move( *_target)(); }] *)
Definition work_item_call (wi : work_item) : M unit :=
  do n <- deref wi;
  call_node n.

Section WorkItemEmplace.
Variable P : platform.

(** [can_embed] of [work_item::emplace] *)
Definition can_embed (f : callable) : bool :=
  (sizeof_embedded (fn_ty f) <=? sizeof_buffer P)%nat
  && nothrow_move_constructible (fn_ty f).

(** [emplace_impl(alloc, f, std::true_type)] *)
Definition emplace_impl_embed (a : allocator) (f : callable) : M work_item :=
  construct_callable f ;;
  ret {| _buffer := Some f; _target := buffer_ptr |}.

(** [emplace_impl(alloc, f, std::false_type)] *)
Definition emplace_impl_alloc (a : allocator) (f : callable) : M work_item :=
  do p <- allocate_unique a f;
  ret {| _buffer := None; _target := heap_ptr p |}.

(** [emplace(alloc, f, std::true_type)] *)
Definition emplace (a : allocator) (f : callable) : M work_item :=
  if can_embed f then emplace_impl_embed a f else emplace_impl_alloc a f.
End WorkItemEmplace.

(** ** A counted loop with early exit *)

(** [for (i in idxs) { if (body(i)) break-or-return; }]: the flag tells
    whether the loop was left early. *)
Fixpoint for_first {A} (idxs : list Z) (body : Z -> A -> M (bool * A)) (a : A)
  : M (bool * A) :=
  match idxs with
  | [] => ret (false, a)
  | i :: idxs' =>
      do (left_early, a') <- body i a;
      if left_early then ret (true, a') else for_first idxs' body a'
  end.

(** [for (i in idxs) { body(i); }] *)
Fixpoint for_each (idxs : list Z) (body : Z -> M unit) : M unit :=
  match idxs with
  | [] => ret tt
  | i :: idxs' => body i ;; for_each idxs' body
  end.

Inductive loop_ctl := Continue | Break.

Section Pool.
Variable P : platform.

(** ** What the other threads do *)

Definition append_item (q : nat) (wi : work_item) (w : world) : world :=
  match _queues w !! q with
  | Some tq =>
      set_queues (<[q := {| _queue := _queue tq ++ [wi]; _done := _done tq |}]> (_queues w)) w
  | None => w
  end.

(** The effects of other threads are not events of the observed thread:
    the log is left as it was. *)
Definition apply_env (w : world) (a : env_action) : world :=
  match a with
  | EnvSubmit q al f =>
      let w1 := set_next_thread (to_unsigned (_next_thread w + 1)) w in
      match emplace P al f w1 with
      | (Ret wi, w2) => set_log (log w) (append_item q wi w2)
      | (Stop _, w2) => set_log (log w) w2
      end
  | EnvTake q =>
      match _queues w !! q with
      | Some tq =>
          set_queues (<[q := {| _queue := tail (_queue tq); _done := _done tq |}]> (_queues w)) w
      | None => w
      end
  | EnvDone q =>
      match _queues w !! q with
      | Some tq =>
          set_queues (<[q := {| _queue := _queue tq; _done := true |}]> (_queues w)) w
      | None => w
      end
  end.

Definition apply_tick (t : tick) (w : world) : world :=
  foldl apply_env w (interference t).

(** Reaching a synchronisation point: the other threads have acted; the
    answer is whether the mutex is free.  When the schedule has run
    out, nobody else is running and the mutex is free. *)
Definition sync : M bool := fun w =>
  match sched w with
  | [] => (Ret true, w)
  | t :: ts => (Ret (lock_free t), set_sched ts (apply_tick t w))
  end.

(** [lock_t lock{_mutex}]: waits until the mutex is acquired. *)
Definition lock : M unit := sync ;; ret tt.

(** [lock_t lock{_mutex, std::try_to_lock}]: whether the lock is owned. *)
Definition try_to_lock : M bool := sync.

(** ** thread_pool_task_queue *)

(** The queue object [_queues[q]]; indexing past the end of the vector
    is undefined. *)
Definition get_queue (q : nat) : M task_queue := fun w =>
  match _queues w !! q with
  | Some tq => (Ret tq, w)
  | None => (Stop Undefined, w)
  end.

Definition put_queue (q : nat) (tq : task_queue) : M unit := fun w =>
  (Ret tt, set_queues (<[q := tq]> (_queues w)) w).

Definition queue_empty (tq : task_queue) : bool :=
  match _queue tq with [] => true | _ => false end.

(** [thread_pool_task_queue::done()] *)
Definition done (q : nat) : M unit :=
  lock ;;
  do tq <- get_queue q;
  put_queue q {| _queue := _queue tq; _done := true |} ;;
  emit (EvNotifyAll q) ;;
  emit (EvDone q).

(** [f = move(_queue.front()); _queue.pop_front();] *)
Definition take_front (q : nat) (f : work_item) : M work_item :=
  do tq <- get_queue q;
  match _queue tq with
  | [] => halt Undefined
  | front :: rest =>
      do (f', front') <- move_assign f front;
      work_item_destructor front' ;;
      put_queue q {| _queue := rest; _done := _done tq |} ;;
      ret f'
  end.

(** [_queue.emplace_back(move(f))]: the caller's object afterwards. *)
Definition emplace_back (q : nat) (f : work_item) : M work_item :=
  do tq <- get_queue q;
  do (item, f') <- move_construct f;
  put_queue q {| _queue := _queue tq ++ [item]; _done := _done tq |} ;;
  ret f'.

(** [thread_pool_task_queue::try_pop(f)]: the result and [f] afterwards. *)
Definition try_pop (q : nat) (f : work_item) : M (bool * work_item) :=
  do owns <- try_to_lock;
  (* if(!lock || _queue.empty()): the queue is looked at only under the lock *)
  if negb owns then
    emit (EvTryPop q false None) ;; ret (false, f)
  else
    do tq <- get_queue q;
    if queue_empty tq then
      emit (EvTryPop q false None) ;; ret (false, f)
    else
      do f' <- take_front q f;
      do h <- get_heap;
      emit (EvTryPop q true (held h f')) ;; ret (true, f').

(** [thread_pool_task_queue::try_push(f)]: the result and [f] afterwards. *)
Definition try_push (q : nat) (f : work_item) : M (bool * work_item) :=
  do owns <- try_to_lock;
  if negb owns then
    emit (EvTryPush q false) ;; ret (false, f)
  else
    do f' <- emplace_back q f;
    emit (EvNotifyOne q) ;;
    emit (EvTryPush q true) ;; ret (true, f').

(** [while(_queue.empty() && !_done) _ready.wait(lock);] Each wait is a
    synchronisation point; a waiter for whom the schedule holds no
    further wake-up stays blocked. *)
Fixpoint wait_ready (q : nat) (ticks : list tick) (w : world) : outcome unit * world :=
  match _queues w !! q with
  | None => (Stop Undefined, set_sched ticks w)
  | Some tq =>
      if queue_empty tq && negb (_done tq) then
        match ticks with
        | [] => (Stop Blocked, set_sched [] w)
        | t :: ticks' => wait_ready q ticks' (apply_tick t w)
        end
      else (Ret tt, set_sched ticks w)
  end.

Definition wait_while_empty (q : nat) : M unit := fun w => wait_ready q (sched w) w.

(** [thread_pool_task_queue::pop(f)]: the result and [f] afterwards. *)
Definition pop (q : nat) (f : work_item) : M (bool * work_item) :=
  lock ;;
  wait_while_empty q ;;
  do tq <- get_queue q;
  if queue_empty tq then
    emit (EvPop q false None) ;; ret (false, f)
  else
    do f' <- take_front q f;
    do h <- get_heap;
    emit (EvPop q true (held h f')) ;; ret (true, f').

(** [thread_pool_task_queue::push(f)]: [f] afterwards. *)
Definition push (q : nat) (f : work_item) : M work_item :=
  lock ;;
  do f' <- emplace_back q f;
  emit (EvNotifyOne q) ;;
  emit (EvPush q) ;;
  ret f'.

(** ** basic_thread_pool *)

Definition get_num_threads : M Z := fun w => (Ret (_num_threads w), w).

(** [_next_thread++] on the [std::atomic<unsigned>] *)
Definition fetch_increment : M Z := fun w =>
  (Ret (_next_thread w), set_next_thread (to_unsigned (_next_thread w + 1)) w).

(** The body of the loop of [schedule]:
    [_queues[(thread + i) % _num_threads].try_push(f)] in unsigned
    arithmetic. *)
Definition schedule_attempt (thread n : Z) (i : Z) (f : work_item) : M (bool * work_item) :=
  try_push (Z.to_nat (to_unsigned (thread + i) mod n)) f.

(** [basic_thread_pool::schedule(work_t&& f)]: [f] afterwards. *)
Definition schedule (f : work_item) : M work_item :=
  do thread <- fetch_increment;
  do n <- get_num_threads;
  do (pushed, f') <- for_first (seqZ 0 n) (schedule_attempt thread n) f;
  if pushed then ret f'
  else push (Z.to_nat (thread mod n)) f'.

Definition rounds : Z := 8.

(** The body of the stealing loop of [run]:
    [_queues[(index + i) % _num_threads].try_pop(f)] with [index] and
    [i] of type [int]; the sum and the increment of [i] must not
    overflow. *)
Definition run_attempt (index n : Z) (i : Z) (f : work_item) : M (bool * work_item) :=
  if INT_MAX <? index + i then halt Undefined
  else
    do (popped, f') <- try_pop (Z.to_nat (to_unsigned (index + i) mod n)) f;
    if popped then ret (true, f')
    else if INT_MAX <=? i then halt Undefined
    else ret (false, f').

(** One turn of the [while(true)] loop of [run]. *)
Definition run_iteration (index : Z) : M loop_ctl :=
  let f := work_item_default in
  do n <- get_num_threads;
  do (_, f) <- for_first (seqZ 0 (to_unsigned (n * rounds))) (run_attempt index n) f;
  do (have_work, f) <- (if operator_bool f then ret (true, f)
                     else pop (Z.to_nat index) f);
  if negb have_work then
    work_item_destructor f ;; ret Break
  else
    scope_exit (work_item_call f) (work_item_destructor f) ;; ret Continue.

(** [basic_thread_pool::run(index)], for at most [turns] turns of the
    loop: [Break] when the loop was left, [Continue] when it is still
    running. *)
Fixpoint run (turns : nat) (index : Z) : M loop_ctl :=
  match turns with
  | O => ret Continue
  | S turns' =>
      do c <- run_iteration index;
      match c with
      | Break => ret Break
      | Continue => run turns' index
      end
  end.

(** The thread factory [make_thread] of schedulers.cpp:
    [std::thread(std::forward<decltype(f)>(f))], where [f] is the
    closure [[this, i] { run(i); }], given here by its captured [i]. *)
Definition make_thread (index : Z) (queue : nat) (f : Z) : thread :=
  {| thread_index := f |}.

Definition add_threads (ts : list thread) : M unit := fun w =>
  (Ret tt, set_threads (_threads w ++ ts) w).

(** One turn of the loop of [start]:
    [_threads.emplace_back(f(i, _queues[i], [this, i] { run(i); }))]
    and then [++i]; [i] is an [int], whose increment must not
    overflow. *)
Definition start_turn (factory : Z -> nat -> Z -> thread) (i : Z) : M unit :=
  add_threads [factory i (Z.to_nat i) i] ;;
  if INT_MAX <=? i then halt Undefined else ret tt.

(** [basic_thread_pool::start(f, std::true_type)]: the loop
    [for(int i = 0; i < _num_threads; ++i)] compares in [unsigned] and
    so runs for [i = 0, 1, ...] below [_num_threads]. *)
Definition start (factory : Z -> nat -> Z -> thread) : M unit :=
  do n <- get_num_threads;
  assert (0 <? n) "invalid number of threads" ;;
  for_each (seqZ 0 n) (start_turn factory).

Definition init_members (n : Z) : M unit := fun w =>
  (Ret tt,
   set_next_thread 0 (set_threads [] (set_queues
     (replicate (Z.to_nat n) {| _queue := []; _done := false |})
     (set_num_threads n w)))).

(** [basic_thread_pool(ThreadFactory f, unsigned num_threads =
    std::thread::hardware_concurrency())] with its member initialisers. *)
Definition basic_thread_pool_ctor (factory : Z -> nat -> Z -> thread)
    (num_threads : option Z) : M unit :=
  let num_threads := default (hardware_concurrency P) num_threads in
  init_members (Z.max 1 num_threads) ;;
  start factory.

(** [thread_pool::thread_pool(int num_threads)
     : basic_thread_pool(make_thread) { }] *)
Definition thread_pool_ctor (num_threads : option Z) : M unit :=
  let num_threads := default (hardware_concurrency P) num_threads in
  basic_thread_pool_ctor make_thread None.

(** [java_shared_native_pool(int num_threads)
     : _pool(std::make_shared<pool_t>(make_java_attached_thread, num_threads))] *)
Definition java_shared_native_pool_ctor (factory : Z -> nat -> Z -> thread)
    (num_threads : Z) : M unit :=
  basic_thread_pool_ctor factory (Some (to_unsigned num_threads)).
End Pool.

(** ** package_task_as_c_callback *)

(** [memcpy(dst, src, n)] on object representations. *)
Definition memcpy (dst src : list Byte.byte) (n : nat) : list Byte.byte :=
  take n src ++ drop n dst.

(** An array [char converter[n]] without initialiser: [n] bytes of
    whatever the stack held. *)
Definition uninitialized (stack : list Byte.byte) (n : nat) : list Byte.byte :=
  resize n Byte.x00 stack.

(** The value of a [void*]: a pointer to a node on the heap, or a pointer
    value known only by its object representation. *)
Inductive void_ptr :=
| ptr_null
| ptr_node (p : addr)
| ptr_bits (bs : list Byte.byte).

(** The two kinds of [DataOwner]: the [std::unique_ptr<node_t, deleter>]
    returned by [allocate_unique] (with the allocator its deleter has
    captured), and the [data_t] of the version without allocation. *)
Inductive data_owner :=
| owner_unique_ptr (p : option addr) (a : allocator)
| owner_data_t (ptr : list Byte.byte).

(** The captureless lambdas behind the function pointer, one per
    instantiation of [package_task_as_c_callback_impl]. *)
Inductive function_pointer :=
| callback_allocated
| callback_elided (ty : fn_type).

(** [detail::c_callback<FunctionPointerType, DataOwner>] *)
Record c_callback := {
  _f : function_pointer;
  _data : data_owner
}.

(** [c_callback_data<FunctionPointerType>] *)
Record c_callback_data := {
  callback : function_pointer;
  data : void_ptr
}.

Definition owner_get (o : data_owner) : void_ptr :=
  match o with
  | owner_unique_ptr (Some p) _ => ptr_node p
  | owner_unique_ptr None _ => ptr_null
  | owner_data_t bs => ptr_bits bs
  end.

(** [release()] of the owner: the pointer, and the owner afterwards. *)
Definition owner_release (o : data_owner) : void_ptr * data_owner :=
  match o with
  | owner_unique_ptr p a => (owner_get o, owner_unique_ptr None a)
  | owner_data_t bs => (owner_get o, o)
  end.

(** The destructor of the owner: a [unique_ptr] that still owns a node
    passes it to its deleter; a [data_t] has nothing to do. *)
Definition owner_destructor (o : data_owner) : M unit :=
  match o with
  | owner_unique_ptr p a => allocator_deleter a p
  | owner_data_t _ => ret tt
  end.

(** [c_callback::get()] *)
Definition c_callback_get (h : c_callback) : c_callback_data :=
  {| callback := _f h; data := owner_get (_data h) |}.

(** [c_callback::release()]: the pair for C, and the handle afterwards. *)
Definition c_callback_release (h : c_callback) : c_callback_data * c_callback :=
  let r := owner_release (_data h) in
  ({| callback := _f h; data := r.1 |}, {| _f := _f h; _data := r.2 |}).

(** The destructor of the handle. *)
Definition c_callback_destructor (h : c_callback) : M unit :=
  owner_destructor (_data h).

Section Packager.
Variable P : platform.

(** The body of the lambda of the allocating version:
    [deleter f{static_cast<node_t*>(data)}; move(get<1>( *f.ptr))();]
    with [~deleter()] running
    [make_allocator_deleter<node_t>(get<0>( *ptr))(ptr)]. *)
Definition call_allocated (d : void_ptr) : M unit :=
  match d with
  | ptr_node p =>
      scope_exit
        (do n <- read_node p; invoke n.2)
        (do n <- read_node p; allocator_deleter n.1 (Some p))
  | _ => halt Undefined
  end.

(** [sizeof(converter_t)] for [union converter_t { function_t f; void* p; }] *)
Definition sizeof_converter (ty : fn_type) : nat :=
  Nat.max (sizeof_fn ty) (sizeof_ptr P).

(** The body of the lambda of the version without allocation: the bytes
    of [data] are copied into an aligned local array, which is then
    called as a [function_t]. *)
Definition call_elided (ty : fn_type) (stack : list Byte.byte) (d : void_ptr) : M unit :=
  match d with
  | ptr_bits bs =>
      let converter := uninitialized stack (sizeof_converter ty) in
      let converter := memcpy converter bs (sizeof_ptr P) in
      invoke {| fn_ty := ty; fn_repr := take (sizeof_fn ty) converter |}
  | _ => halt Undefined
  end.

(** Calling [callback(data)] as the C side does. *)
Definition call_function_pointer (stack : list Byte.byte) (d : c_callback_data) : M unit :=
  match callback d with
  | callback_allocated => call_allocated (data d)
  | callback_elided ty => call_elided ty stack (data d)
  end.

(** [void operator()() { _f(_data.release()); }]: the handle afterwards. *)
Definition c_callback_call (stack : list Byte.byte) (h : c_callback) : M c_callback :=
  let r := c_callback_release h in
  call_function_pointer stack r.1 ;;
  ret r.2.

(** [can_elide_alloc] of [package_task_as_c_callback] *)
Definition can_elide_alloc (f : callable) : bool :=
  (sizeof_fn (fn_ty f) <=? sizeof_ptr P)%nat && trivially_copyable (fn_ty f).

(** [package_task_as_c_callback_impl(true_type, f, alloc, false_type)] *)
Definition package_impl_allocated (a : allocator) (f : callable) : M c_callback :=
  do p <- allocate_unique a f;
  ret {| _f := callback_allocated; _data := owner_unique_ptr (Some p) a |}.

(** [package_task_as_c_callback_impl(true_type, f, dont_care_t,
    true_type)]: [f] is copied byte by byte into a local array the size
    of [converter_t], and the [void*] is read from the start of it. *)
Definition package_impl_elided (stack : list Byte.byte) (f : callable) : M c_callback :=
  let converter := uninitialized stack (sizeof_converter (fn_ty f)) in
  let converter := memcpy converter (fn_repr f) (sizeof_fn (fn_ty f)) in
  ret {| _f := callback_elided (fn_ty f);
         _data := owner_data_t (take (sizeof_ptr P) converter) |}.

(** [package_task_as_c_callback(alloc, f)] for a function object [f]
    that is callable with no arguments. *)
Definition package_task_as_c_callback (stack : list Byte.byte) (a : allocator)
    (f : callable) : M c_callback :=
  if can_elide_alloc f then package_impl_elided stack f
  else package_impl_allocated a f.

End Packager.

(** ** Submitting a callable to the pool *)

(** What the overloads of [not_null] tell apart among the arguments a
    work_item is constructed from: plain function pointers, which may be
    null; [std::function]s, which may be empty; every other function object.
    (The overload for [std::nullptr_t] belongs to a constructor that is
    deleted.) *)
Inductive functor_kind :=
| function_object
| plain_function_pointer (null : bool)
| std_function (empty : bool).

(** An argument [f] of the constructor: its kind, and the callable that a
    copy of it is. *)
Record functor := {
  fu_kind : functor_kind;
  fu_callable : callable
}.

(** [not_null(f)] *)
Definition not_null (f : functor) : bool :=
  match fu_kind f with
  | function_object => true
  | plain_function_pointer null => negb null
  | std_function empty => negb empty
  end.

Section Submit.
Variable P : platform.

(** [work_item(std::allocator_arg_t, const Alloc& alloc, F&& f)] *)
Definition work_item_ctor (a : allocator) (f : functor) : M work_item :=
  assert (not_null f) "function is NULL" ;;
  emplace P a (fu_callable f).

(** [basic_thread_pool::schedule(alloc, f)].  A [work_item] is
    constructible from [(std::allocator_arg, alloc, f)], so the overload
    with [has_allocator_arg] is the one called:
    [schedule(work_t{std::allocator_arg, alloc, forward<F>(f)})].  The
    temporary is destroyed when [schedule(work_t&&)] has returned. *)
Definition schedule_alloc (a : allocator) (f : functor) : M unit :=
  do work <- work_item_ctor a f;
  do work <- schedule P work;
  work_item_destructor work.

(** [available_scheduler::operator()(alloc, f)] of a basic_thread_pool *)
Definition operator_call_alloc (a : allocator) (f : functor) : M unit :=
  schedule_alloc a f.

(** [available_scheduler::operator()(f)]:
    [self().schedule(std::allocator<char>{}, forward<F>(f))] *)
Definition operator_call (f : functor) : M unit :=
  schedule_alloc std_allocator f.

End Submit.

(** ** The destructor of the pool *)

Section PoolDestructor.
Variable P : platform.

(** [for(auto&& q : _queues) { q.done(); }]: the first of the two loops of
    [~basic_thread_pool()], the one that tells the queues to let their
    workers go. *)
Fixpoint done_each (qs : list nat) : M unit :=
  match qs with
  | [] => ret tt
  | q :: qs' => done P q ;; done_each qs'
  end.

Definition done_all : M unit := fun w =>
  done_each (seq 0 (length (_queues w))) w.

End PoolDestructor.

(** ** android_main_looper *)

Section AndroidMainLooper.
Variable P : platform.

(** [size_t] is as wide as a pointer; a [ssize_t] that is compared with a
    [size_t] is converted to it first. *)
Definition to_size_t (z : Z) : Z := z mod 2 ^ (8 * Z.of_nat (sizeof_ptr P)).

(** [android_main_looper::post()], given the value [written] that
    [write(_write_fd, &byte, sizeof(byte))] returns:
    [if(write(...) < sizeof(byte)) throw std::system_error{...};] *)
Definition post (written : Z) : M unit :=
  let sizeof_byte := 1 in
  if to_size_t written <? sizeof_byte then halt Throw else ret tt.
End AndroidMainLooper.

(** ** main_thread_task_queue *)

(** The [_queue] of the queue object that the "main thread" schedulers
    share.  Every member function holds [_mutex] from its first to its
    last access to the deque and so is one step on it; the functions below
    are these steps, from the deque before to the deque after. *)
Definition main_thread_task_queue := list work_item.

(** [main_thread_task_queue::push(f)]: the deque and [f] afterwards. *)
Definition main_push (mq : main_thread_task_queue) (f : work_item)
  : M (main_thread_task_queue * work_item) :=
  do (item, f') <- move_construct f;
  ret (mq ++ [item], f').

(** [main_thread_task_queue::try_pop(f)]: the result, the deque and [f]
    afterwards. *)
Definition main_try_pop (mq : main_thread_task_queue) (f : work_item)
  : M (bool * main_thread_task_queue * work_item) :=
  match mq with
  | [] => ret (false, mq, f)
  | front :: rest =>
      do (f', front') <- move_assign f front;
      work_item_destructor front' ;;
      ret (true, rest, f')
  end.

(** The destructor of a [std::deque<work_item>] runs the destructor of
    each element. *)
Fixpoint destroy_deque (items : list work_item) : M unit :=
  match items with
  | [] => ret tt
  | wi :: items' => work_item_destructor wi ;; destroy_deque items'
  end.

(** [main_thread_task_queue::clear()]: [temp] takes over the contents
    under the lock and is destroyed when the function returns.  The result
    is the deque afterwards. *)
Definition main_clear (mq : main_thread_task_queue) : M main_thread_task_queue :=
  let temp : list work_item := [] in
  let (mq, temp) := (temp, mq) in
  destroy_deque temp ;;
  ret mq.

(** The function that [libdispatch_main] passes to [dispatch_async_f]:
    [detail::work_item f;
     if(main_thread_task_queue::get().try_pop(f)) { move(f)(); }]
    The result is the deque afterwards. *)
Definition main_thread_callback (mq : main_thread_task_queue) : M main_thread_task_queue :=
  let f := work_item_default in
  do (popped, mq, f) <- main_try_pop mq f;
  scope_exit (if popped : bool then work_item_call f else ret tt)
             (work_item_destructor f) ;;
  ret mq.

(** ** The schedulers on top of a C interface *)

Section SystemSchedulers.
Variable P : platform.

(** [libdispatch_queue::schedule], [win32_default_pool::schedule] and
    [emscripten_async::schedule] are the same three statements, for
    [dispatch_async_f], [QueueUserWorkItem] and [emscripten_async_call]:
    [auto callback = package_task_as_c_callback<...>(alloc, forward<F>(f));
     dispatch_async_f(_queue, callback.get().data, callback.get().callback);
     callback.release();]
    The result is the pair that the C interface was given, which it calls
    later; the handle is destroyed when the function returns. *)
Definition system_schedule (stack : list Byte.byte) (a : allocator) (f : callable)
  : M c_callback_data :=
  do callback <- package_task_as_c_callback P stack a f;
  let handed_over := c_callback_get callback in
  let callback := (c_callback_release callback).2 in
  c_callback_destructor callback ;;
  ret handed_over.
End SystemSchedulers.

(** ** SharedNativeThreadPoolExecutor *)

(** The Java object that shares the pool with C++: the address of the
    native handle and the flag [destroyed]. *)
Record executor := {
  nativeRef : Z;
  destroyed : bool
}.

(** The constructor:
    [if (nativeRef == 0) throw new RuntimeException("nativeRef is zero");] *)
Definition executor_new (ref : Z) : option executor :=
  if ref =? 0 then None else Some {| nativeRef := ref; destroyed := false |}.

(** [shutdown()]: the calls of [nativeShutdown] that it makes, each with
    its argument, and the object afterwards.
    [boolean destroyed = this.destroyed.getAndSet(true);
     if (!destroyed) nativeShutdown(this.nativeRef);] *)
Definition shutdown (e : executor) : list Z * executor :=
  let was_destroyed := destroyed e in
  let e := {| nativeRef := nativeRef e; destroyed := true |} in
  (if negb was_destroyed then [nativeRef e] else [], e).

(** [finalize()]: [shutdown(); super.finalize();] *)
Definition finalize (e : executor) : list Z * executor := shutdown e.

(** What the owners of the object and the garbage collector call. *)
Inductive executor_call := CallShutdown | CallFinalize.

Definition executor_step (e : executor) (c : executor_call) : list Z * executor :=
  match c with
  | CallShutdown => shutdown e
  | CallFinalize => finalize e
  end.

(** A sequence of calls, one after the other: all the calls of
    [nativeShutdown] they make, and the object afterwards. *)
Fixpoint executor_calls (cs : list executor_call) (e : executor) : list Z * executor :=
  match cs with
  | [] => ([], e)
  | c :: cs' =>
      let (native, e') := executor_step e c in
      let (native', e'') := executor_calls cs' e' in
      (native ++ native', e'')
  end.

(** ** The Java runnable as a C++ task *)

(** The global references of the Java VM that are alive.  [NewGlobalRef]
    gives a reference that no other live reference is equal to;
    [DeleteGlobalRef] ends one, and must be given a live one. *)
Definition global_refs := gset positive.

Definition NewGlobalRef (g : global_refs) : positive * global_refs :=
  let h := fresh g in (h, {[h]} ∪ g).

Definition DeleteGlobalRef (h : positive) (g : global_refs) : option global_refs :=
  if decide (h ∈ g) then Some (g ∖ {[h]}) else None.

(** The class [F] of [native_execute], which wraps the [Runnable]:
    [jobject _runnable], null after the object has been moved from. *)
Record runnable_task := { _runnable : option positive }.

(** [F(JNIEnv* jniEnv, jobject runnable) noexcept
     : _runnable(jniEnv->NewGlobalRef(runnable))] *)
Definition runnable_task_new (g : global_refs) : runnable_task * global_refs :=
  let (h, g') := NewGlobalRef g in ({| _runnable := Some h |}, g').

(** [F(const F& other) noexcept]:
    [_runnable = other._runnable ? jniEnv->NewGlobalRef(other._runnable) : nullptr;] *)
Definition runnable_task_copy (other : runnable_task) (g : global_refs)
  : runnable_task * global_refs :=
  match _runnable other with
  | Some _ => let (h, g') := NewGlobalRef g in ({| _runnable := Some h |}, g')
  | None => ({| _runnable := None |}, g)
  end.

(** [F(F&& other) noexcept]: the new object and [other] afterwards.
    [_runnable = other._runnable; other._runnable = nullptr;] *)
Definition runnable_task_move (other : runnable_task) : runnable_task * runnable_task :=
  ({| _runnable := _runnable other |}, {| _runnable := None |}).

(** [~F()]: [if(_runnable) { jniGetThreadEnv()->DeleteGlobalRef(_runnable); }] *)
Definition runnable_task_destructor (f : runnable_task) (g : global_refs)
  : option global_refs :=
  match _runnable f with
  | Some h => DeleteGlobalRef h g
  | None => Some g
  end.

(** [operator()]: [assert(_runnable && "lost runnable reference");] and
    then the call of [run()], given by the reference it is made on. *)
Definition runnable_task_call (f : runnable_task) : string + positive :=
  match _runnable f with
  | Some h => inr h
  | None => inl "lost runnable reference"%string
  end.

(** A task that is moved [k] times, as it is on its way through the
    pool, each time into a new object, with the object it was moved from
    destroyed right after: the object at the end, and the references alive
    then. *)
Fixpoint runnable_task_relocate (k : nat) (f : runnable_task) (g : global_refs)
  : option (runnable_task * global_refs) :=
  match k with
  | O => Some (f, g)
  | S k' =>
      let (f', moved_from) := runnable_task_move f in
      match runnable_task_destructor moved_from g with
      | Some g' => runnable_task_relocate k' f' g'
      | None => None
      end
  end.

(** ** Specification vocabulary *)

(** A non-empty work_item whose target can be followed as far as a move
    follows it. *)
Definition movable (wi : work_item) : bool :=
  match _target wi with
  | nullptr => false
  | buffer_ptr => match _buffer wi with Some _ => true | None => false end
  | heap_ptr _ => true
  end.

(** The assigned-to object after [this = move(other)]. *)
Definition moved_into (this other : work_item) : work_item :=
  if is_embedded other
  then {| _buffer := _buffer other; _target := buffer_ptr |}
  else {| _buffer := _buffer this; _target := _target other |}.

(** The assigned-from object after [this = move(other)]. *)
Definition moved_from (other : work_item) : work_item :=
  {| _buffer := if is_embedded other then None else _buffer other;
     _target := nullptr |}.

(** What a move makes of the callable: nothing when a heap pointer is
    handed over; one move construction into the destination buffer and
    the destruction of the source when it lives in the buffer. *)
Definition relocation (other : work_item) : list event :=
  match _target other, _buffer other with
  | buffer_ptr, Some f => [EvConstruct f; EvDestroy f]
  | _, _ => []
  end.

(** Every payload in the queues is non-empty and can be moved. *)
Definition queues_movable (w : world) : bool :=
  forallb (fun tq => forallb movable (_queue tq)) (_queues w).

(** A small payload that lives in the buffer, and a payload on the heap,
    for the examples below. *)
Definition small_fn : callable :=
  {| fn_ty := {| sizeof_fn := 8; sizeof_embedded := 16;
                 nothrow_move_constructible := true; trivially_copyable := false;
                 construct_throws := false; call_throws := false |};
     fn_repr := [Byte.x2a; Byte.x00; Byte.x00; Byte.x00;
                 Byte.x00; Byte.x00; Byte.x00; Byte.x00] |}.

Definition large_fn : callable :=
  {| fn_ty := {| sizeof_fn := 400; sizeof_embedded := 408;
                 nothrow_move_constructible := true; trivially_copyable := false;
                 construct_throws := false; call_throws := false |};
     fn_repr := replicate 400 Byte.x01 |}.

Definition lp64 : platform :=
  {| sizeof_ptr := 8; sizeof_buffer := 32; hardware_concurrency := 8 |}.

Definition empty_world : world :=
  {| heap := ∅; log := []; sched := []; _num_threads := 1;
     _queues := [ {| _queue := []; _done := false |} ]; _threads := [];
     _next_thread := 0 |}.

Definition embedded_item : work_item :=
  {| _buffer := Some small_fn; _target := buffer_ptr |}.

(** Whether the mutex is free at the next synchronisation point, and the
    world the other threads leave there. *)
Definition mutex_free (w : world) : bool :=
  match sched w with
  | [] => true
  | t :: _ => lock_free t
  end.

Definition after_sync (P : platform) (w : world) : world :=
  match sched w with
  | [] => w
  | t :: ts => set_sched ts (apply_tick P t w)
  end.

Definition movable_queues (qs : list task_queue) : Prop :=
  Forall (fun tq => Forall (fun wi => movable wi = true) (_queue tq)) qs.

(** Allocation, construction, destruction and the moves of work_items act
    on the heap and the log only. *)
Definition frames_pool {A} (m : M A) : Prop :=
  forall w, _queues (m w).2 = _queues w
            /\ sched (m w).2 = sched w
            /\ _num_threads (m w).2 = _num_threads w
            /\ _next_thread (m w).2 = _next_thread w.

(** [done()] has been called on queue [q]: its flag is set. *)
Definition done_set (q : nat) (w : world) : Prop :=
  exists tq, _queues w !! q = Some tq /\ _done tq = true.

(** An operation under which no done flag is ever cleared. *)
Definition keeps_done {A} (m : M A) : Prop :=
  forall q w, done_set q w -> done_set q (m w).2.

(** The condition a waiter in [pop] looks for: the queue has an item, or
    its done flag is set. *)
Definition ready (q : nat) (w : world) : bool :=
  match _queues w !! q with
  | Some tq => negb (queue_empty tq) || _done tq
  | None => false
  end.

(** The worlds a waiter sees: the one in which it took the mutex, and the
    one at each later wake-up. *)
Fixpoint wake_ups (P : platform) (ticks : list tick) (w : world) : list world :=
  w :: match ticks with
       | [] => []
       | t :: ticks' => wake_ups P ticks' (apply_tick P t w)
       end.

(** How many of the coming synchronisation points find the mutex taken,
    one after the other. *)
Fixpoint busy_prefix (ticks : list tick) : nat :=
  match ticks with
  | [] => O
  | t :: ticks' => if lock_free t then O else S (busy_prefix ticks')
  end.

(** A submission by another thread: it takes its own number from the
    round-robin counter. *)
Definition is_submission (a : env_action) : bool :=
  match a with
  | EnvSubmit _ _ _ => true
  | _ => false
  end.

(** How many submissions the other threads make in the given
    synchronisation points. *)
Fixpoint submissions (ticks : list tick) : nat :=
  match ticks with
  | [] => O
  | t :: ticks' =>
      (length (List.filter is_submission (interference t)) + submissions ticks')%nat
  end.

(** The claim in the words of the specification: attempt [k] is made on
    queue [(s + k) mod N], the fallback on queue [s mod N]. *)
Definition spec_attempt_queue (s n k : Z) : nat := Z.to_nat ((s + k) mod n).

Definition spec_schedule_trace (s n : Z) (fails : nat) : list event :=
  ((fun k => EvTryPush (spec_attempt_queue s n k) false) <$> seqZ 0 (Z.of_nat fails))
  ++ (if (fails <? Z.to_nat n)%nat
      then [EvTryPush (spec_attempt_queue s n (Z.of_nat fails)) true]
      else [EvPush (Z.to_nat (s mod n))]).

(** Three idle queues, the counter at its last value before it wraps, and
    a first attempt that finds the mutex taken. *)
Definition wrap_world : world :=
  {| heap := ∅; log := [];
     sched := [ {| interference := []; lock_free := false |} ];
     _num_threads := 3;
     _queues := replicate 3 {| _queue := []; _done := false |};
     _threads := [];
     _next_thread := 4294967295 |}.



(** Nodes that exist stay where they are. *)
Definition heap_extends (h h' : gmap addr cell) : Prop :=
  forall p n, h !! p = Some (Some n) -> h' !! p = Some (Some n).


(** What becomes of a handle: how its owner and the C side use it until
    it is destroyed. *)
Inductive lifetime :=
| DestroyOnly            (* the handle is destroyed, nothing else *)
| ReleaseInvokeDestroy   (* release(); the C side calls callback(data) once *)
| CallDestroy            (* the handle is called directly *)
| ReleaseDestroy         (* release(); the C side never calls the callback *)
| GetInvokeDestroy.      (* get(); the C side calls callback(data); no release *)

(** The lifetimes in which the callback runs exactly once if ownership
    was given up, and not at all otherwise. *)
Definition follows_protocol (l : lifetime) : bool :=
  match l with
  | DestroyOnly | ReleaseInvokeDestroy | CallDestroy => true
  | ReleaseDestroy | GetInvokeDestroy => false
  end.

(** The caller of a callback catches what it throws. *)
Definition catch (m : M unit) : M unit := fun w =>
  match m w with
  | (Stop Throw, w') => (Ret tt, w')
  | r => r
  end.

Definition live (P : platform) (stack : list Byte.byte) (l : lifetime)
    (h : c_callback) : M unit :=
  match l with
  | DestroyOnly => c_callback_destructor h
  | ReleaseInvokeDestroy =>
      let r := c_callback_release h in
      catch (call_function_pointer P stack r.1) ;;
      c_callback_destructor r.2
  | CallDestroy =>
      fun w =>
        match c_callback_call P stack h w with
        | (Ret h', w') => c_callback_destructor h' w'
        | (Stop Throw, w') => c_callback_destructor (c_callback_release h).2 w'
        | (Stop s, w') => (Stop s, w')
        end
  | ReleaseDestroy =>
      let r := c_callback_release h in
      c_callback_destructor r.2
  | GetInvokeDestroy =>
      catch (call_function_pointer P stack (c_callback_get h)) ;;
      c_callback_destructor h
  end.

(** One queue that holds one small payload. *)
Definition one_task_world : world :=
  {| heap := ∅; log := []; sched := []; _num_threads := 1;
     _queues := [ {| _queue := [embedded_item]; _done := false |} ]; _threads := [];
     _next_thread := 0 |}.


(** A callable the size of a pointer that can be copied byte by byte. *)
Definition pointer_fn : callable :=
  {| fn_ty := {| sizeof_fn := 8; sizeof_embedded := 16;
                 nothrow_move_constructible := true; trivially_copyable := true;
                 construct_throws := false; call_throws := false |};
     fn_repr := [Byte.xef; Byte.xcd; Byte.xab; Byte.x90;
                 Byte.x78; Byte.x56; Byte.x34; Byte.x12] |}.

(** A function object as an argument of the constructor, a function
    pointer that is null, and a callable whose copy constructor throws. *)
Definition as_function_object (c : callable) : functor :=
  {| fu_kind := function_object; fu_callable := c |}.

Definition null_function_pointer : functor :=
  {| fu_kind := plain_function_pointer true; fu_callable := pointer_fn |}.

Definition throwing_fn : callable :=
  {| fn_ty := {| sizeof_fn := 400; sizeof_embedded := 408;
                 nothrow_move_constructible := true; trivially_copyable := false;
                 construct_throws := true; call_throws := false |};
     fn_repr := replicate 400 Byte.x02 |}.

Definition is_construction (e : event) : bool :=
  match e with EvConstruct _ => true | _ => false end.

(** What the destructor of a work_item does to the callable it holds in
    the heap [h]: the callable is destroyed and a node on the heap is
    deallocated through the allocator stored in it. *)
Definition destruction (h : gmap addr cell) (wi : work_item) : list event :=
  match _target wi with
  | nullptr => []
  | buffer_ptr =>
      match _buffer wi with
      | Some c => [EvDestroy c]
      | None => []
      end
  | heap_ptr p =>
      match h !! p with
      | Some (Some n) => [EvDestroy n.2; EvDeallocate n.1 p]
      | _ => []
      end
  end.

(** The heap once the node that a work_item points to is gone. *)
Definition heap_without (h : gmap addr cell) (wi : work_item) : gmap addr cell :=
  match _target wi with
  | heap_ptr p => delete p h
  | _ => h
  end.

(** The heap nodes that the payloads of a queue point to. *)
Definition owned (items : list work_item) : list addr :=
  omap (fun wi => match _target wi with heap_ptr p => Some p | _ => None end) items.

(** The [try_pop] attempts that found nothing, as they appear in the log
    of worker [index] of [n]. *)
Definition failed_pops (index n : Z) (idxs : list Z) : list event :=
  (fun j => EvTryPop (Z.to_nat ((index + j) mod n)) false None) <$> idxs.

(** One worker whose queue is done and still holds one small payload. *)
Definition draining_world : world :=
  {| heap := ∅; log := []; sched := []; _num_threads := 1;
     _queues := [ {| _queue := [embedded_item]; _done := true |} ]; _threads := [];
     _next_thread := 0 |}.

(** A pool of two workers with nothing to do and nobody else at work. *)
Definition idle_world : world :=
  {| heap := ∅; log := []; sched := []; _num_threads := 2;
     _queues := replicate 2 {| _queue := []; _done := false |};
     _threads := []; _next_thread := 0 |}.

(** Callables that are submitted one after the other, each through the
    call operator. *)
Fixpoint submit_each (P : platform) (a : allocator) (fs : list functor) : M unit :=
  match fs with
  | [] => ret tt
  | f :: fs' => operator_call_alloc P a f ;; submit_each P a fs'
  end.

(** How many of the [m] numbers [s], [s + 1], ..., [s + m - 1] are [q]
    modulo [n]. *)
Definition turns_at (s n : Z) (m : nat) (q : nat) : nat :=
  length (List.filter (fun k => Nat.eqb (Z.to_nat ((s + k) mod n)) q)
            (seqZ 0 (Z.of_nat m))).

(** * Proofs *)

(** ** The monad and the log *)

Ltac unfold_monad :=
  unfold bind, ret, halt, emit, assert, get_heap, put_heap in *.

Lemma new_events_app (w w' : world) (evs : list event) :
  log w' = log w ++ evs -> new_events w w' = evs.
Proof.
  intros H. unfold new_events. rewrite H. by rewrite drop_app_length.
Qed.



(** ** Moving a work_item *)

Lemma movable_nonempty (wi : work_item) : movable wi = true -> operator_bool wi = true.
Proof. unfold movable, operator_bool. by destruct (_target wi). Qed.

Lemma move_assign_ok (this other : work_item) (w : world) :
  operator_bool this = false ->
  movable other = true ->
  move_assign this other w =
    (Ret (moved_into this other, moved_from other),
     set_log (log w ++ relocation other) w).
Proof.
  intros Hthis Hother.
  pose proof (movable_nonempty _ Hother) as Hne.
  unfold move_assign, moved_into, moved_from, relocation, is_embedded, deref,
    move_and_destroy, destroy, movable in *.
  unfold_monad. rewrite Hthis, Hne. simpl.
  destruct other as [buf [| |p]]; simpl in *; try done.
  - destruct buf as [f|]; [|done]. simpl.
    unfold set_log; simpl. by rewrite <- app_assoc.
  - destruct w; unfold set_log; simpl. by rewrite app_nil_r.
Qed.

Lemma held_moved_into (h : gmap addr cell) (this other : work_item) (c : callable) :
  held h other = Some c -> held h (moved_into this other) = Some c.
Proof.
  unfold held, moved_into, is_embedded.
  destruct other as [buf [| |p]]; simpl; try done.
Qed.

Lemma held_movable (h : gmap addr cell) (wi : work_item) (c : callable) :
  held h wi = Some c -> movable wi = true.
Proof.
  unfold held, movable. destruct (_target wi); try done.
  by intros ->.
Qed.

(** C10. The move constructor is move assignment to an object whose
    target was just set to null.  For an empty destination: a source that
    holds a callable [c] passes both assertions, is empty afterwards, and
    the destination holds [c] -- in its own buffer, after one move
    construction and the destruction of the source's copy, when the source
    had it in its buffer; through the very same heap pointer, with no
    event at all, otherwise.  No non-empty source makes an assertion fire;
    an empty source fails the second assertion. *)
Theorem work_item_move (this other : work_item) (w : world) :
  operator_bool this = false ->
  move_construct other w = move_assign work_item_default other w
  /\ (forall c, held (heap w) other = Some c ->
        exists this' other' w',
          move_assign this other w = (Ret (this', other'), w')
          /\ operator_bool other' = false
          /\ held (heap w') this' = Some c
          /\ heap w' = heap w
          /\ (is_embedded other = true ->
                _target this' = buffer_ptr /\ _buffer this' = Some c
                /\ log w' = log w ++ [EvConstruct c; EvDestroy c])
          /\ (is_embedded other = false ->
                _target this' = _target other /\ log w' = log w))
  /\ (operator_bool other = true ->
        forall msg, (move_assign this other w).1 <> Stop (AssertFail msg))
  /\ (operator_bool other = false ->
        move_assign this other w = (Stop (AssertFail "moved from work_item twice"), w)).
Proof.
  intros Hthis. split; [reflexivity|]. split; [|split].
  - intros c Hc.
    pose proof (held_movable _ _ _ Hc) as Hmov.
    eexists _, _, _. split; [by apply move_assign_ok|].
    split; [reflexivity|]. simpl.
    split; [by apply held_moved_into|]. split; [reflexivity|].
    unfold moved_into, relocation, is_embedded, held in *.
    destruct other as [buf [| |p]]; simpl in *; try done.
    + subst buf. split; [intros _|done]. done.
    + split; [done|intros _]. by rewrite app_nil_r.
  - intros Hne msg.
    unfold move_assign, is_embedded, deref, move_and_destroy, destroy.
    unfold_monad. rewrite Hthis, Hne. simpl.
    destruct other as [buf [| |p]]; simpl; try done.
    destruct buf; simpl; done.
  - intros He. unfold move_assign. unfold_monad. by rewrite Hthis, He.
Qed.

Lemma work_item_move_witness :
  operator_bool work_item_default = false
  /\ (move_construct embedded_item empty_world).1
     = Ret ({| _buffer := Some small_fn; _target := buffer_ptr |},
            {| _buffer := None; _target := nullptr |}).
Proof.
  split; [reflexivity|].
  destruct (work_item_move work_item_default embedded_item empty_world eq_refl)
    as [-> _].
  reflexivity.
Defined.

(** ** Allocation *)

Lemma fresh_unallocated (h : gmap addr cell) : h !! fresh (dom h) = None.
Proof. apply not_elem_of_dom, is_fresh. Qed.

Lemma allocate_unique_ok (a : allocator) (f : callable) (w : world) :
  construct_throws (fn_ty f) = false ->
  allocate_unique a f w =
    (Ret (fresh (dom (heap w))),
     set_log (log w ++ [EvAllocate a (fresh (dom (heap w))); EvConstruct f])
       (set_heap (<[fresh (dom (heap w)) := Some (a, f)]> (heap w)) w)).
Proof.
  intros Hc. unfold allocate_unique, allocate, on_throw, construct_node,
    construct_callable. unfold_monad. simpl.
  rewrite lookup_insert_eq. rewrite Hc. simpl.
  rewrite insert_insert_eq. unfold set_log, set_heap; simpl.
  by rewrite <- app_assoc.
Qed.

Lemma allocate_unique_throws (a : allocator) (f : callable) (w : world) :
  construct_throws (fn_ty f) = true ->
  allocate_unique a f w =
    (Stop Throw,
     set_log (log w ++ [EvAllocate a (fresh (dom (heap w)));
                        EvDeallocate a (fresh (dom (heap w)))])
       (set_heap (heap w) w)).
Proof.
  intros Hc. unfold allocate_unique, allocate, on_throw, construct_node,
    construct_callable, deallocate. unfold_monad. simpl.
  rewrite lookup_insert_eq. rewrite Hc. simpl.
  rewrite lookup_insert_eq. simpl.
  rewrite delete_insert_id by apply fresh_unallocated.
  unfold set_log, set_heap; simpl. by rewrite <- app_assoc.
Qed.

(** ** Destroying a work_item *)

Lemma destructor_empty (wi : work_item) (w : world) :
  operator_bool wi = false -> work_item_destructor wi w = (Ret tt, w).
Proof. intros H. unfold work_item_destructor. by rewrite H. Qed.

Lemma destructor_embedded (c : callable) (w : world) :
  work_item_destructor {| _buffer := Some c; _target := buffer_ptr |} w =
    (Ret tt, set_log (log w ++ [EvDestroy c]) w).
Proof. reflexivity. Qed.

Lemma destructor_heap (buf : option callable) (p : addr) (a : allocator)
    (c : callable) (w : world) :
  heap w !! p = Some (Some (a, c)) ->
  work_item_destructor {| _buffer := buf; _target := heap_ptr p |} w =
    (Ret tt,
     set_log (log w ++ [EvDestroy c; EvDeallocate a p])
       (set_heap (delete p (heap w)) w)).
Proof.
  intros Hp. unfold work_item_destructor, deref, read_node, destroy_dealloc,
    destroy, destroy_node, read_node, deallocate. unfold_monad. simpl.
  rewrite Hp. simpl. rewrite Hp. simpl. rewrite lookup_insert_eq. simpl.
  rewrite delete_insert_eq. unfold set_log, set_heap; simpl.
  by rewrite <- app_assoc.
Qed.

(** C6. [emplace] puts the callable into the buffer, and touches no
    allocator, exactly when [can_embed] holds, that is when the node
    [fun_without_alloc<F>] fits into the buffer and [F] is
    nothrow-move-constructible.  Otherwise it allocates exactly once,
    through the allocator it was given, a node that holds that allocator
    and the callable (and gives the storage back at once if the
    construction of the node throws); the destructor of the resulting
    work_item destroys the node and deallocates it exactly once, through
    the allocator stored in the node. *)
Theorem emplace_storage (P : platform) (a : allocator) (f : callable) (w : world) :
  (can_embed P f = true <->
     (sizeof_embedded (fn_ty f) <= sizeof_buffer P)%nat
     /\ nothrow_move_constructible (fn_ty f) = true)
  /\ (can_embed P f = true ->
        let r := emplace P a f w in
        heap r.2 = heap w
        /\ List.filter is_allocation (new_events w r.2) = []
        /\ List.filter is_deallocation (new_events w r.2) = []
        /\ (construct_throws (fn_ty f) = false ->
              r.1 = Ret {| _buffer := Some f; _target := buffer_ptr |}
              /\ new_events w r.2 = [EvConstruct f])
        /\ (construct_throws (fn_ty f) = true ->
              r.1 = Stop Throw /\ new_events w r.2 = []))
  /\ (can_embed P f = false ->
        let r := emplace P a f w in
        exists p,
          heap w !! p = None
          /\ List.filter is_allocation (new_events w r.2) = [EvAllocate a p]
          /\ (construct_throws (fn_ty f) = false ->
                r.1 = Ret {| _buffer := None; _target := heap_ptr p |}
                /\ heap r.2 = <[p := Some (a, f)]> (heap w)
                /\ new_events w r.2 = [EvAllocate a p; EvConstruct f]
                /\ let d := work_item_destructor
                              {| _buffer := None; _target := heap_ptr p |} r.2 in
                   d.1 = Ret tt
                   /\ new_events r.2 d.2 = [EvDestroy f; EvDeallocate a p]
                   /\ heap d.2 = heap w)
          /\ (construct_throws (fn_ty f) = true ->
                r.1 = Stop Throw
                /\ heap r.2 = heap w
                /\ new_events w r.2 = [EvAllocate a p; EvDeallocate a p])).
Proof.
  split; [|split].
  - unfold can_embed. rewrite andb_true_iff, Nat.leb_le. done.
  - intros He. unfold emplace. rewrite He. unfold emplace_impl_embed,
      construct_callable. unfold_monad.
    destruct (construct_throws (fn_ty f)) eqn:Hc; simpl.
    + unfold new_events. rewrite drop_all. repeat split; try done.
    + rewrite (new_events_app w _ [EvConstruct f]) by done.
      repeat split; try done.
  - intros He. unfold emplace. rewrite He. unfold emplace_impl_alloc.
    exists (fresh (dom (heap w))). split; [apply fresh_unallocated|].
    unfold_monad.
    destruct (construct_throws (fn_ty f)) eqn:Hc.
    + rewrite allocate_unique_throws by done. simpl.
      erewrite new_events_app by (simpl; reflexivity).
      repeat split; try done.
    + rewrite allocate_unique_ok by done. simpl.
      erewrite new_events_app by (simpl; reflexivity).
      split; [done|]. split; [|done]. intros _.
      repeat split; try done.
      * erewrite destructor_heap by (simpl; apply lookup_insert_eq). done.
      * erewrite destructor_heap by (simpl; apply lookup_insert_eq).
        erewrite new_events_app by (simpl; reflexivity). done.
      * erewrite destructor_heap by (simpl; apply lookup_insert_eq).
        simpl. apply delete_insert_id, fresh_unallocated.
Qed.

(** C9. Calling a work_item that holds a callable [c] invokes [c] and
    does nothing else: no destructor runs, the heap is as before, and the
    work_item -- whose members the call operator does not assign -- is
    still non-empty and still holds [c].  The destructor that follows
    destroys [c] once and, when [c] lives on the heap, deallocates its
    node once. *)
Theorem work_item_call_keeps (wi : work_item) (c : callable) (w : world) :
  held (heap w) wi = Some c ->
  let r := work_item_call wi w in
  r.1 = (if call_throws (fn_ty c) then Stop Throw else Ret tt)
  /\ new_events w r.2 = [EvInvoke c]
  /\ heap r.2 = heap w
  /\ operator_bool wi = true
  /\ held (heap r.2) wi = Some c
  /\ let d := work_item_destructor wi r.2 in
     d.1 = Ret tt
     /\ List.filter is_destruction (new_events r.2 d.2) = [EvDestroy c]
     /\ match _target wi with
        | heap_ptr p =>
            exists a, heap w !! p = Some (Some (a, c))
                      /\ new_events r.2 d.2 = [EvDestroy c; EvDeallocate a p]
                      /\ heap d.2 = delete p (heap w)
        | _ => new_events r.2 d.2 = [EvDestroy c] /\ heap d.2 = heap w
        end.
Proof.
  intros Hc.
  assert (Hcall : work_item_call wi w =
            (if call_throws (fn_ty c) then Stop Throw else Ret tt,
             set_log (log w ++ [EvInvoke c]) w)).
  { unfold work_item_call, deref, read_node, call_node, invoke, held in *.
    unfold_monad.
    destruct wi as [buf [| |p]]; simpl in *; try done.
    - subst buf. simpl. by destruct (call_throws (fn_ty c)).
    - destruct (heap w !! p) as [[[a c']|]|] eqn:Hp; simpl in *; try done.
      injection Hc as ->. by destruct (call_throws (fn_ty c)). }
  simpl. rewrite Hcall. simpl.
  erewrite new_events_app by (simpl; reflexivity).
  split; [done|]. split; [done|]. split; [done|].
  split; [eapply movable_nonempty, held_movable; eauto|].
  split; [done|].
  unfold held in Hc.
  destruct wi as [buf [| |p]]; simpl in *; try done.
  - subst buf. rewrite destructor_embedded. simpl.
    erewrite new_events_app by (simpl; reflexivity). done.
  - destruct (heap w !! p) as [[[a c']|]|] eqn:Hp; simpl in *; try done.
    injection Hc as ->.
    erewrite destructor_heap by (simpl; exact Hp). simpl.
    erewrite new_events_app by (simpl; reflexivity).
    split; [done|]. split; [done|]. exists a. done.
Qed.

(** ** Synchronisation points *)

Lemma sync_eq (P : platform) (w : world) :
  sync P w = (Ret (mutex_free w), after_sync P w).
Proof. unfold sync, mutex_free, after_sync. by destruct (sched w). Qed.

Lemma log_apply_env (P : platform) (w : world) (a : env_action) :
  log (apply_env P w a) = log w.
Proof.
  destruct a as [q al f|q|q]; simpl.
  - by destruct (emplace P al f _) as [[wi|s] w2].
  - by destruct (_queues w !! q).
  - by destruct (_queues w !! q).
Qed.

Lemma log_apply_tick (P : platform) (t : tick) (w : world) :
  log (apply_tick P t w) = log w.
Proof.
  unfold apply_tick. revert w.
  induction (interference t) as [|a l IH]; intros w; simpl; [done|].
  by rewrite IH, log_apply_env.
Qed.

Lemma log_after_sync (P : platform) (w : world) : log (after_sync P w) = log w.
Proof.
  unfold after_sync. destruct (sched w); [done|]. simpl. apply log_apply_tick.
Qed.

Lemma emplace_back_ok (q : nat) (f : work_item) (tq : task_queue) (w : world) :
  movable f = true ->
  _queues w !! q = Some tq ->
  emplace_back q f w =
    (Ret (moved_from f),
     set_queues (<[q := {| _queue := _queue tq ++ [moved_into work_item_default f];
                           _done := _done tq |}]> (_queues w))
       (set_log (log w ++ relocation f) w)).
Proof.
  intros Hf Hq. unfold emplace_back, get_queue, move_construct, put_queue.
  unfold bind at 1. rewrite Hq. unfold bind at 1.
  rewrite move_assign_ok by done. reflexivity.
Qed.

Lemma held_moved_into_default (h : gmap addr cell) (f : work_item) :
  held h (moved_into work_item_default f) = held h f.
Proof.
  unfold held, moved_into, is_embedded. by destruct f as [buf [| |p]].
Qed.

Lemma try_push_busy (P : platform) (q : nat) (f : work_item) (w : world) :
  mutex_free w = false ->
  try_push P q f w =
    (Ret (false, f), set_log (log w ++ [EvTryPush q false]) (after_sync P w)).
Proof.
  intros Hm. unfold try_push, try_to_lock. unfold bind at 1.
  rewrite sync_eq, Hm. simpl. unfold_monad. simpl.
  by rewrite log_after_sync.
Qed.

Lemma try_push_free (P : platform) (q : nat) (f : work_item) (tq : task_queue)
    (w : world) :
  _queues (after_sync P w) !! q = Some tq ->
  mutex_free w = true -> movable f = true ->
  try_push P q f w =
    (Ret (true, moved_from f),
     set_queues (<[q := {| _queue := _queue tq ++ [moved_into work_item_default f];
                           _done := _done tq |}]> (_queues (after_sync P w)))
       (set_log (log w ++ relocation f ++ [EvNotifyOne q; EvTryPush q true])
          (after_sync P w))).
Proof.
  intros Hq Hm Hf. unfold try_push, try_to_lock. unfold bind at 1.
  rewrite sync_eq, Hm. simpl. unfold bind at 1.
  rewrite (emplace_back_ok q f tq) by done.
  unfold_monad. simpl. rewrite log_after_sync.
  unfold set_queues, set_log. simpl. by rewrite <- !app_assoc.
Qed.

Lemma push_ok (P : platform) (q : nat) (f : work_item) (tq : task_queue)
    (w : world) :
  _queues (after_sync P w) !! q = Some tq ->
  movable f = true ->
  push P q f w =
    (Ret (moved_from f),
     set_queues (<[q := {| _queue := _queue tq ++ [moved_into work_item_default f];
                           _done := _done tq |}]> (_queues (after_sync P w)))
       (set_log (log w ++ relocation f ++ [EvNotifyOne q; EvPush q])
          (after_sync P w))).
Proof.
  intros Hq Hf. unfold push, lock. unfold bind at 1. unfold bind at 1.
  rewrite sync_eq. unfold ret at 1. unfold bind at 1.
  rewrite (emplace_back_ok q f tq) by done.
  unfold_monad. simpl. rewrite log_after_sync.
  unfold set_queues, set_log. simpl. by rewrite <- !app_assoc.
Qed.

(** C4. At a queue whose mutex is not free, [try_push] returns false:
    the queues are as the other threads left them and the caller's
    payload is returned untouched.  With the mutex free, [try_push] moves
    the payload to the back of the queue, notifies one waiter and returns
    true.  [push] does not ask: it always moves the payload to the back
    of the queue and notifies one waiter.  After a successful [try_push]
    and after [push] the caller's object is empty. *)
Theorem try_push_push (P : platform) (q : nat) (f : work_item) (tq : task_queue)
    (w : world) :
  _queues (after_sync P w) !! q = Some tq ->
  (mutex_free w = false ->
     let r := try_push P q f w in
     r.1 = Ret (false, f)
     /\ _queues r.2 = _queues (after_sync P w)
     /\ heap r.2 = heap (after_sync P w)
     /\ new_events w r.2 = [EvTryPush q false])
  /\ (mutex_free w = true -> movable f = true ->
        let r := try_push P q f w in
        r.1 = Ret (true, moved_from f)
        /\ operator_bool (moved_from f) = false
        /\ _queues r.2 =
             <[q := {| _queue := _queue tq ++ [moved_into work_item_default f];
                       _done := _done tq |}]> (_queues (after_sync P w))
        /\ held (heap r.2) (moved_into work_item_default f)
           = held (heap (after_sync P w)) f
        /\ new_events w r.2 = relocation f ++ [EvNotifyOne q; EvTryPush q true])
  /\ (movable f = true ->
        let r := push P q f w in
        r.1 = Ret (moved_from f)
        /\ operator_bool (moved_from f) = false
        /\ _queues r.2 =
             <[q := {| _queue := _queue tq ++ [moved_into work_item_default f];
                       _done := _done tq |}]> (_queues (after_sync P w))
        /\ held (heap r.2) (moved_into work_item_default f)
           = held (heap (after_sync P w)) f
        /\ new_events w r.2 = relocation f ++ [EvNotifyOne q; EvPush q]).
Proof.
  intros Hq. split; [|split].
  - intros Hm. rewrite try_push_busy by done. simpl.
    erewrite new_events_app by (simpl; reflexivity). done.
  - intros Hm Hf. rewrite (try_push_free P q f tq) by done. simpl.
    erewrite new_events_app by (simpl; reflexivity).
    split; [done|]. split; [done|]. split; [done|].
    split; [apply held_moved_into_default|done].
  - intros Hf. rewrite (push_ok P q f tq) by done. simpl.
    erewrite new_events_app by (simpl; reflexivity).
    split; [done|]. split; [done|]. split; [done|].
    split; [apply held_moved_into_default|done].
Qed.

(** ** Invariants of the queues under the other threads *)

Lemma forallb_Forall_true {A} (f : A -> bool) (l : list A) :
  forallb f l = true <-> Forall (fun x => f x = true) l.
Proof.
  induction l as [|x l IH]; simpl.
  - split; [constructor|done].
  - rewrite andb_true_iff, Forall_cons, IH. done.
Qed.

Lemma queues_movable_spec (w : world) :
  queues_movable w = true <-> movable_queues (_queues w).
Proof.
  unfold queues_movable, movable_queues.
  rewrite forallb_Forall_true. apply Forall_iff. intros tq.
  apply forallb_Forall_true.
Qed.

Lemma emplace_frame (P : platform) (a : allocator) (f : callable) (w : world) :
  _queues (emplace P a f w).2 = _queues w
  /\ sched (emplace P a f w).2 = sched w
  /\ _num_threads (emplace P a f w).2 = _num_threads w
  /\ _next_thread (emplace P a f w).2 = _next_thread w
  /\ match (emplace P a f w).1 with
     | Ret wi => movable wi = true
     | Stop s => s = Throw
     end.
Proof.
  unfold emplace, emplace_impl_embed, emplace_impl_alloc, construct_callable.
  destruct (can_embed P f).
  - unfold_monad. by destruct (construct_throws (fn_ty f)).
  - unfold_monad. destruct (construct_throws (fn_ty f)) eqn:Hc.
    + by rewrite allocate_unique_throws.
    + by rewrite allocate_unique_ok.
Qed.

Lemma movable_queues_insert (qs : list task_queue) (q : nat) (tq : task_queue) :
  movable_queues qs ->
  Forall (fun wi => movable wi = true) (_queue tq) ->
  movable_queues (<[q := tq]> qs).
Proof. intros H1 H2. by apply Forall_insert. Qed.

Lemma movable_queues_lookup (qs : list task_queue) (q : nat) (tq : task_queue) :
  movable_queues qs -> qs !! q = Some tq ->
  Forall (fun wi => movable wi = true) (_queue tq).
Proof. intros H Hq. exact (Forall_lookup_1 _ _ _ _ H Hq). Qed.

Lemma apply_env_movable (P : platform) (w : world) (a : env_action) :
  movable_queues (_queues w) -> movable_queues (_queues (apply_env P w a)).
Proof.
  intros H. destruct a as [q al f|q|q]; simpl.
  - pose proof (emplace_frame P al f
      (set_next_thread (to_unsigned (_next_thread w + 1)) w)) as (Hq & _ & _ & _ & Hm).
    destruct (emplace P al f _) as [[wi|s] w2]; simpl in *; [|by rewrite Hq].
    unfold append_item. rewrite Hq. simpl.
    destruct (_queues w !! q) as [tq|] eqn:Htq; simpl; [|by rewrite Hq].
    apply movable_queues_insert; [done|]. simpl.
    apply Forall_app. split; [by eapply movable_queues_lookup|].
    by apply Forall_singleton.
  - destruct (_queues w !! q) as [tq|] eqn:Htq; simpl; [|done].
    apply movable_queues_insert; [done|]. simpl.
    pose proof (movable_queues_lookup _ _ _ H Htq) as Hf.
    destruct (_queue tq); [done|]. simpl. by inversion Hf.
  - destruct (_queues w !! q) as [tq|] eqn:Htq; simpl; [|done].
    apply movable_queues_insert; [done|]. simpl.
    by eapply movable_queues_lookup.
Qed.

Lemma apply_env_length (P : platform) (w : world) (a : env_action) :
  length (_queues (apply_env P w a)) = length (_queues w).
Proof.
  destruct a as [q al f|q|q]; simpl.
  - pose proof (emplace_frame P al f
      (set_next_thread (to_unsigned (_next_thread w + 1)) w)) as (Hq & _).
    destruct (emplace P al f _) as [[wi|s] w2]; simpl in *; [|by rewrite Hq].
    unfold append_item. rewrite Hq. simpl.
    destruct (_queues w !! q); simpl; rewrite ?Hq, ?length_insert; done.
  - destruct (_queues w !! q); simpl; rewrite ?length_insert; done.
  - destruct (_queues w !! q); simpl; rewrite ?length_insert; done.
Qed.

Lemma apply_tick_movable (P : platform) (t : tick) (w : world) :
  movable_queues (_queues w) -> movable_queues (_queues (apply_tick P t w)).
Proof.
  unfold apply_tick. revert w.
  induction (interference t) as [|a l IH]; intros w H; simpl; [done|].
  by apply IH, apply_env_movable.
Qed.

Lemma apply_tick_length (P : platform) (t : tick) (w : world) :
  length (_queues (apply_tick P t w)) = length (_queues w).
Proof.
  unfold apply_tick. revert w.
  induction (interference t) as [|a l IH]; intros w; simpl; [done|].
  by rewrite IH, apply_env_length.
Qed.

Lemma after_sync_movable (P : platform) (w : world) :
  movable_queues (_queues w) -> movable_queues (_queues (after_sync P w)).
Proof.
  unfold after_sync. destruct (sched w); [done|]. simpl. apply apply_tick_movable.
Qed.

Lemma after_sync_length (P : platform) (w : world) :
  length (_queues (after_sync P w)) = length (_queues w).
Proof.
  unfold after_sync. destruct (sched w); [done|]. simpl. apply apply_tick_length.
Qed.

(** ** Operations that leave the pool's members alone *)

Lemma frames_ret {A} (a : A) : frames_pool (ret a).
Proof. by intros w. Qed.

Lemma frames_halt {A} (s : stop) : frames_pool (@halt A s).
Proof. by intros w. Qed.

Lemma frames_emit (e : event) : frames_pool (emit e).
Proof. by intros w. Qed.

Lemma frames_assert (c : bool) (msg : string) : frames_pool (assert c msg).
Proof. by destruct c; intros w. Qed.

Lemma frames_get_heap : frames_pool get_heap.
Proof. by intros w. Qed.

Lemma frames_put_heap (h : gmap addr cell) : frames_pool (put_heap h).
Proof. by intros w. Qed.

Lemma frames_bind {A B} (m : M A) (k : A -> M B) :
  frames_pool m -> (forall a, frames_pool (k a)) -> frames_pool (bind m k).
Proof.
  intros Hm Hk w. unfold bind. specialize (Hm w).
  destruct (m w) as [[a|s] w1]; simpl in *; [|done].
  specialize (Hk a w1). destruct Hk as (-> & -> & -> & ->). done.
Qed.

Lemma frames_on_throw {A} (m : M A) (c : M unit) :
  frames_pool m -> frames_pool c -> frames_pool (on_throw m c).
Proof.
  intros Hm Hc w. unfold on_throw. specialize (Hm w).
  destruct (m w) as [[a|[]] w1]; simpl in *; try done.
  specialize (Hc w1). destruct (c w1) as [[[]|s] w2]; simpl in *;
    destruct Hc as (-> & -> & -> & ->); done.
Qed.

Lemma frames_scope_exit {A} (m : M A) (c : M unit) :
  frames_pool m -> frames_pool c -> frames_pool (scope_exit m c).
Proof.
  intros Hm Hc w. unfold scope_exit. specialize (Hm w).
  destruct (m w) as [[a|[]] w1]; simpl in *; try done;
    specialize (Hc w1); destruct (c w1) as [[[]|s] w2]; simpl in *;
    destruct Hc as (-> & -> & -> & ->); done.
Qed.

Create HintDb frames discriminated.
#[local] Hint Resolve frames_ret frames_halt frames_emit frames_assert
  frames_get_heap frames_put_heap frames_on_throw frames_scope_exit : frames.

Ltac frames_step :=
  first
    [ apply frames_bind; [|intros ?]
    | match goal with
      | |- frames_pool (match ?x with _ => _ end) => destruct x
      | |- frames_pool (if ?x then _ else _) => destruct x
      end
    | solve [auto with frames] ].

Ltac frames := repeat frames_step.

Lemma frames_allocate (a : allocator) : frames_pool (allocate a).
Proof. unfold allocate. frames. Qed.

Lemma frames_deallocate (a : allocator) (p : addr) : frames_pool (deallocate a p).
Proof. unfold deallocate. frames. Qed.

Lemma frames_construct_callable (f : callable) : frames_pool (construct_callable f).
Proof. unfold construct_callable. frames. Qed.

#[local] Hint Resolve frames_allocate frames_deallocate frames_construct_callable : frames.

Lemma frames_construct_node (p : addr) (a : allocator) (f : callable) :
  frames_pool (construct_node p a f).
Proof. unfold construct_node. frames. Qed.

Lemma frames_read_node (p : addr) : frames_pool (read_node p).
Proof. unfold read_node. frames. Qed.

#[local] Hint Resolve frames_construct_node frames_read_node : frames.

Lemma frames_destroy_node (p : addr) : frames_pool (destroy_node p).
Proof. unfold destroy_node. frames. Qed.

Lemma frames_allocate_unique (a : allocator) (f : callable) :
  frames_pool (allocate_unique a f).
Proof. unfold allocate_unique. frames. Qed.

Lemma frames_invoke (f : callable) : frames_pool (invoke f).
Proof. unfold invoke. frames. Qed.

#[local] Hint Resolve frames_destroy_node frames_allocate_unique frames_invoke : frames.

Lemma frames_allocator_deleter (a : allocator) (p : option addr) :
  frames_pool (allocator_deleter a p).
Proof. unfold allocator_deleter. frames. Qed.

Lemma frames_deref (wi : work_item) : frames_pool (deref wi).
Proof. unfold deref. frames. Qed.

Lemma frames_destroy (n : node) : frames_pool (destroy n).
Proof. unfold destroy. frames. Qed.

#[local] Hint Resolve frames_allocator_deleter frames_deref frames_destroy : frames.

Lemma frames_destroy_dealloc (n : node) : frames_pool (destroy_dealloc n).
Proof. unfold destroy_dealloc. destruct n; simpl; frames. Qed.

Lemma frames_move_and_destroy (n : node) : frames_pool (move_and_destroy n).
Proof. unfold move_and_destroy. frames. Qed.

Lemma frames_call_node (n : node) : frames_pool (call_node n).
Proof. unfold call_node. frames. Qed.

#[local] Hint Resolve frames_destroy_dealloc frames_move_and_destroy
  frames_call_node : frames.

Lemma frames_move_assign (this other : work_item) :
  frames_pool (move_assign this other).
Proof. unfold move_assign. frames. Qed.

Lemma frames_work_item_destructor (wi : work_item) :
  frames_pool (work_item_destructor wi).
Proof. unfold work_item_destructor. frames. Qed.

Lemma frames_work_item_call (wi : work_item) : frames_pool (work_item_call wi).
Proof. unfold work_item_call. frames. Qed.

#[local] Hint Resolve frames_move_assign frames_work_item_destructor
  frames_work_item_call : frames.

Lemma frames_move_construct (other : work_item) :
  frames_pool (move_construct other).
Proof. unfold move_construct. frames. Qed.

(** ** The done flag is sticky *)

Lemma done_set_queues (q : nat) (w w' : world) :
  _queues w' = _queues w -> done_set q w -> done_set q w'.
Proof. unfold done_set. by intros ->. Qed.

Lemma done_set_insert (q q' : nat) (tq0 tq : task_queue) (w w' : world) :
  _queues w !! q = Some tq0 ->
  (_done tq0 = true -> _done tq = true) ->
  _queues w' = <[q := tq]> (_queues w) ->
  done_set q' w -> done_set q' w'.
Proof.
  intros Hq Hd Hw' (tq' & Hq' & Hd'). unfold done_set. rewrite Hw'.
  destruct (decide (q = q')) as [->|Hne].
  - exists tq. rewrite list_lookup_insert_eq by (by eapply lookup_lt_Some).
    split; [done|]. apply Hd. congruence.
  - exists tq'. by rewrite list_lookup_insert_ne.
Qed.

Lemma apply_env_done (P : platform) (w : world) (a : env_action) (q' : nat) :
  done_set q' w -> done_set q' (apply_env P w a).
Proof.
  intros H. destruct a as [q al f|q|q]; simpl.
  - pose proof (emplace_frame P al f
      (set_next_thread (to_unsigned (_next_thread w + 1)) w)) as (Hq & _).
    destruct (emplace P al f _) as [[wi|s] w2]; simpl in *;
      [|by eapply done_set_queues].
    unfold append_item. rewrite Hq. simpl.
    destruct (_queues w !! q) as [tq|] eqn:Htq; [|by eapply done_set_queues].
    eapply (done_set_insert q q' tq); [exact Htq| |reflexivity|done]. done.
  - destruct (_queues w !! q) as [tq|] eqn:Htq; [|done].
    eapply (done_set_insert q q' tq); [exact Htq| |reflexivity|done]. done.
  - destruct (_queues w !! q) as [tq|] eqn:Htq; [|done].
    eapply (done_set_insert q q' tq); [exact Htq| |reflexivity|done]. done.
Qed.

Lemma apply_tick_done (P : platform) (t : tick) (w : world) (q' : nat) :
  done_set q' w -> done_set q' (apply_tick P t w).
Proof.
  unfold apply_tick. revert w.
  induction (interference t) as [|a l IH]; intros w H; simpl; [done|].
  by apply IH, apply_env_done.
Qed.

Lemma after_sync_done (P : platform) (w : world) (q' : nat) :
  done_set q' w -> done_set q' (after_sync P w).
Proof.
  unfold after_sync. destruct (sched w); [done|].
  intros H. eapply done_set_queues; [|by apply apply_tick_done]. done.
Qed.

Lemma keeps_done_frames {A} (m : M A) : frames_pool m -> keeps_done m.
Proof. intros H q w. apply done_set_queues. apply H. Qed.

Lemma keeps_done_bind {A B} (m : M A) (k : A -> M B) :
  keeps_done m -> (forall a, keeps_done (k a)) -> keeps_done (bind m k).
Proof.
  intros Hm Hk q w H. unfold bind. specialize (Hm q w H).
  destruct (m w) as [[a|s] w1]; simpl in *; [|done]. by apply Hk.
Qed.

Lemma keeps_done_sync (P : platform) : keeps_done (sync P).
Proof. intros q w H. rewrite sync_eq. simpl. by apply after_sync_done. Qed.

Lemma keeps_done_lock (P : platform) : keeps_done (lock P).
Proof.
  unfold lock. apply keeps_done_bind; [apply keeps_done_sync|].
  intros _. apply keeps_done_frames, frames_ret.
Qed.

Lemma keeps_done_take_front (q : nat) (f : work_item) : keeps_done (take_front q f).
Proof.
  intros q' w H. unfold take_front, get_queue. unfold bind at 1.
  destruct (_queues w !! q) as [tq|] eqn:Hq; simpl; [|done].
  destruct (_queue tq) as [|front rest]; [done|].
  unfold bind at 1. pose proof (frames_move_assign f front w) as (Hf1 & _).
  destruct (move_assign f front w) as [[[f1 front1]|s] w1]; simpl in *;
    [|by eapply done_set_queues].
  unfold bind at 1. pose proof (frames_work_item_destructor front1 w1) as (Hf2 & _).
  destruct (work_item_destructor front1 w1) as [[[]|s] w2]; simpl in *;
    [|eapply done_set_queues; [|exact H]; congruence].
  eapply (done_set_insert q q' tq {| _queue := rest; _done := _done tq |} w);
    [exact Hq|done| |exact H].
  unfold put_queue, bind, ret. simpl. congruence.
Qed.

Lemma keeps_done_emplace_back (q : nat) (f : work_item) : keeps_done (emplace_back q f).
Proof.
  intros q' w H. unfold emplace_back, get_queue. unfold bind at 1.
  destruct (_queues w !! q) as [tq|] eqn:Hq; simpl; [|done].
  unfold bind at 1. pose proof (frames_move_construct f w) as (Hf1 & _).
  destruct (move_construct f w) as [[[f1 front1]|s] w1]; simpl in *;
    [|by eapply done_set_queues].
  eapply (done_set_insert q q' tq {| _queue := _queue tq ++ [f1]; _done := _done tq |} w);
    [exact Hq|done| |exact H].
  unfold put_queue, bind, ret. simpl. congruence.
Qed.

Lemma wait_ready_done (P : platform) (q : nat) (ticks : list tick) (w : world) (q' : nat) :
  done_set q' w -> done_set q' (wait_ready P q ticks w).2.
Proof.
  revert w. induction ticks as [|t ticks IH]; intros w H; simpl.
  - destruct (_queues w !! q) as [tq|]; [|done].
    by destruct (queue_empty tq && negb (_done tq)).
  - destruct (_queues w !! q) as [tq|]; [|done].
    destruct (queue_empty tq && negb (_done tq)); [|done].
    by apply IH, apply_tick_done.
Qed.

Lemma keeps_done_wait (P : platform) (q : nat) : keeps_done (wait_while_empty P q).
Proof. intros q' w. apply wait_ready_done. Qed.

Lemma keeps_done_get_queue (q : nat) : keeps_done (get_queue q).
Proof. intros q' w H. unfold get_queue. by destruct (_queues w !! q). Qed.

#[local] Hint Resolve keeps_done_sync keeps_done_lock keeps_done_take_front
  keeps_done_emplace_back keeps_done_wait keeps_done_get_queue : frames.

Ltac keeps_done_step :=
  first
    [ solve [auto with frames]
    | solve [apply keeps_done_frames; auto with frames]
    | apply keeps_done_bind; [|intros ?]
    | match goal with
      | |- keeps_done (match ?x with _ => _ end) => destruct x
      | |- keeps_done (if ?x then _ else _) => destruct x
      end ].

Ltac keeps_done := repeat keeps_done_step.

Lemma keeps_done_try_push (P : platform) (q : nat) (f : work_item) :
  keeps_done (try_push P q f).
Proof. unfold try_push, try_to_lock. keeps_done. Qed.

Lemma keeps_done_push (P : platform) (q : nat) (f : work_item) :
  keeps_done (push P q f).
Proof. unfold push. keeps_done. Qed.

Lemma keeps_done_try_pop (P : platform) (q : nat) (f : work_item) :
  keeps_done (try_pop P q f).
Proof. unfold try_pop, try_to_lock. keeps_done. Qed.

Lemma keeps_done_pop (P : platform) (q : nat) (f : work_item) :
  keeps_done (pop P q f).
Proof. unfold pop. keeps_done. Qed.

Lemma keeps_done_done (P : platform) (q : nat) : keeps_done (done P q).
Proof.
  intros q' w H. unfold done, lock. unfold bind at 1. unfold bind at 1.
  rewrite sync_eq. unfold ret at 1. apply (after_sync_done P) in H.
  unfold get_queue. unfold bind at 1.
  destruct (_queues (after_sync P w) !! q) as [tq|] eqn:Hq; [|done].
  unfold put_queue. unfold_monad. simpl.
  eapply (done_set_insert q q' tq); [exact Hq| |reflexivity|exact H]. done.
Qed.

Lemma done_sets (P : platform) (q : nat) (w : world) :
  (q < length (_queues w))%nat -> done_set q (done P q w).2.
Proof.
  intros Hlt. unfold done, lock. unfold bind at 1. unfold bind at 1.
  rewrite sync_eq. unfold ret at 1.
  rewrite <- (after_sync_length P) in Hlt.
  destruct (lookup_lt_is_Some_2 _ _ Hlt) as [tq Hq].
  unfold get_queue. unfold bind at 1. rewrite Hq.
  unfold put_queue. unfold_monad. simpl.
  eexists. split; [apply list_lookup_insert_eq; by eapply lookup_lt_Some|done].
Qed.

(** ** Waiting on the condition variable *)

Lemma wake_ups_inv (P : platform) (ticks : list tick) (w : world) (n : nat) (w1 : world) :
  wake_ups P ticks w !! n = Some w1 ->
  length (_queues w1) = length (_queues w)
  /\ log w1 = log w
  /\ (movable_queues (_queues w) -> movable_queues (_queues w1))
  /\ (forall q, done_set q w -> done_set q w1).
Proof.
  revert w n. induction ticks as [|t ticks IH]; intros w [|n] Hn; simpl in *;
    try done.
  - by injection Hn as ->.
  - by injection Hn as ->.
  - destruct (IH _ _ Hn) as (H1 & H2 & H3 & H4).
    rewrite H1, H2, apply_tick_length, log_apply_tick.
    split; [done|]. split; [done|]. split.
    + intros H. by apply H3, apply_tick_movable.
    + intros q H. by apply H4, apply_tick_done.
Qed.

Lemma wait_ready_find (P : platform) (q : nat) (ticks : list tick) (w : world) :
  (q < length (_queues w))%nat ->
  match list_find (fun w1 => ready q w1 = true) (wake_ups P ticks w) with
  | None => (wait_ready P q ticks w).1 = Stop Blocked
  | Some (n, w1) => wait_ready P q ticks w = (Ret tt, set_sched (drop n ticks) w1)
  end.
Proof.
  revert w. induction ticks as [|t ticks IH]; intros w Hlt.
  - destruct (lookup_lt_is_Some_2 _ _ Hlt) as [tq Hq].
    assert (Hr : ready q w = negb (queue_empty tq && negb (_done tq))).
    { unfold ready. rewrite Hq. by destruct (queue_empty tq), (_done tq). }
    cbn [wake_ups wait_ready list_find]. rewrite Hq.
    destruct (decide (ready q w = true)) as [Hd|Hd]; rewrite Hr in Hd;
      destruct (queue_empty tq && negb (_done tq)); simpl in *; done.
  - destruct (lookup_lt_is_Some_2 _ _ Hlt) as [tq Hq].
    assert (Hr : ready q w = negb (queue_empty tq && negb (_done tq))).
    { unfold ready. rewrite Hq. by destruct (queue_empty tq), (_done tq). }
    cbn [wake_ups wait_ready list_find]. rewrite Hq.
    destruct (decide (ready q w = true)) as [Hd|Hd]; rewrite Hr in Hd;
      destruct (queue_empty tq && negb (_done tq)); simpl in *; try done.
    specialize (IH (apply_tick P t w)). rewrite apply_tick_length in IH.
    specialize (IH Hlt).
    destruct (list_find _ (wake_ups P ticks (apply_tick P t w))) as [[n w1]|];
      simpl.
    + done.
    + done.
Qed.

Lemma take_front_ok (q : nat) (f front : work_item) (rest : list work_item)
    (tq : task_queue) (w : world) :
  _queues w !! q = Some tq ->
  _queue tq = front :: rest ->
  operator_bool f = false ->
  movable front = true ->
  take_front q f w =
    (Ret (moved_into f front),
     set_queues (<[q := {| _queue := rest; _done := _done tq |}]> (_queues w))
       (set_log (log w ++ relocation front) w)).
Proof.
  intros Hq Hfront Hf Hm. unfold take_front, get_queue. unfold bind at 1.
  rewrite Hq, Hfront. unfold bind at 1. rewrite move_assign_ok by done.
  unfold bind at 1. rewrite destructor_empty by done.
  reflexivity.
Qed.

Lemma held_moved_into_any (h : gmap addr cell) (this other : work_item) :
  movable other = true ->
  held h (moved_into this other) = held h other.
Proof.
  unfold held, moved_into, is_embedded, movable.
  by destruct other as [buf [| |p]].
Qed.

Lemma lock_eq (P : platform) (w : world) : lock P w = (Ret tt, after_sync P w).
Proof. unfold lock, bind. by rewrite sync_eq. Qed.

Lemma pop_blocked (P : platform) (q : nat) (f : work_item) (w : world) :
  (q < length (_queues w))%nat ->
  list_find (fun w1 => ready q w1 = true)
    (wake_ups P (sched (after_sync P w)) (after_sync P w)) = None ->
  (pop P q f w).1 = Stop Blocked.
Proof.
  intros Hlt Hfind. rewrite <- (after_sync_length P) in Hlt.
  pose proof (wait_ready_find P q (sched (after_sync P w)) _ Hlt) as Hw.
  rewrite Hfind in Hw.
  unfold pop. unfold bind at 1. rewrite lock_eq. unfold bind at 1.
  unfold wait_while_empty.
  destruct (wait_ready P q _ _) as [o w1]. simpl in Hw. by subst o.
Qed.

Lemma pop_woken (P : platform) (q : nat) (f : work_item) (w w1 : world) (n : nat)
    (tq : task_queue) :
  operator_bool f = false ->
  movable_queues (_queues w) ->
  list_find (fun w1 => ready q w1 = true)
    (wake_ups P (sched (after_sync P w)) (after_sync P w)) = Some (n, w1) ->
  _queues w1 !! q = Some tq ->
  pop P q f w =
    match _queue tq with
    | [] =>
        (Ret (false, f),
         set_log (log w ++ [EvPop q false None])
           (set_sched (drop n (sched (after_sync P w))) w1))
    | front :: rest =>
        (Ret (true, moved_into f front),
         set_queues (<[q := {| _queue := rest; _done := _done tq |}]> (_queues w1))
           (set_log (log w ++ relocation front ++ [EvPop q true (held (heap w1) front)])
              (set_sched (drop n (sched (after_sync P w))) w1)))
    end.
Proof.
  intros Hf Hmov Hfind Hq.
  assert (Hlt : (q < length (_queues (after_sync P w)))%nat).
  { apply list_find_Some in Hfind as (Hn & _).
    apply wake_ups_inv in Hn as (<- & _). by eapply lookup_lt_Some. }
  pose proof (wait_ready_find P q (sched (after_sync P w)) _ Hlt) as Hw.
  rewrite Hfind in Hw.
  apply list_find_Some in Hfind as (Hn & _).
  apply wake_ups_inv in Hn as (_ & Hlog & Hm1 & _).
  rewrite log_after_sync in Hlog.
  specialize (Hm1 (after_sync_movable P w Hmov)).
  unfold pop. unfold bind at 1. rewrite lock_eq. unfold bind at 1.
  unfold wait_while_empty. rewrite Hw.
  unfold get_queue. unfold bind at 1. simpl. rewrite Hq.
  unfold queue_empty.
  destruct (_queue tq) as [|front rest] eqn:Hfront.
  - unfold_monad. simpl. by rewrite Hlog.
  - assert (Hmf : movable front = true).
    { pose proof (movable_queues_lookup _ _ _ Hm1 Hq) as Hall.
      rewrite Hfront in Hall. by inversion Hall. }
    unfold bind at 1.
    rewrite (take_front_ok q f front rest tq) by done.
    unfold_monad. simpl. rewrite Hlog, held_moved_into_any by done.
    unfold set_queues, set_log. simpl. by rewrite <- !app_assoc.
Qed.

(** C3. [pop] takes the mutex and then waits as long as the queue is
    empty and its done flag is unset: it stays blocked exactly when no
    wake-up ever shows an item or the flag.  At the first wake-up that
    does, it returns false if the queue is empty -- the done flag is then
    set -- and otherwise removes the front item, moves it into the
    caller's work_item and returns true.  No operation of the queue and
    no other thread clears a done flag that is set, and [done] sets it. *)
Theorem pop_waits (P : platform) (q : nat) (f : work_item) (w : world) :
  (q < length (_queues w))%nat ->
  operator_bool f = false ->
  queues_movable w = true ->
  let seen := wake_ups P (sched (after_sync P w)) (after_sync P w) in
  let r := pop P q f w in
  (r.1 = Stop Blocked <-> Forall (fun w1 => ready q w1 = false) seen)
  /\ (forall n w1,
        seen !! n = Some w1 ->
        ready q w1 = true ->
        (forall m wm, seen !! m = Some wm -> (m < n)%nat -> ready q wm = false) ->
        exists tq,
          _queues w1 !! q = Some tq
          /\ match _queue tq with
             | [] =>
                 r.1 = Ret (false, f)
                 /\ _done tq = true
                 /\ done_set q r.2
                 /\ _queues r.2 = _queues w1
                 /\ heap r.2 = heap w1
                 /\ new_events w r.2 = [EvPop q false None]
             | front :: rest =>
                 r.1 = Ret (true, moved_into f front)
                 /\ _queues r.2 =
                      <[q := {| _queue := rest; _done := _done tq |}]> (_queues w1)
                 /\ held (heap r.2) (moved_into f front) = held (heap w1) front
                 /\ new_events w r.2 =
                      relocation front ++ [EvPop q true (held (heap w1) front)]
             end)
  /\ (forall q', done_set q' w -> done_set q' r.2)
  /\ (forall q' a, done_set q' w -> done_set q' (apply_env P w a))
  /\ (forall q' g, keeps_done (try_pop P q' g) /\ keeps_done (pop P q' g)
                   /\ keeps_done (try_push P q' g) /\ keeps_done (push P q' g))
  /\ (forall q', keeps_done (done P q'))
  /\ done_set q (done P q w).2.
Proof.
  intros Hlt Hf Hmov%queues_movable_spec seen r.
  split; [|split; [|split; [|split; [|split; [|split]]]]].
  - subst seen r.
    destruct (list_find (fun w1 => ready q w1 = true)
                (wake_ups P (sched (after_sync P w)) (after_sync P w)))
      as [[n w1]|] eqn:Hfind.
    + pose proof Hfind as (Hn & Hr & _)%list_find_Some.
      assert (Hq : is_Some (_queues w1 !! q)).
      { apply lookup_lt_is_Some_2. apply wake_ups_inv in Hn as (-> & _).
        by rewrite after_sync_length. }
      destruct Hq as [tq Hq].
      rewrite (pop_woken P q f w w1 n tq) by done.
      split.
      * by destruct (_queue tq).
      * intros Hall. rewrite Forall_lookup in Hall.
        specialize (Hall _ _ Hn). congruence.
    + split; [|intros _; by apply pop_blocked].
      intros _. apply list_find_None in Hfind.
      eapply Forall_impl; [exact Hfind|]. intros w1 Hn. simpl in Hn.
      by destruct (ready q w1).
  - intros n w1 Hn Hr Hfirst. subst seen r.
    assert (Hfind : list_find (fun w1 => ready q w1 = true)
              (wake_ups P (sched (after_sync P w)) (after_sync P w)) = Some (n, w1)).
    { apply list_find_Some. split; [done|]. split; [done|].
      intros j y Hj Hlt'. rewrite (Hfirst _ _ Hj Hlt'). done. }
    assert (Hq : is_Some (_queues w1 !! q)).
    { apply lookup_lt_is_Some_2. apply wake_ups_inv in Hn as (-> & _).
      by rewrite after_sync_length. }
    destruct Hq as [tq Hq]. exists tq. split; [done|].
    rewrite (pop_woken P q f w w1 n tq) by done.
    unfold ready in Hr. rewrite Hq in Hr. unfold queue_empty in Hr.
    destruct (_queue tq) as [|front rest] eqn:Hfront; simpl in *.
    + erewrite new_events_app by (simpl; reflexivity).
      split; [done|]. split; [done|]. split; [by exists tq|]. done.
    + erewrite new_events_app by (simpl; reflexivity).
      split; [done|]. split; [done|]. split; [|done].
      apply held_moved_into_any.
      apply wake_ups_inv in Hn as (_ & _ & Hm1 & _).
      specialize (Hm1 (after_sync_movable P w Hmov)).
      pose proof (movable_queues_lookup _ _ _ Hm1 Hq) as Hall.
      rewrite Hfront in Hall. by inversion Hall.
  - intros q'. apply keeps_done_pop.
  - intros q' a. apply apply_env_done.
  - intros q' g. split; [apply keeps_done_try_pop|].
    split; [apply keeps_done_pop|].
    split; [apply keeps_done_try_push|apply keeps_done_push].
  - intros q'. apply keeps_done_done.
  - by apply done_sets.
Qed.

(** ** Submission *)

Lemma sched_after_sync (P : platform) (w : world) :
  sched (after_sync P w) = tail (sched w).
Proof.
  unfold after_sync. destruct (sched w) as [|t ts] eqn:E; simpl; [|done].
  by rewrite E.
Qed.

Lemma mutex_free_busy (w : world) :
  mutex_free w = false ->
  busy_prefix (sched w) = S (busy_prefix (tail (sched w))).
Proof.
  unfold mutex_free. destruct (sched w) as [|t ts]; [done|]. simpl.
  by intros ->.
Qed.

Lemma mutex_free_idle (w : world) :
  mutex_free w = true -> busy_prefix (sched w) = O.
Proof.
  unfold mutex_free. destruct (sched w) as [|t ts]; [done|]. simpl.
  by intros ->.
Qed.

Lemma drop_tail_S {A} (k : nat) (l : list A) : drop k (tail l) = drop (S k) l.
Proof. destruct l; simpl; [by rewrite drop_nil|done]. Qed.

Lemma for_first_cons {A} (body : Z -> A -> M (bool * A)) (i : Z) (idxs : list Z)
    (a : A) (w : world) :
  for_first (i :: idxs) body a w =
    match body i a w with
    | (Ret (true, a'), w') => (Ret (true, a'), w')
    | (Ret (false, a'), w') => for_first idxs body a' w'
    | (Stop s, w') => (Stop s, w')
    end.
Proof.
  cbn [for_first]. unfold bind.
  by destruct (body i a w) as [[[[] a']|s] w'].
Qed.

(** The loop of [schedule]: the attempts fail as long as the mutexes are
    taken; the first free mutex ends the loop with the payload at the
    back of that queue. *)
Lemma schedule_loop (P : platform) (thread n : Z) (f : work_item) (idxs : list Z)
    (w : world) :
  0 < n -> Z.to_nat n = length (_queues w) -> movable f = true ->
  let at_queue i := Z.to_nat (to_unsigned (thread + i) mod n) in
  let k := min (length idxs) (busy_prefix (sched w)) in
  let r := for_first idxs (schedule_attempt P thread n) f w in
  length (_queues r.2) = length (_queues w)
  /\ sched r.2 = drop (match idxs !! k with Some _ => S k | None => k end) (sched w)
  /\ match idxs !! k with
     | None =>
         r.1 = Ret (false, f)
         /\ log r.2 = log w ++ ((fun i => EvTryPush (at_queue i) false) <$> idxs)
     | Some i =>
         r.1 = Ret (true, moved_from f)
         /\ log r.2 = log w ++
              ((fun i => EvTryPush (at_queue i) false) <$> take k idxs)
              ++ relocation f ++ [EvNotifyOne (at_queue i); EvTryPush (at_queue i) true]
         /\ exists tq, _queues r.2 !! at_queue i = Some tq
                       /\ last (_queue tq) = Some (moved_into work_item_default f)
     end.
Proof.
  intros Hn Hlen Hf at_queue. revert w Hlen.
  induction idxs as [|i idxs IH]; intros w Hlen k r; subst k r.
  - simpl. by rewrite app_nil_r.
  - rewrite for_first_cons.
    change (schedule_attempt P thread n i f w) with (try_push P (at_queue i) f w).
    assert (Hq : (at_queue i < length (_queues (after_sync P w)))%nat).
    { rewrite after_sync_length, <- Hlen. unfold at_queue.
      pose proof (Z.mod_pos_bound (to_unsigned (thread + i)) n Hn). lia. }
    destruct (lookup_lt_is_Some_2 _ _ Hq) as [tq Htq].
    destruct (mutex_free w) eqn:Hm.
    + rewrite (try_push_free P _ f tq) by done.
      rewrite (mutex_free_idle w Hm). simpl.
      rewrite length_insert, after_sync_length, sched_after_sync.
      split; [done|]. split; [by destruct (sched w)|].
      split; [done|]. split; [done|].
      eexists. split; [apply list_lookup_insert_eq; done|].
      simpl. by rewrite last_snoc.
    + rewrite try_push_busy by done.
      rewrite (mutex_free_busy w Hm).
      cbn [length Nat.min lookup list_lookup take fmap list_fmap].
      set (w1 := set_log (log w ++ [EvTryPush (at_queue i) false]) (after_sync P w)).
      specialize (IH w1).
      assert (Hlen1 : Z.to_nat n = length (_queues w1)).
      { subst w1. simpl. by rewrite after_sync_length. }
      specialize (IH Hlen1).
      assert (Hs1 : sched w1 = tail (sched w)).
      { subst w1. simpl. apply sched_after_sync. }
      rewrite Hs1 in IH. cbv zeta in IH.
      destruct IH as (IHlen & IHs & IH).
      assert (Hl1 : log w1 = log w ++ [EvTryPush (at_queue i) false]) by done.
      assert (Hq1 : length (_queues w1) = length (_queues w)).
      { subst w1. simpl. apply after_sync_length. }
      rewrite Hq1 in IHlen. split; [done|].
      split.
      { rewrite IHs. destruct (idxs !! _); apply drop_tail_S. }
      destruct (idxs !! _) as [j|].
      * destruct IH as (-> & -> & Hlast). rewrite Hl1.
        split; [done|]. split; [|done]. by rewrite <- !app_assoc.
      * destruct IH as (-> & ->). rewrite Hl1.
        split; [done|]. by rewrite <- !app_assoc.
Qed.

Lemma take_seqZ (k : nat) (n : Z) :
  Z.of_nat k <= n -> take k (seqZ 0 n) = seqZ 0 (Z.of_nat k).
Proof.
  intros Hk. replace n with (Z.of_nat k + (n - Z.of_nat k)) by lia.
  rewrite seqZ_app by lia. rewrite take_app_length'; [done|].
  rewrite length_seqZ. lia.
Qed.

(** The round-robin counter is touched by submissions only: each one,
    of this or of another thread, adds one in [unsigned]. *)
Lemma to_unsigned_add_l (a b : Z) : to_unsigned (to_unsigned a + b) = to_unsigned (a + b).
Proof. unfold to_unsigned. apply Zplus_mod_idemp_l. Qed.

Lemma to_unsigned_range (a : Z) : 0 <= to_unsigned a < UINT_MOD.
Proof. unfold to_unsigned. by apply Z.mod_pos_bound. Qed.

Lemma apply_env_counter (P : platform) (w : world) (a : env_action) :
  _next_thread (apply_env P w a) =
    if is_submission a then to_unsigned (_next_thread w + 1) else _next_thread w.
Proof.
  destruct a as [q al f|q|q]; simpl.
  - pose proof (emplace_frame P al f
      (set_next_thread (to_unsigned (_next_thread w + 1)) w)) as (Hq & _ & _ & Hn & _).
    destruct (emplace P al f _) as [[wi|s] w2]; simpl in *; [|done].
    unfold append_item. by destruct (_queues w2 !! q).
  - by destruct (_queues w !! q).
  - by destruct (_queues w !! q).
Qed.

Lemma apply_tick_counter (P : platform) (t : tick) (w : world) :
  0 <= _next_thread w < UINT_MOD ->
  _next_thread (apply_tick P t w) =
    to_unsigned (_next_thread w
                 + Z.of_nat (length (List.filter is_submission (interference t)))).
Proof.
  unfold apply_tick. revert w.
  induction (interference t) as [|a l IH]; intros w Hr; simpl.
  - unfold to_unsigned. by rewrite Z.add_0_r, Z.mod_small.
  - pose proof (apply_env_counter P w a) as Ha.
    rewrite IH; rewrite Ha.
    + destruct (is_submission a); simpl length; [|done].
      rewrite to_unsigned_add_l. f_equal. lia.
    + destruct (is_submission a); [apply to_unsigned_range|done].
Qed.

Lemma after_sync_counter (P : platform) (w : world) :
  0 <= _next_thread w < UINT_MOD ->
  _next_thread (after_sync P w) =
    to_unsigned (_next_thread w + Z.of_nat (submissions (take 1 (sched w)))).
Proof.
  intros Hr. unfold after_sync. destruct (sched w) as [|t ts]; simpl.
  - unfold to_unsigned. by rewrite Z.add_0_r, Z.mod_small.
  - rewrite ?take_0. simpl. rewrite Nat.add_0_r. by apply apply_tick_counter.
Qed.

Lemma submissions_app (l1 l2 : list tick) :
  submissions (l1 ++ l2) = (submissions l1 + submissions l2)%nat.
Proof. induction l1 as [|t l1 IH]; simpl; [done|]. rewrite IH. lia. Qed.

Lemma submissions_take_S (k : nat) (l : list tick) :
  submissions (take (S k) l)
  = (submissions (take 1 l) + submissions (take k (tail l)))%nat.
Proof. destruct l as [|t l]; simpl; [by rewrite take_nil|]. rewrite ?take_0. simpl. lia. Qed.

(** The counter after the loop of [schedule]: it has moved by the
    submissions of the other threads at the synchronisation points the
    loop went through. *)
Lemma schedule_loop_counter (P : platform) (thread n : Z) (f : work_item)
    (idxs : list Z) (w : world) :
  0 < n -> Z.to_nat n = length (_queues w) -> movable f = true ->
  0 <= _next_thread w < UINT_MOD ->
  let k := min (length idxs) (busy_prefix (sched w)) in
  let j := match idxs !! k with Some _ => S k | None => k end in
  let r := for_first idxs (schedule_attempt P thread n) f w in
  _next_thread r.2 =
    to_unsigned (_next_thread w + Z.of_nat (submissions (take j (sched w)))).
Proof.
  intros Hn Hlen Hf. revert w Hlen.
  induction idxs as [|i idxs IH]; intros w Hlen Hr k j r; subst k j r.
  - simpl. rewrite ?take_0. simpl. unfold to_unsigned. by rewrite Z.add_0_r, Z.mod_small.
  - rewrite for_first_cons.
    set (q := Z.to_nat (to_unsigned (thread + i) mod n)).
    change (schedule_attempt P thread n i f w) with (try_push P q f w).
    assert (Hq : (q < length (_queues (after_sync P w)))%nat).
    { rewrite after_sync_length, <- Hlen. unfold q.
      pose proof (Z.mod_pos_bound (to_unsigned (thread + i)) n Hn). lia. }
    destruct (lookup_lt_is_Some_2 _ _ Hq) as [tq Htq].
    destruct (mutex_free w) eqn:Hm.
    + rewrite (try_push_free P _ f tq) by done.
      rewrite (mutex_free_idle w Hm). simpl.
      by apply after_sync_counter.
    + rewrite try_push_busy by done.
      rewrite (mutex_free_busy w Hm).
      cbn [length Nat.min lookup list_lookup].
      set (w1 := set_log (log w ++ [EvTryPush q false]) (after_sync P w)).
      specialize (IH w1).
      assert (Hlen1 : Z.to_nat n = length (_queues w1)).
      { subst w1. simpl. by rewrite after_sync_length. }
      assert (Hn1 : _next_thread w1 =
                    to_unsigned (_next_thread w + Z.of_nat (submissions (take 1 (sched w))))).
      { subst w1. simpl. by apply after_sync_counter. }
      assert (Hr1 : 0 <= _next_thread w1 < UINT_MOD).
      { rewrite Hn1. apply to_unsigned_range. }
      specialize (IH Hlen1 Hr1).
      assert (Hs1 : sched w1 = tail (sched w)).
      { subst w1. simpl. apply sched_after_sync. }
      rewrite Hs1 in IH. cbv zeta in IH. rewrite IH, Hn1.
      rewrite to_unsigned_add_l. f_equal.
      set (k1 := (length idxs `min` busy_prefix (tail (sched w)))%nat).
      destruct (idxs !! k1);
        [rewrite (submissions_take_S (S k1))|rewrite (submissions_take_S k1)]; lia.
Qed.

Lemma fetch_increment_eq (w : world) :
  fetch_increment w =
    (Ret (_next_thread w), set_next_thread (to_unsigned (_next_thread w + 1)) w).
Proof. reflexivity. Qed.

(** C1, as the code has it.  [schedule] reads and increments the
    round-robin counter; with [s] the value read it tries, for
    [k = 0, 1, ...] in this order, a [try_push] of the payload on queue
    [((s + k) mod 2^32) mod N] -- the sum is formed in [unsigned] and
    wraps -- and stops at the first that succeeds; the attempts that fail
    are exactly those that find the mutex taken.  If all [N] fail it makes
    a single [push] of the payload on queue [s mod N].  Either way the
    payload ends as the last item of that queue.  As long as [s + k] does
    not reach [2^32] the queue tried is [(s + k) mod N].  The increment
    is the first thing [schedule] does, so that everything after it runs
    with the counter at [(s + 1) mod 2^32]; when [schedule] returns the
    counter stands at [s + 1] plus one for every submission another
    thread made at the synchronisation points gone through, again
    modulo [2^32], hence at [(s + 1) mod 2^32] when nobody else
    submitted. *)
Theorem schedule_round_robin (P : platform) (f : work_item) (w : world) :
  let s := _next_thread w in
  let n := _num_threads w in
  0 < n -> Z.to_nat n = length (_queues w) -> movable f = true ->
  let at_queue k := Z.to_nat (to_unsigned (s + k) mod n) in
  let fails := min (Z.to_nat n) (busy_prefix (sched w)) in
  let landed := if (fails <? Z.to_nat n)%nat
                then at_queue (Z.of_nat fails) else Z.to_nat (s mod n) in
  let r := schedule P f w in
  fetch_increment w = (Ret s, set_next_thread (to_unsigned (s + 1)) w)
  /\ r.1 = Ret (moved_from f)
  /\ new_events w r.2 =
       ((fun k => EvTryPush (at_queue k) false) <$> seqZ 0 (Z.of_nat fails))
       ++ relocation f
       ++ [EvNotifyOne landed;
           if (fails <? Z.to_nat n)%nat then EvTryPush landed true else EvPush landed]
  /\ (exists tq, _queues r.2 !! landed = Some tq
                 /\ last (_queue tq) = Some (moved_into work_item_default f))
  /\ (forall k, 0 <= s + k < UINT_MOD -> at_queue k = Z.to_nat ((s + k) mod n))
  /\ r = (do pf <- for_first (seqZ 0 n) (schedule_attempt P s n) f;
          if pf.1 then ret pf.2 else push P (Z.to_nat (s mod n)) pf.2)
           (set_next_thread (to_unsigned (s + 1)) w)
  /\ _next_thread r.2 =
       to_unsigned (s + 1 + Z.of_nat (submissions (take (S fails) (sched w))))
  /\ (submissions (take (S fails) (sched w)) = O ->
      _next_thread r.2 = to_unsigned (s + 1)).
Proof.
  intros s n Hn Hlen Hf at_queue fails landed r.
  split; [reflexivity|].
  assert (Hcnt := schedule_loop_counter P s n f (seqZ 0 n)
            (set_next_thread (to_unsigned (s + 1)) w) Hn Hlen Hf
            (to_unsigned_range (s + 1))).
  cbv zeta in Hcnt. rewrite length_seqZ in Hcnt.
  change (sched (set_next_thread _ w)) with (sched w) in Hcnt.
  change (_next_thread (set_next_thread (to_unsigned (s + 1)) w))
    with (to_unsigned (s + 1)) in Hcnt.
  fold fails in Hcnt. rewrite to_unsigned_add_l in Hcnt.
  assert (Hzero : forall x, x = to_unsigned (s + 1
                    + Z.of_nat (submissions (take (S fails) (sched w)))) ->
            submissions (take (S fails) (sched w)) = O -> x = to_unsigned (s + 1)).
  { intros x -> ->. by rewrite Z.add_0_r. }
  assert (Hloop := schedule_loop P s n f (seqZ 0 n)
            (set_next_thread (to_unsigned (s + 1)) w) Hn Hlen Hf).
  cbv zeta in Hloop. rewrite length_seqZ in Hloop.
  change (sched (set_next_thread _ w)) with (sched w) in Hloop.
  change (log (set_next_thread _ w)) with (log w) in Hloop.
  change (_queues (set_next_thread _ w)) with (_queues w) in Hloop.
  fold fails in Hloop. fold at_queue in Hloop.
  assert (Hr : r = (do pf <- for_first (seqZ 0 n) (schedule_attempt P s n) f;
                    if pf.1 then ret pf.2 else push P (Z.to_nat (s mod n)) pf.2)
                     (set_next_thread (to_unsigned (s + 1)) w)).
  { subst r. unfold schedule. unfold bind at 1. rewrite fetch_increment_eq.
    unfold bind at 1. unfold get_num_threads. simpl.
    unfold bind. destruct (for_first _ _ _ _) as [[[[] f']|st] w']; done. }
  destruct Hloop as (Hlen2 & Hsched & Hloop).
  assert (Hmod : forall k, 0 <= s + k < UINT_MOD -> at_queue k = Z.to_nat ((s + k) mod n)).
  { intros k Hk. unfold at_queue, to_unsigned.
    by rewrite (Z.mod_small (s + k) UINT_MOD) by exact Hk. }
  destruct (decide (fails < Z.to_nat n)%nat) as [Hlt|Hge].
  - rewrite lookup_seqZ_lt in Hloop by lia.
    rewrite take_seqZ in Hloop by lia.
    destruct Hloop as (Hres & Hlog & Hlast).
    assert (Hb : (fails <? Z.to_nat n)%nat = true) by (apply Nat.ltb_lt; lia).
    subst landed. rewrite Hb. rewrite Z.add_0_l in *.
    rewrite Hr. unfold bind.
    destruct (for_first _ _ _ _) as [o w2]. simpl in *. subst o. simpl.
    rewrite lookup_seqZ_lt in Hcnt by lia.
    split; [done|]. split; [by apply new_events_app|].
    split; [done|]. split; [done|]. split; [done|]. auto.
  - rewrite lookup_seqZ_ge in Hloop by lia.
    destruct Hloop as (Hres & Hlog).
    assert (Hb : (fails <? Z.to_nat n)%nat = false) by (apply Nat.ltb_ge; lia).
    subst landed. rewrite Hb.
    assert (Hfails : fails = Z.to_nat n) by (subst fails; lia).
    rewrite Hr. unfold bind.
    destruct (for_first _ _ _ _) as [o w2]. simpl in *. subst o. simpl.
    assert (Hq : (Z.to_nat (s mod n) < length (_queues (after_sync P w2)))%nat).
    { rewrite after_sync_length, Hlen2, <- Hlen.
      pose proof (Z.mod_pos_bound s n Hn). lia. }
    destruct (lookup_lt_is_Some_2 _ _ Hq) as [tq Htq].
    rewrite lookup_seqZ_ge in Hcnt by lia.
    rewrite lookup_seqZ_ge in Hsched by lia.
    assert (Hnext : _next_thread (after_sync P w2) =
              to_unsigned (s + 1 + Z.of_nat (submissions (take (S fails) (sched w))))).
    { rewrite after_sync_counter by (rewrite Hcnt; apply to_unsigned_range).
      rewrite Hcnt, Hsched, to_unsigned_add_l. f_equal.
      replace (S fails) with (fails + 1)%nat by lia.
      rewrite <- take_take_drop, submissions_app. lia. }
    rewrite (push_ok P _ f tq) by done. simpl.
    split; [done|]. split.
    { apply new_events_app. simpl. rewrite Hlog, Hfails, Z2Nat.id by lia.
      by rewrite <- !app_assoc. }
    split.
    { eexists. split; [apply list_lookup_insert_eq; done|].
      simpl. by rewrite last_snoc. }
    split; [done|]. split; [done|]. split; [done|]. auto.
Qed.

Lemma schedule_wrap_counterexample :
  ~ (forall (P : platform) (f : work_item) (w : world),
       0 < _num_threads w ->
       Z.to_nat (_num_threads w) = length (_queues w) ->
       0 <= _next_thread w < UINT_MOD ->
       movable f = true ->
       pool_trace (new_events w (schedule P f w).2) =
         spec_schedule_trace (_next_thread w) (_num_threads w)
           (min (Z.to_nat (_num_threads w)) (busy_prefix (sched w)))).
Proof.
  intros H.
  specialize (H lp64 embedded_item wrap_world).
  assert (Hrun : pool_trace (new_events wrap_world (schedule lp64 embedded_item wrap_world).2)
                 = [EvTryPush 0 false; EvTryPush 0 true]) by (vm_compute; reflexivity).
  assert (Hspec : spec_schedule_trace (_next_thread wrap_world) (_num_threads wrap_world)
                    (min (Z.to_nat (_num_threads wrap_world)) (busy_prefix (sched wrap_world)))
                  = [EvTryPush 0 false; EvTryPush 1 true]) by (vm_compute; reflexivity).
  rewrite Hrun, Hspec in H.
  assert (Hx : [EvTryPush 0 false; EvTryPush 0 true] = [EvTryPush 0 false; EvTryPush 1 true]).
  { apply H; [reflexivity|reflexivity|by vm_compute|reflexivity]. }
  discriminate Hx.
Qed.

Lemma schedule_round_robin_witness :
  0 < _num_threads wrap_world
  /\ Z.to_nat (_num_threads wrap_world) = length (_queues wrap_world)
  /\ movable embedded_item = true
  /\ new_events wrap_world (schedule lp64 embedded_item wrap_world).2 =
       [EvTryPush 0 false; EvConstruct small_fn; EvDestroy small_fn;
        EvNotifyOne 0; EvTryPush 0 true]
  /\ _next_thread (schedule lp64 embedded_item wrap_world).2 = 0.
Proof.
  split; [reflexivity|]. split; [reflexivity|]. split; [reflexivity|].
  destruct (schedule_round_robin lp64 embedded_item wrap_world
              eq_refl eq_refl eq_refl) as (_ & _ & Hev & _ & _ & _ & Hnext & _).
  split.
  - rewrite Hev. vm_compute. reflexivity.
  - rewrite Hnext. vm_compute. reflexivity.
Defined.

(** ** Payloads in the queues and the heap *)


Lemma heap_extends_refl (h : gmap addr cell) : heap_extends h h.
Proof. by intros p n. Qed.

Lemma held_extends (h h' : gmap addr cell) (wi : work_item) :
  heap_extends h h' -> is_Some (held h wi) -> held h' wi = held h wi.
Proof.
  intros Hext [c Hc]. unfold held in *.
  destruct (_target wi) as [| |p]; try done.
  destruct (h !! p) as [[n|]|] eqn:Hp; try done.
  by rewrite (Hext _ _ Hp).
Qed.





Lemma emplace_heap (P : platform) (a : allocator) (f : callable) (w : world) :
  heap_extends (heap w) (heap (emplace P a f w).2)
  /\ match (emplace P a f w).1 with
     | Ret wi => held (heap (emplace P a f w).2) wi = Some f
     | Stop _ => True
     end.
Proof.
  unfold emplace, emplace_impl_embed, emplace_impl_alloc, construct_callable.
  destruct (can_embed P f).
  - unfold_monad. destruct (construct_throws (fn_ty f)); simpl;
      (split; [apply heap_extends_refl|done]).
  - unfold_monad. destruct (construct_throws (fn_ty f)) eqn:Hc.
    + rewrite allocate_unique_throws by done. simpl.
      split; [apply heap_extends_refl|done].
    + rewrite allocate_unique_ok by done. simpl. split.
      * intros p n Hp. rewrite lookup_insert_ne; [done|].
        intros <-. by rewrite fresh_unallocated in Hp.
      * unfold held. simpl. by rewrite lookup_insert_eq.
Qed.







(** ** The worker *)

Lemma try_pop_cases (P : platform) (q : nat) (f : work_item) (tq : task_queue)
    (w : world) :
  _queues (after_sync P w) !! q = Some tq ->
  operator_bool f = false ->
  movable_queues (_queues (after_sync P w)) ->
  try_pop P q f w =
    match mutex_free w, _queue tq with
    | true, front :: rest =>
        (Ret (true, moved_into f front),
         set_queues (<[q := {| _queue := rest; _done := _done tq |}]>
                       (_queues (after_sync P w)))
           (set_log (log w ++ relocation front
                      ++ [EvTryPop q true (held (heap (after_sync P w)) front)])
              (after_sync P w)))
    | _, _ =>
        (Ret (false, f), set_log (log w ++ [EvTryPop q false None]) (after_sync P w))
    end.
Proof.
  intros Hq Hf Hmov. unfold try_pop, try_to_lock. unfold bind at 1.
  rewrite sync_eq.
  destruct (mutex_free w); simpl.
  - unfold get_queue. unfold bind at 1. rewrite Hq. unfold queue_empty.
    destruct (_queue tq) as [|front rest] eqn:Hfront.
    + unfold_monad. simpl. by rewrite log_after_sync.
    + assert (Hmf : movable front = true).
      { pose proof (movable_queues_lookup _ _ _ Hmov Hq) as Hall.
        rewrite Hfront in Hall. by inversion Hall. }
      unfold bind at 1.
      rewrite (take_front_ok q f front rest tq) by done.
      unfold_monad. simpl. rewrite log_after_sync, held_moved_into_any by done.
      unfold set_queues, set_log. simpl. by rewrite <- !app_assoc.
  - unfold_monad. simpl. rewrite log_after_sync. by destruct (_queue tq).
Qed.


Lemma work_item_call_eq (wi : work_item) (c : callable) (w : world) :
  held (heap w) wi = Some c ->
  work_item_call wi w =
    (if call_throws (fn_ty c) then Stop Throw else Ret tt,
     set_log (log w ++ [EvInvoke c]) w).
Proof.
  intros Hc. unfold work_item_call, deref, read_node, call_node, invoke, held in *.
  unfold_monad.
  destruct wi as [buf [| |p]]; simpl in *; try done.
  - subst buf. simpl. by destruct (call_throws (fn_ty c)).
  - destruct (heap w !! p) as [[[a c']|]|] eqn:Hp; simpl in *; try done.
    injection Hc as ->. by destruct (call_throws (fn_ty c)).
Qed.






Lemma run_iteration_eq (P : platform) (index : Z) (w : world) :
  run_iteration P index w =
    match for_first (seqZ 0 (to_unsigned (_num_threads w * rounds)))
            (run_attempt P index (_num_threads w)) work_item_default w with
    | (Ret (_, f), w1) =>
        match (if operator_bool f then (Ret (true, f), w1)
               else pop P (Z.to_nat index) f w1) with
        | (Ret (have_work, f2), w2) =>
            if negb have_work then
              match work_item_destructor f2 w2 with
              | (Ret _, w3) => (Ret Break, w3)
              | (Stop s, w3) => (Stop s, w3)
              end
            else
              match scope_exit (work_item_call f2) (work_item_destructor f2) w2 with
              | (Ret _, w3) => (Ret Continue, w3)
              | (Stop s, w3) => (Stop s, w3)
              end
        | (Stop s, w2) => (Stop s, w2)
        end
    | (Stop s, w1) => (Stop s, w1)
    end.
Proof.
  unfold run_iteration. unfold bind at 1. unfold get_num_threads.
  unfold bind at 1.
  destruct (for_first _ _ _ _) as [[[b f]|s] w1]; [|done].
  unfold bind at 1.
  destruct (operator_bool f).
  - unfold ret at 1. simpl. unfold bind, ret.
    by destruct (scope_exit _ _ _) as [[[]|s] w3].
  - destruct (pop P (Z.to_nat index) f w1) as [[[have_work f2]|s] w2]; [|done].
    destruct have_work; simpl; unfold bind, ret.
    + by destruct (scope_exit _ _ _) as [[[]|s] w3].
    + by destruct (work_item_destructor f2 w2) as [[[]|s] w3].
Qed.

Lemma run_unfold (P : platform) (turns : nat) (index : Z) (w : world) :
  run P (S turns) index w =
    match run_iteration P index w with
    | (Ret Break, w') => (Ret Break, w')
    | (Ret Continue, w') => run P turns index w'
    | (Stop s, w') => (Stop s, w')
    end.
Proof.
  cbn [run]. unfold bind.
  by destruct (run_iteration P index w) as [[[]|s] w'].
Qed.



(** ** Construction of the pool *)

Lemma for_each_cons (body : Z -> M unit) (i : Z) (idxs : list Z) (w : world) :
  for_each (i :: idxs) body w =
    match body i w with
    | (Ret _, w') => for_each idxs body w'
    | (Stop s, w') => (Stop s, w')
    end.
Proof. cbn [for_each]. unfold bind. by destruct (body i w) as [[[]|s] w']. Qed.

Lemma for_each_app (body : Z -> M unit) (idxs1 idxs2 : list Z) (w : world) :
  for_each (idxs1 ++ idxs2) body w =
    match for_each idxs1 body w with
    | (Ret _, w') => for_each idxs2 body w'
    | (Stop s, w') => (Stop s, w')
    end.
Proof.
  revert w. induction idxs1 as [|i idxs1 IH]; intros w; [done|].
  rewrite <- app_comm_cons, !for_each_cons.
  destruct (body i w) as [[[]|s] w']; [apply IH|done].
Qed.

Lemma start_turn_eq (factory : Z -> nat -> Z -> thread) (i : Z) (w : world) :
  start_turn factory i w =
    (if INT_MAX <=? i then Stop Undefined else Ret tt,
     set_threads (_threads w ++ [factory i (Z.to_nat i) i]) w).
Proof.
  unfold start_turn, add_threads. unfold_monad. by destruct (INT_MAX <=? i).
Qed.

(** The loop of [start] below [INT_MAX]: one thread for every index, in
    order. *)
Lemma start_loop (factory : Z -> nat -> Z -> thread) (idxs : list Z) (w : world) :
  Forall (fun i => i < INT_MAX) idxs ->
  for_each idxs (start_turn factory) w =
    (Ret tt,
     set_threads (_threads w ++ ((fun i => factory i (Z.to_nat i) i) <$> idxs)) w).
Proof.
  revert w. induction idxs as [|i idxs IH]; intros w Hall.
  - simpl. rewrite app_nil_r. by destruct w.
  - apply Forall_cons in Hall as [Hi Hall].
    rewrite for_each_cons, start_turn_eq.
    destruct (INT_MAX <=? i) eqn:E; [apply Z.leb_le in E; lia|].
    rewrite IH by done. unfold set_threads. simpl. by rewrite <- app_assoc.
Qed.

(** The loop of [start] touches the threads only. *)
Lemma start_loop_frame (factory : Z -> nat -> Z -> thread) (idxs : list Z) (w : world) :
  let r := for_each idxs (start_turn factory) w in
  _num_threads r.2 = _num_threads w /\ _queues r.2 = _queues w.
Proof.
  revert w. induction idxs as [|i idxs IH]; intros w; [done|].
  cbv zeta. rewrite for_each_cons, start_turn_eq.
  destruct (INT_MAX <=? i); [done|].
  destruct (IH (set_threads (_threads w ++ [factory i (Z.to_nat i) i]) w)) as [H1 H2].
  by rewrite H1, H2.
Qed.

(** With more than [INT_MAX] threads to start, the loop of [start]
    reaches [i = INT_MAX] and increments it. *)
Lemma start_loop_overflow (factory : Z -> nat -> Z -> thread) (n : Z) (w : world) :
  INT_MAX < n ->
  (for_each (seqZ 0 n) (start_turn factory) w).1 = Stop Undefined.
Proof.
  intros Hn.
  assert (Hpos : 0 <= INT_MAX) by (unfold INT_MAX; lia).
  replace n with (INT_MAX + (n - INT_MAX)) by lia.
  rewrite seqZ_app by lia. rewrite for_each_app, start_loop.
  - rewrite Z.add_0_l, seqZ_cons by lia.
    rewrite for_each_cons, start_turn_eq.
    by rewrite Z.leb_refl.
  - apply Forall_seqZ. intros i Hi. lia.
Qed.

Lemma basic_thread_pool_ctor_start (P : platform) (factory : Z -> nat -> Z -> thread)
    (num_threads : option Z) (w : world) :
  let n := Z.max 1 (default (hardware_concurrency P) num_threads) in
  basic_thread_pool_ctor P factory num_threads w =
    for_each (seqZ 0 n) (start_turn factory)
      (set_next_thread 0 (set_threads [] (set_queues
         (replicate (Z.to_nat n) {| _queue := []; _done := false |})
         (set_num_threads n w)))).
Proof.
  intros n. unfold basic_thread_pool_ctor, start, init_members, get_num_threads.
  unfold bind at 1. fold n. unfold bind at 1. cbn [_num_threads set_next_thread
    set_threads set_queues set_num_threads].
  assert (Hn : (0 <? n) = true) by (apply Z.ltb_lt; lia).
  rewrite Hn. by unfold assert, bind, ret.
Qed.

Lemma basic_thread_pool_ctor_eq (P : platform) (factory : Z -> nat -> Z -> thread)
    (num_threads : option Z) (w : world) :
  let n := Z.max 1 (default (hardware_concurrency P) num_threads) in
  n <= INT_MAX ->
  basic_thread_pool_ctor P factory num_threads w =
    (Ret tt,
     set_threads ((fun i => factory i (Z.to_nat i) i) <$> seqZ 0 n)
       (set_next_thread 0 (set_threads [] (set_queues
          (replicate (Z.to_nat n) {| _queue := []; _done := false |})
          (set_num_threads n w))))).
Proof.
  intros n Hmax. rewrite basic_thread_pool_ctor_start. fold n.
  rewrite start_loop; [done|].
  apply Forall_seqZ. intros i Hi. lia.
Qed.

(** A count above [INT_MAX] makes the constructor overflow the counter
    of the loop of [start]; the count and the queues are set before. *)
Lemma basic_thread_pool_ctor_overflow (P : platform)
    (factory : Z -> nat -> Z -> thread) (num_threads : option Z) (w : world) :
  let n := Z.max 1 (default (hardware_concurrency P) num_threads) in
  INT_MAX < n ->
  (basic_thread_pool_ctor P factory num_threads w).1 = Stop Undefined.
Proof.
  intros n Hmax. rewrite basic_thread_pool_ctor_start. fold n.
  by apply start_loop_overflow.
Qed.

Lemma basic_thread_pool_ctor_members (P : platform)
    (factory : Z -> nat -> Z -> thread) (num_threads : option Z) (w : world) :
  let n := Z.max 1 (default (hardware_concurrency P) num_threads) in
  let r := basic_thread_pool_ctor P factory num_threads w in
  _num_threads r.2 = n /\ length (_queues r.2) = Z.to_nat n.
Proof.
  intros n r. subst r. rewrite basic_thread_pool_ctor_start. fold n.
  destruct (start_loop_frame factory (seqZ 0 n)
              (set_next_thread 0 (set_threads [] (set_queues
                 (replicate (Z.to_nat n) {| _queue := []; _done := false |})
                 (set_num_threads n w))))) as [H1 H2].
  rewrite H1, H2. simpl. by rewrite length_replicate.
Qed.

(** Constructed from a thread factory and a thread count [N] with
    [max(1, N)] at most [INT_MAX], a [basic_thread_pool] has [max(1, N)]
    queues and [max(1, N)] threads, thread [i] running [run(i)]; without
    a count, the count is the hardware concurrency. *)
Lemma basic_thread_pool_counts (P : platform) (factory : Z -> nat -> Z -> thread)
    (num_threads : option Z) (w : world) :
  let n := Z.max 1 (default (hardware_concurrency P) num_threads) in
  let r := basic_thread_pool_ctor P factory num_threads w in
  n <= INT_MAX ->
  r.1 = Ret tt
  /\ _num_threads r.2 = n
  /\ length (_queues r.2) = Z.to_nat n
  /\ length (_threads r.2) = Z.to_nat n
  /\ _threads r.2 = (fun i => factory i (Z.to_nat i) i) <$> seqZ 0 n.
Proof.
  intros n r Hmax. subst r. rewrite basic_thread_pool_ctor_eq by done. simpl. fold n.
  rewrite length_replicate, length_fmap, length_seqZ. done.
Qed.

(** C5, for [thread_pool]: the constructor does not pass its argument
    on, so whatever count the user gives, the pool has as many threads
    and queues as the hardware concurrency (at least one).  The threads
    are counted by an [int]: the constructor returns with all of them
    started as long as the hardware concurrency is at most [INT_MAX], and
    overflows the counter beyond that, again whatever the argument. *)
Theorem thread_pool_ignores_count (P : platform) (num_threads : option Z) (w : world) :
  let r := thread_pool_ctor P num_threads w in
  let n := Z.max 1 (hardware_concurrency P) in
  _num_threads r.2 = n
  /\ length (_queues r.2) = Z.to_nat n
  /\ (n <= INT_MAX ->
      r.1 = Ret tt
      /\ length (_threads r.2) = Z.to_nat n
      /\ _threads r.2 = (fun i => make_thread i (Z.to_nat i) i) <$> seqZ 0 n)
  /\ (INT_MAX < n -> r.1 = Stop Undefined).
Proof.
  unfold thread_pool_ctor. cbv zeta.
  destruct (basic_thread_pool_ctor_members P make_thread None w) as [H1 H2].
  split; [exact H1|]. split; [exact H2|]. split.
  - intros Hmax.
    destruct (basic_thread_pool_counts P make_thread None w Hmax)
      as (H3 & _ & _ & H4 & H5).
    done.
  - intros Hmax. by apply (basic_thread_pool_ctor_overflow P make_thread None w).
Qed.

Lemma thread_pool_ignores_count_witness :
  Z.max 1 (hardware_concurrency lp64) <= INT_MAX
  /\ length (_threads (thread_pool_ctor lp64 (Some 2) empty_world).2) = 8%nat.
Proof.
  assert (H1 : Z.max 1 (hardware_concurrency lp64) <= INT_MAX)
    by (vm_compute; discriminate).
  split; [exact H1|].
  exact (proj1 (proj2 (proj1 (proj2 (proj2
           (thread_pool_ignores_count lp64 (Some 2) empty_world))) H1))).
Defined.

(** On a machine with 8 hardware threads, [thread_pool(2)] starts 8
    threads, not 2. *)
Lemma thread_pool_2_has_8_threads :
  length (_threads (thread_pool_ctor lp64 (Some 2) empty_world).2) = 8%nat
  /\ Z.to_nat (Z.max 1 2) = 2%nat.
Proof. split; reflexivity. Qed.

(** ** The packager *)

Lemma memcpy_length (dst src : list Byte.byte) (n : nat) :
  (n <= length src)%nat -> (n <= length dst)%nat ->
  length (memcpy dst src n) = length dst.
Proof.
  intros Hs Hd. unfold memcpy. rewrite length_app, length_take, length_drop. lia.
Qed.

Lemma memcpy_prefix (dst src : list Byte.byte) (n : nat) :
  (n <= length src)%nat -> take n (memcpy dst src n) = take n src.
Proof.
  intros Hs. unfold memcpy. rewrite take_app_length'; [done|].
  rewrite length_take. lia.
Qed.

Lemma elided_round_trip (P : platform) (stack stack' : list Byte.byte) (f : callable) :
  (sizeof_fn (fn_ty f) <= sizeof_ptr P)%nat ->
  length (fn_repr f) = sizeof_fn (fn_ty f) ->
  let bits := take (sizeof_ptr P)
                (memcpy (uninitialized stack (sizeof_converter P (fn_ty f)))
                   (fn_repr f) (sizeof_fn (fn_ty f))) in
  length bits = sizeof_ptr P
  /\ take (sizeof_fn (fn_ty f)) bits = fn_repr f
  /\ take (sizeof_fn (fn_ty f))
       (memcpy (uninitialized stack' (sizeof_converter P (fn_ty f))) bits (sizeof_ptr P))
     = fn_repr f.
Proof.
  intros Hsz Hlen bits.
  assert (Hc : sizeof_converter P (fn_ty f) = sizeof_ptr P)
    by (unfold sizeof_converter; lia).
  rewrite Hc in *.
  assert (Hb : length bits = sizeof_ptr P).
  { subst bits. rewrite length_take, memcpy_length; unfold uninitialized;
      rewrite ?length_resize; lia. }
  assert (Hpre : take (sizeof_fn (fn_ty f)) bits = fn_repr f).
  { subst bits. rewrite take_take, Nat.min_l by lia.
    rewrite memcpy_prefix by lia. apply take_ge. lia. }
  split; [done|]. split; [done|].
  unfold memcpy at 1. rewrite (take_ge bits) by lia.
  by rewrite take_app_le by lia.
Qed.

(** C7. For a trivially copyable callable no larger than a pointer,
    [package_task_as_c_callback] returns without any event -- nothing is
    allocated, constructed or destroyed -- and the data pointer of the
    handle is a pointer-sized value whose first [sizeof(F)] bytes are the
    bytes of the callable.  Calling the function pointer of the handle with
    that data pointer invokes a callable of the same type whose bytes are
    those of the original: it does exactly what invoking the original
    does. *)
Theorem package_elided_round_trip (P : platform) (stack stack' : list Byte.byte)
    (a : allocator) (f : callable) (w : world) :
  (sizeof_fn (fn_ty f) <= sizeof_ptr P)%nat ->
  trivially_copyable (fn_ty f) = true ->
  length (fn_repr f) = sizeof_fn (fn_ty f) ->
  exists h bits,
    package_task_as_c_callback P stack a f w = (Ret h, w)
    /\ c_callback_get h = {| callback := callback_elided (fn_ty f); data := ptr_bits bits |}
    /\ c_callback_release h = (c_callback_get h, h)
    /\ length bits = sizeof_ptr P
    /\ take (sizeof_fn (fn_ty f)) bits = fn_repr f
    /\ call_function_pointer P stack' (c_callback_get h) w = invoke f w
    /\ invoke f w =
         (if call_throws (fn_ty f) then Stop Throw else Ret tt,
          set_log (log w ++ [EvInvoke f]) w).
Proof.
  intros Hsz Htc Hlen.
  destruct (elided_round_trip P stack stack' f Hsz Hlen) as (Hbits & Hpre & Hround).
  eexists _, _. split.
  { unfold package_task_as_c_callback, can_elide_alloc.
    apply Nat.leb_le in Hsz. rewrite Hsz, Htc. reflexivity. }
  split; [reflexivity|]. split; [reflexivity|]. split; [exact Hbits|].
  split; [exact Hpre|].
  split.
  - unfold call_function_pointer, c_callback_get, call_elided. cbn [callback data _f _data owner_get].
    rewrite Hround. by destruct f.
  - unfold invoke. unfold_monad. by destruct (call_throws (fn_ty f)).
Qed.

Lemma package_allocated_eq (P : platform) (stack : list Byte.byte) (a : allocator)
    (f : callable) (w : world) :
  can_elide_alloc P f = false ->
  construct_throws (fn_ty f) = false ->
  package_task_as_c_callback P stack a f w =
    (Ret {| _f := callback_allocated;
            _data := owner_unique_ptr (Some (fresh (dom (heap w)))) a |},
     set_log (log w ++ [EvAllocate a (fresh (dom (heap w))); EvConstruct f])
       (set_heap (<[fresh (dom (heap w)) := Some (a, f)]> (heap w)) w)).
Proof.
  intros He Hc. unfold package_task_as_c_callback, package_impl_allocated.
  rewrite He. unfold bind. by rewrite allocate_unique_ok.
Qed.

Lemma allocator_deleter_eq (a : allocator) (p : addr) (f : callable) (a' : allocator)
    (w : world) :
  heap w !! p = Some (Some (a', f)) ->
  allocator_deleter a (Some p) w =
    (Ret tt,
     set_log (log w ++ [EvDestroy f; EvDeallocate a p])
       (set_heap (delete p (heap w)) w)).
Proof.
  intros Hp. unfold allocator_deleter, destroy_node, read_node, deallocate.
  unfold_monad. simpl. rewrite Hp. simpl. rewrite lookup_insert_eq. simpl.
  rewrite delete_insert_eq. unfold set_log, set_heap; simpl.
  by rewrite <- app_assoc.
Qed.

Lemma call_allocated_eq (p : addr) (a : allocator) (f : callable) (w : world) :
  heap w !! p = Some (Some (a, f)) ->
  call_allocated (ptr_node p) w =
    (if call_throws (fn_ty f) then Stop Throw else Ret tt,
     set_log (log w ++ [EvInvoke f; EvDestroy f; EvDeallocate a p])
       (set_heap (delete p (heap w)) w)).
Proof.
  intros Hp. unfold call_allocated, scope_exit.
  assert (Hbody : (do n <- read_node p; invoke n.2) w =
            (if call_throws (fn_ty f) then Stop Throw else Ret tt,
             set_log (log w ++ [EvInvoke f]) w)).
  { unfold read_node, invoke. unfold_monad. simpl. rewrite Hp. simpl.
    by destruct (call_throws (fn_ty f)). }
  rewrite Hbody.
  assert (Hdel : (do n <- read_node p; allocator_deleter n.1 (Some p))
                   (set_log (log w ++ [EvInvoke f]) w) =
            (Ret tt,
             set_log (log w ++ [EvInvoke f; EvDestroy f; EvDeallocate a p])
               (set_heap (delete p (heap w)) w))).
  { unfold allocator_deleter, destroy_node, read_node, deallocate.
    unfold_monad. simpl. rewrite Hp. simpl. rewrite Hp. simpl.
    rewrite lookup_insert_eq. simpl. rewrite delete_insert_eq.
    unfold set_log, set_heap; simpl. by rewrite <- !app_assoc. }
  destruct (call_throws (fn_ty f)); by rewrite Hdel.
Qed.

(** C8, as the code has it.  A handle of the allocating version owns one
    node.  In a lifetime in which the callback runs exactly once if
    ownership was given up ([release()] or a direct call) and not at all
    otherwise, the node is destroyed and deallocated exactly once: by the
    destructor of the handle when it was neither released nor called, by
    the callback otherwise, and then the destructor frees nothing.  The
    callback destroys and deallocates the node, through the allocator
    stored in it, whether the callable returns or throws.  Calling the
    handle is [release()] followed by the call of the callback. *)
Theorem handle_released_once (P : platform) (stack : list Byte.byte) (a : allocator)
    (f : callable) (w : world) (l : lifetime) :
  can_elide_alloc P f = false ->
  construct_throws (fn_ty f) = false ->
  follows_protocol l = true ->
  exists p h w1,
    heap w !! p = None
    /\ package_task_as_c_callback P stack a f w = (Ret h, w1)
    /\ heap w1 !! p = Some (Some (a, f))
    /\ (let r := live P stack l h w1 in
        r.1 = Ret tt
        /\ heap r.2 = heap w
        /\ new_events w1 r.2 =
             match l with
             | DestroyOnly => [EvDestroy f; EvDeallocate a p]
             | _ => [EvInvoke f; EvDestroy f; EvDeallocate a p]
             end)
    /\ (let c := call_function_pointer P stack (c_callback_release h).1 w1 in
        c.1 = (if call_throws (fn_ty f) then Stop Throw else Ret tt)
        /\ new_events w1 c.2 = [EvInvoke f; EvDestroy f; EvDeallocate a p]
        /\ heap c.2 = heap w)
    /\ (forall w', c_callback_destructor (c_callback_release h).2 w' = (Ret tt, w'))
    /\ (forall w', c_callback_call P stack h w' =
          (call_function_pointer P stack (c_callback_release h).1 ;;
           ret (c_callback_release h).2) w').
Proof.
  intros He Hc Hl.
  eexists (fresh (dom (heap w))), _, _.
  split; [apply fresh_unallocated|].
  split; [by apply package_allocated_eq|].
  set (p := fresh (dom (heap w))).
  set (w1 := set_log _ _).
  assert (Hp : heap w1 !! p = Some (Some (a, f))) by (simpl; apply lookup_insert_eq).
  assert (Hh : delete p (<[p := Some (a, f)]> (heap w)) = heap w).
  { apply delete_insert_id, fresh_unallocated. }
  assert (Hcall : call_function_pointer P stack
            {| callback := callback_allocated; data := ptr_node p |} w1 =
            (if call_throws (fn_ty f) then Stop Throw else Ret tt,
             set_log (log w1 ++ [EvInvoke f; EvDestroy f; EvDeallocate a p])
               (set_heap (delete p (heap w1)) w1))).
  { unfold call_function_pointer. simpl callback. simpl data.
    by apply call_allocated_eq. }
  split; [exact Hp|]. split; [|split; [|split]].
  - destruct l; try done; cbn [live c_callback_release owner_release
      c_callback_destructor owner_destructor _data _f owner_get fst snd].
    + erewrite allocator_deleter_eq by exact Hp. simpl.
      erewrite new_events_app by (simpl; reflexivity). by rewrite Hh.
    + unfold bind, catch. rewrite Hcall.
      destruct (call_throws (fn_ty f)); simpl;
        (erewrite new_events_app by (simpl; reflexivity)); by rewrite Hh.
    + unfold c_callback_call.
      cbn [c_callback_release owner_release _data _f owner_get fst snd].
      unfold bind. rewrite Hcall.
      destruct (call_throws (fn_ty f)); simpl;
        (erewrite new_events_app by (simpl; reflexivity)); by rewrite Hh.
  - cbn [c_callback_release owner_release _data _f owner_get fst snd].
    rewrite Hcall. simpl.
    erewrite new_events_app by (simpl; reflexivity). by rewrite Hh.
  - done.
  - done.
Qed.

(** The claim without the proviso fails: a handle that was released and
    whose callback is never called is destroyed without any
    deallocation, and the node stays on the heap. *)
Lemma handle_release_counterexample :
  ~ (forall (P : platform) (stack : list Byte.byte) (a : allocator) (f : callable)
       (w : world) (l : lifetime) (h : c_callback) (w1 : world),
       can_elide_alloc P f = false ->
       construct_throws (fn_ty f) = false ->
       package_task_as_c_callback P stack a f w = (Ret h, w1) ->
       length (List.filter is_deallocation (new_events w1 (live P stack l h w1).2))
       = 1%nat).
Proof.
  intros H.
  destruct (package_task_as_c_callback lp64 [] (user_allocator 0) large_fn empty_world)
    as [o w1] eqn:Hpack.
  assert (Ho : exists h, o = Ret h).
  { rewrite package_allocated_eq in Hpack by reflexivity.
    injection Hpack as <- _. by eexists. }
  destruct Ho as [h ->].
  specialize (H lp64 [] (user_allocator 0) large_fn empty_world ReleaseDestroy h w1
                eq_refl eq_refl Hpack).
  rewrite package_allocated_eq in Hpack by reflexivity.
  injection Hpack as <- <-.
  vm_compute in H. discriminate H.
Qed.


Lemma pop_waits_witness :
  (0 < length (_queues one_task_world))%nat
  /\ operator_bool work_item_default = false
  /\ queues_movable one_task_world = true
  /\ (pop lp64 0 work_item_default one_task_world).1 = Ret (true, embedded_item)
  /\ done_set 0 (done lp64 0 one_task_world).2.
Proof.
  assert (H1 : (0 < length (_queues one_task_world))%nat) by (simpl; lia).
  assert (H2 : operator_bool work_item_default = false) by reflexivity.
  assert (H3 : queues_movable one_task_world = true) by reflexivity.
  split; [exact H1|]. split; [exact H2|]. split; [exact H3|].
  split; [vm_compute; reflexivity|].
  exact (proj2 (proj2 (proj2 (proj2 (proj2 (proj2
           (pop_waits lp64 0 work_item_default one_task_world H1 H2 H3))))))).
Defined.

Lemma try_push_push_witness :
  _queues (after_sync lp64 empty_world) !! 0%nat = Some {| _queue := []; _done := false |}
  /\ mutex_free empty_world = true
  /\ movable embedded_item = true
  /\ (try_push lp64 0 embedded_item empty_world).1
     = Ret (true, moved_from embedded_item)
  /\ (push lp64 0 embedded_item empty_world).1 = Ret (moved_from embedded_item).
Proof.
  assert (H1 : _queues (after_sync lp64 empty_world) !! 0%nat
               = Some {| _queue := []; _done := false |}) by reflexivity.
  assert (H2 : mutex_free empty_world = true) by reflexivity.
  assert (H3 : movable embedded_item = true) by reflexivity.
  destruct (try_push_push lp64 0 embedded_item _ empty_world H1) as (_ & Htry & Hpush).
  split; [exact H1|]. split; [exact H2|]. split; [exact H3|].
  split; [exact (proj1 (Htry H2 H3))|exact (proj1 (Hpush H3))].
Defined.

Lemma emplace_storage_witness :
  can_embed lp64 small_fn = true
  /\ can_embed lp64 large_fn = false
  /\ List.filter is_allocation
       (new_events empty_world (emplace lp64 std_allocator small_fn empty_world).2) = []
  /\ exists p,
       List.filter is_allocation
         (new_events empty_world (emplace lp64 (user_allocator 7) large_fn empty_world).2)
       = [EvAllocate (user_allocator 7) p].
Proof.
  assert (H1 : can_embed lp64 small_fn = true) by reflexivity.
  assert (H2 : can_embed lp64 large_fn = false) by reflexivity.
  split; [exact H1|]. split; [exact H2|].
  destruct (emplace_storage lp64 std_allocator small_fn empty_world)
    as (_ & Hin & _).
  destruct (emplace_storage lp64 (user_allocator 7) large_fn empty_world)
    as (_ & _ & Hout).
  split; [exact (proj1 (proj2 (Hin H1)))|].
  destruct (Hout H2) as (p & _ & Hp & _). exists p. exact Hp.
Defined.

Lemma package_elided_round_trip_witness :
  (sizeof_fn (fn_ty pointer_fn) <= sizeof_ptr lp64)%nat
  /\ trivially_copyable (fn_ty pointer_fn) = true
  /\ length (fn_repr pointer_fn) = sizeof_fn (fn_ty pointer_fn)
  /\ exists h bits,
       package_task_as_c_callback lp64 [] std_allocator pointer_fn empty_world
       = (Ret h, empty_world)
       /\ c_callback_get h
          = {| callback := callback_elided (fn_ty pointer_fn); data := ptr_bits bits |}
       /\ call_function_pointer lp64 [Byte.xff] (c_callback_get h) empty_world
          = invoke pointer_fn empty_world.
Proof.
  assert (H1 : (sizeof_fn (fn_ty pointer_fn) <= sizeof_ptr lp64)%nat) by (simpl; lia).
  assert (H2 : trivially_copyable (fn_ty pointer_fn) = true) by reflexivity.
  assert (H3 : length (fn_repr pointer_fn) = sizeof_fn (fn_ty pointer_fn)) by reflexivity.
  split; [exact H1|]. split; [exact H2|]. split; [exact H3|].
  destruct (package_elided_round_trip lp64 [] [Byte.xff] std_allocator pointer_fn
              empty_world H1 H2 H3) as (h & bits & Hp & Hg & _ & _ & _ & Hc & _).
  exists h, bits. split; [exact Hp|]. split; [exact Hg|exact Hc].
Defined.

Lemma handle_released_once_witness :
  can_elide_alloc lp64 large_fn = false
  /\ construct_throws (fn_ty large_fn) = false
  /\ follows_protocol ReleaseInvokeDestroy = true
  /\ exists p h w1,
       package_task_as_c_callback lp64 [] (user_allocator 7) large_fn empty_world
       = (Ret h, w1)
       /\ new_events w1 (live lp64 [] ReleaseInvokeDestroy h w1).2
          = [EvInvoke large_fn; EvDestroy large_fn; EvDeallocate (user_allocator 7) p].
Proof.
  assert (H1 : can_elide_alloc lp64 large_fn = false) by reflexivity.
  assert (H2 : construct_throws (fn_ty large_fn) = false) by reflexivity.
  assert (H3 : follows_protocol ReleaseInvokeDestroy = true) by reflexivity.
  split; [exact H1|]. split; [exact H2|]. split; [exact H3|].
  destruct (handle_released_once lp64 [] (user_allocator 7) large_fn empty_world
              ReleaseInvokeDestroy H1 H2 H3)
    as (p & h & w1 & _ & Hp & _ & (_ & _ & Hev) & _).
  exists p, h, w1. split; [exact Hp|exact Hev].
Defined.

Lemma work_item_call_keeps_witness :
  held (heap empty_world) embedded_item = Some small_fn
  /\ new_events empty_world (work_item_call embedded_item empty_world).2
     = [EvInvoke small_fn]
  /\ operator_bool embedded_item = true.
Proof.
  assert (H1 : held (heap empty_world) embedded_item = Some small_fn) by reflexivity.
  destruct (work_item_call_keeps embedded_item small_fn empty_world H1)
    as (_ & Hev & _ & Hne & _).
  split; [exact H1|]. split; [exact Hev|exact Hne].
Defined.

Lemma java_shared_native_pool_counts (P : platform) (factory : Z -> nat -> Z -> thread)
    (num_threads : Z) (w : world) :
  0 <= num_threads <= INT_MAX ->
  let r := java_shared_native_pool_ctor P factory num_threads w in
  _num_threads r.2 = Z.max 1 num_threads
  /\ length (_threads r.2) = Z.to_nat (Z.max 1 num_threads).
Proof.
  intros Hn r. subst r. unfold java_shared_native_pool_ctor, to_unsigned.
  rewrite Z.mod_small by (unfold UINT_MOD, INT_MAX in *; lia).
  destruct (basic_thread_pool_counts P factory (Some num_threads) w)
    as (_ & H2 & _ & H4 & _).
  { change (default (hardware_concurrency P) (Some num_threads)) with num_threads.
    unfold INT_MAX in *. lia. }
  done.
Qed.


(** * The rest of the library *)

(** ** The heap under the other threads *)

Lemma heap_extends_trans (h1 h2 h3 : gmap addr cell) :
  heap_extends h1 h2 -> heap_extends h2 h3 -> heap_extends h1 h3.
Proof. intros H1 H2 p n Hp. by apply H2, H1. Qed.

Lemma apply_env_extends (P : platform) (w : world) (a : env_action) :
  heap_extends (heap w) (heap (apply_env P w a)).
Proof.
  destruct a as [q al f|q|q]; simpl.
  - set (w1 := set_next_thread (to_unsigned (_next_thread w + 1)) w).
    pose proof (emplace_heap P al f w1) as (Hext & _).
    destruct (emplace P al f w1) as [[wi|s] w2]; simpl in *; [|done].
    unfold append_item. by destruct (_queues w2 !! q).
  - destruct (_queues w !! q); apply heap_extends_refl.
  - destruct (_queues w !! q); apply heap_extends_refl.
Qed.

Lemma apply_tick_extends (P : platform) (t : tick) (w : world) :
  heap_extends (heap w) (heap (apply_tick P t w)).
Proof.
  unfold apply_tick. revert w.
  induction (interference t) as [|a l IH]; intros w; simpl.
  - apply heap_extends_refl.
  - eapply heap_extends_trans; [apply apply_env_extends|apply IH].
Qed.

Lemma after_sync_extends (P : platform) (w : world) :
  heap_extends (heap w) (heap (after_sync P w)).
Proof.
  unfold after_sync. destruct (sched w); [apply heap_extends_refl|].
  simpl. apply apply_tick_extends.
Qed.

Lemma filter_none {A} (p : A -> bool) (l : list A) :
  Forall (fun x => p x = false) l -> List.filter p l = [].
Proof.
  induction 1 as [|x l Hx _ IH]; simpl; [done|]. by rewrite Hx.
Qed.

(** ** Submission through the call operator *)

Lemma schedule_loop_heap (P : platform) (thread n : Z) (f : work_item) (idxs : list Z)
    (w : world) :
  0 < n -> Z.to_nat n = length (_queues w) -> movable f = true ->
  heap_extends (heap w) (heap (for_first idxs (schedule_attempt P thread n) f w).2).
Proof.
  intros Hn Hlen Hf. revert w Hlen.
  induction idxs as [|i idxs IH]; intros w Hlen.
  - apply heap_extends_refl.
  - rewrite for_first_cons.
    set (q := Z.to_nat (to_unsigned (thread + i) mod n)).
    change (schedule_attempt P thread n i f w) with (try_push P q f w).
    assert (Hq : (q < length (_queues (after_sync P w)))%nat).
    { rewrite after_sync_length, <- Hlen. unfold q.
      pose proof (Z.mod_pos_bound (to_unsigned (thread + i)) n Hn). lia. }
    destruct (lookup_lt_is_Some_2 _ _ Hq) as [tq Htq].
    destruct (mutex_free w) eqn:Hm.
    + rewrite (try_push_free P _ f tq) by done. simpl. apply after_sync_extends.
    + rewrite try_push_busy by done.
      eapply heap_extends_trans; [apply (after_sync_extends P w)|].
      apply (IH (set_log _ (after_sync P w))). simpl. by rewrite after_sync_length.
Qed.

(** What [schedule(work_t&&)] makes of a payload, whatever the other
    threads do: it is moved to the back of one queue, and nothing is
    allocated, freed or invoked. *)
Lemma schedule_outcome (P : platform) (f : work_item) (w : world) :
  0 < _num_threads w -> Z.to_nat (_num_threads w) = length (_queues w) ->
  movable f = true ->
  exists w' pre landed post tq,
    schedule P f w = (Ret (moved_from f), w')
    /\ log w' = log w ++ pre ++ relocation f ++ [EvNotifyOne landed; post]
    /\ Forall (fun e => exists q, e = EvTryPush q false) pre
    /\ (post = EvTryPush landed true \/ post = EvPush landed)
    /\ _queues w' !! landed = Some tq
    /\ last (_queue tq) = Some (moved_into work_item_default f)
    /\ heap_extends (heap w) (heap w').
Proof.
  set (s := _next_thread w). set (n := _num_threads w).
  intros Hn Hlen Hf.
  set (w0 := set_next_thread (to_unsigned (s + 1)) w).
  assert (Hloop := schedule_loop P s n f (seqZ 0 n) w0 Hn Hlen Hf).
  assert (Hheap := schedule_loop_heap P s n f (seqZ 0 n) w0 Hn Hlen Hf).
  cbv zeta in Hloop.
  assert (Hr : schedule P f w =
               (do pf <- for_first (seqZ 0 n) (schedule_attempt P s n) f;
                if pf.1 then ret pf.2 else push P (Z.to_nat (s mod n)) pf.2) w0).
  { unfold schedule. unfold bind at 1. rewrite fetch_increment_eq.
    unfold bind at 1. unfold get_num_threads. simpl.
    unfold bind. fold s n w0.
    destruct (for_first _ _ _ _) as [[[[] f']|st] w']; done. }
  rewrite Hr. unfold bind.
  destruct Hloop as (Hlen2 & _ & Hloop).
  destruct (for_first (seqZ 0 n) (schedule_attempt P s n) f w0) as [o w2].
  simpl in Hlen2, Hloop, Hheap.
  change (log w0) with (log w) in Hloop.
  change (heap w0) with (heap w) in Hheap.
  change (_queues w0) with (_queues w) in Hlen2.
  destruct (seqZ 0 n !! _) as [i|].
  - destruct Hloop as (-> & Hlog & tq & Htq & Hlast). simpl.
    eexists w2, _, _, _, tq. split; [done|]. split; [exact Hlog|].
    split; [|split; [by left|done]].
    apply Forall_forall. intros e (j & -> & _)%list_elem_of_fmap. by eexists.
  - destruct Hloop as (-> & Hlog). simpl.
    assert (Hq : (Z.to_nat (s mod n) < length (_queues (after_sync P w2)))%nat).
    { rewrite after_sync_length, Hlen2, <- Hlen.
      pose proof (Z.mod_pos_bound s n Hn). lia. }
    destruct (lookup_lt_is_Some_2 _ _ Hq) as [tq Htq].
    rewrite (push_ok P _ f tq) by done.
    eexists _, ((fun i => EvTryPush (Z.to_nat (to_unsigned (s + i) mod n)) false)
                  <$> seqZ 0 n),
      (Z.to_nat (s mod n)), (EvPush (Z.to_nat (s mod n))), _.
    split; [done|]. simpl. split.
    { rewrite Hlog. by rewrite <- !app_assoc. }
    split.
    { apply Forall_forall. intros e (j & -> & _)%list_elem_of_fmap. by eexists. }
    split; [by right|].
    split; [apply list_lookup_insert_eq; done|].
    split; [simpl; by rewrite last_snoc|].
    eapply heap_extends_trans; [exact Hheap|apply after_sync_extends].
Qed.

Lemma emplace_embed_eq (P : platform) (a : allocator) (c : callable) (w : world) :
  can_embed P c = true -> construct_throws (fn_ty c) = false ->
  emplace P a c w =
    (Ret {| _buffer := Some c; _target := buffer_ptr |},
     set_log (log w ++ [EvConstruct c]) w).
Proof.
  intros He Hc. unfold emplace, emplace_impl_embed, construct_callable.
  rewrite He, Hc. reflexivity.
Qed.

Lemma emplace_alloc_eq (P : platform) (a : allocator) (c : callable) (w : world) :
  can_embed P c = false -> construct_throws (fn_ty c) = false ->
  emplace P a c w =
    (Ret {| _buffer := None; _target := heap_ptr (fresh (dom (heap w))) |},
     set_log (log w ++ [EvAllocate a (fresh (dom (heap w))); EvConstruct c])
       (set_heap (<[fresh (dom (heap w)) := Some (a, c)]> (heap w)) w)).
Proof.
  intros He Hc. unfold emplace, emplace_impl_alloc. rewrite He.
  unfold bind. by rewrite allocate_unique_ok.
Qed.

Lemma work_item_ctor_eq (P : platform) (a : allocator) (f : functor) (w : world) :
  not_null f = true ->
  work_item_ctor P a f w = emplace P a (fu_callable f) w.
Proof. intros H. unfold work_item_ctor, assert, bind. by rewrite H. Qed.

Lemma operator_call_alloc_eq (P : platform) (a : allocator) (f : functor) (w : world) :
  operator_call_alloc P a f w =
    match work_item_ctor P a f w with
    | (Ret work, w1) =>
        match schedule P work w1 with
        | (Ret work', w2) => work_item_destructor work' w2
        | (Stop s, w2) => (Stop s, w2)
        end
    | (Stop s, w1) => (Stop s, w1)
    end.
Proof. reflexivity. Qed.

Lemma set_heap_same (w : world) : set_heap (heap w) w = w.
Proof. by destruct w. Qed.

Lemma set_log_same (w : world) : set_log (log w) w = w.
Proof. by destruct w. Qed.

(** X1.  A submission that fails leaves the pool as it was.  A function
    pointer that is null and a [std::function] that is empty fail the
    assertion of the constructor of the work_item before anything else
    happens.  When the copy of the callable throws, the exception leaves
    the call operator: no queue has changed, the round-robin counter has
    not moved, and storage that was allocated for the copy has been given
    back. *)
Theorem submit_rejected (P : platform) (a : allocator) (f : functor) (w : world) :
  (not_null f = false ->
     operator_call_alloc P a f w = (Stop (AssertFail "function is NULL"), w))
  /\ (not_null f = true -> construct_throws (fn_ty (fu_callable f)) = true ->
        let r := operator_call_alloc P a f w in
        r.1 = Stop Throw
        /\ heap r.2 = heap w
        /\ _queues r.2 = _queues w
        /\ _next_thread r.2 = _next_thread w
        /\ sched r.2 = sched w
        /\ new_events w r.2 =
             if can_embed P (fu_callable f) then []
             else [EvAllocate a (fresh (dom (heap w)));
                   EvDeallocate a (fresh (dom (heap w)))]).
Proof.
  split.
  - intros Hnull. unfold operator_call_alloc, schedule_alloc, work_item_ctor.
    unfold bind, assert. by rewrite Hnull.
  - intros Hnull Hthrow r. subst r.
    rewrite operator_call_alloc_eq, work_item_ctor_eq by done.
    unfold emplace, emplace_impl_embed, emplace_impl_alloc, construct_callable.
    destruct (can_embed P (fu_callable f)).
    + rewrite Hthrow. unfold_monad. simpl.
      repeat (split; [done|]). apply drop_all.
    + unfold bind. rewrite allocate_unique_throws by done. simpl.
      by erewrite new_events_app by (simpl; reflexivity).
Qed.

Lemma submit_rejected_witness :
  not_null null_function_pointer = false
  /\ not_null (as_function_object throwing_fn) = true
  /\ construct_throws (fn_ty (fu_callable (as_function_object throwing_fn))) = true
  /\ operator_call_alloc lp64 std_allocator null_function_pointer empty_world
     = (Stop (AssertFail "function is NULL"), empty_world)
  /\ (operator_call_alloc lp64 (user_allocator 3) (as_function_object throwing_fn)
        empty_world).1 = Stop Throw.
Proof.
  assert (H1 : not_null null_function_pointer = false) by reflexivity.
  assert (H2 : not_null (as_function_object throwing_fn) = true) by reflexivity.
  assert (H3 : construct_throws (fn_ty (fu_callable (as_function_object throwing_fn)))
               = true) by reflexivity.
  split; [exact H1|]. split; [exact H2|]. split; [exact H3|].
  split.
  - exact (proj1 (submit_rejected lp64 std_allocator null_function_pointer empty_world) H1).
  - exact (proj1 (proj2 (submit_rejected lp64 (user_allocator 3)
                           (as_function_object throwing_fn) empty_world) H2 H3)).
Defined.

(** X2.  A submission that succeeds.  For an argument that is not null and
    whose copy does not throw, the call operator returns after the copy of
    the callable has become the last payload of one of the queues,
    whatever the other threads do meanwhile.  On the way it allocates once
    through the given allocator if the callable cannot live in the buffer
    and not at all if it can; it frees nothing and invokes nothing, and the
    only destructor it runs is that of the copy a move out of a buffer
    leaves behind. *)
Theorem submit_lands (P : platform) (a : allocator) (f : functor) (w : world) :
  0 < _num_threads w -> Z.to_nat (_num_threads w) = length (_queues w) ->
  not_null f = true -> construct_throws (fn_ty (fu_callable f)) = false ->
  let c := fu_callable f in
  let r := operator_call_alloc P a f w in
  r.1 = Ret tt
  /\ (exists q tq item,
        _queues r.2 !! q = Some tq
        /\ last (_queue tq) = Some item
        /\ held (heap r.2) item = Some c)
  /\ List.filter is_allocation (new_events w r.2) =
       (if can_embed P c then [] else [EvAllocate a (fresh (dom (heap w)))])
  /\ List.filter is_deallocation (new_events w r.2) = []
  /\ List.filter is_invocation (new_events w r.2) = []
  /\ List.filter is_destruction (new_events w r.2) =
       (if can_embed P c then [EvDestroy c] else []).
Proof.
  intros Hn Hlen Hnull Hthrow c r. subst r.
  rewrite operator_call_alloc_eq, work_item_ctor_eq by done. fold c.
  pose proof (emplace_frame P a c w) as (Hq1 & _ & Hn1 & _ & Hmov).
  pose proof (emplace_heap P a c w) as (_ & Hheld).
  assert (Hem : exists evs f0,
            emplace P a c w = (Ret f0, (emplace P a c w).2)
            /\ log (emplace P a c w).2 = log w ++ evs
            /\ evs = (if can_embed P c then [EvConstruct c]
                      else [EvAllocate a (fresh (dom (heap w))); EvConstruct c])
            /\ relocation f0 = (if can_embed P c then [EvConstruct c; EvDestroy c]
                                else [])).
  { destruct (can_embed P c) eqn:He.
    - rewrite emplace_embed_eq by done. by eexists _, _.
    - rewrite emplace_alloc_eq by done. by eexists _, _. }
  destruct Hem as (evs & f0 & Hemp & Hlog1 & Hevs & Hrel).
  rewrite Hemp in Hmov, Hheld |- *. simpl in Hmov, Hheld.
  set (w1 := (emplace P a c w).2) in *.
  rewrite <- Hn1 in Hn. rewrite <- Hn1, <- Hq1 in Hlen.
  destruct (schedule_outcome P f0 w1 Hn Hlen Hmov)
    as (w2 & pre & landed & post & tq & Hsch & Hlog2 & Hpre & Hpost & Htq & Hlast & Hext).
  rewrite Hsch. rewrite destructor_empty by done. simpl.
  split; [done|]. split.
  { exists landed, tq, (moved_into work_item_default f0).
    split; [done|]. split; [done|].
    rewrite held_moved_into_default.
    rewrite (held_extends (heap w1) (heap w2)); [done|done|by eexists]. }
  assert (Hnew : new_events w w2
                 = evs ++ pre ++ relocation f0 ++ [EvNotifyOne landed; post]).
  { apply new_events_app. rewrite Hlog2, Hlog1. by rewrite <- !app_assoc. }
  rewrite Hnew, Hrel, Hevs.
  assert (Hp1 : List.filter is_allocation pre = []).
  { apply filter_none. eapply Forall_impl; [exact Hpre|]. by intros e [q ->]. }
  assert (Hp2 : List.filter is_deallocation pre = []).
  { apply filter_none. eapply Forall_impl; [exact Hpre|]. by intros e [q ->]. }
  assert (Hp3 : List.filter is_invocation pre = []).
  { apply filter_none. eapply Forall_impl; [exact Hpre|]. by intros e [q ->]. }
  assert (Hp4 : List.filter is_destruction pre = []).
  { apply filter_none. eapply Forall_impl; [exact Hpre|]. by intros e [q ->]. }
  rewrite !List.filter_app, Hp1, Hp2, Hp3, Hp4.
  destruct (can_embed P c); destruct Hpost as [-> | ->]; done.
Qed.

Lemma submit_lands_witness :
  0 < _num_threads wrap_world
  /\ Z.to_nat (_num_threads wrap_world) = length (_queues wrap_world)
  /\ not_null (as_function_object large_fn) = true
  /\ construct_throws (fn_ty (fu_callable (as_function_object large_fn))) = false
  /\ (operator_call_alloc lp64 (user_allocator 3) (as_function_object large_fn)
        wrap_world).1 = Ret tt
  /\ List.filter is_allocation
       (new_events wrap_world
          (operator_call_alloc lp64 (user_allocator 3) (as_function_object large_fn)
             wrap_world).2)
     = [EvAllocate (user_allocator 3) (fresh (dom (heap wrap_world)))].
Proof.
  assert (H1 : 0 < _num_threads wrap_world) by reflexivity.
  assert (H2 : Z.to_nat (_num_threads wrap_world) = length (_queues wrap_world))
    by reflexivity.
  assert (H3 : not_null (as_function_object large_fn) = true) by reflexivity.
  assert (H4 : construct_throws (fn_ty (fu_callable (as_function_object large_fn)))
               = false) by reflexivity.
  split; [exact H1|]. split; [exact H2|]. split; [exact H3|]. split; [exact H4|].
  destruct (submit_lands lp64 (user_allocator 3) (as_function_object large_fn)
              wrap_world H1 H2 H3 H4) as (Hr & _ & Ha & _).
  split; [exact Hr|exact Ha].
Defined.

(** ** A pool with no other thread at work *)

Lemma quiet_after_sync (P : platform) (w : world) :
  sched w = [] -> after_sync P w = w.
Proof. unfold after_sync. by intros ->. Qed.

Lemma quiet_mutex_free (w : world) : sched w = [] -> mutex_free w = true.
Proof. unfold mutex_free. by intros ->. Qed.

Lemma set_sched_same (w : world) : set_sched (sched w) w = w.
Proof. by destruct w. Qed.

Lemma run_attempt_eq (P : platform) (index n i : Z) (f : work_item) (w : world) :
  0 <= index -> 0 <= i -> index + i <= INT_MAX -> i < INT_MAX ->
  run_attempt P index n i f w =
    match try_pop P (Z.to_nat ((index + i) mod n)) f w with
    | (Ret (true, f'), w') => (Ret (true, f'), w')
    | (Ret (false, f'), w') => (Ret (false, f'), w')
    | (Stop s, w') => (Stop s, w')
    end.
Proof.
  intros Hidx Hi0 Hi1 Hi2. unfold run_attempt.
  destruct (INT_MAX <? index + i) eqn:E1; [apply Z.ltb_lt in E1; lia|].
  unfold bind. unfold to_unsigned.
  rewrite (Z.mod_small (index + i) UINT_MOD)
    by (unfold UINT_MOD, INT_MAX in *; lia).
  destruct (try_pop _ _ _ _) as [[[[] f']|s] w']; try done.
  destruct (INT_MAX <=? i) eqn:E2; [apply Z.leb_le in E2; lia|done].
Qed.

Lemma quiet_try_pop_empty (P : platform) (q : nat) (tq : task_queue) (w : world) :
  sched w = [] -> _queues w !! q = Some tq -> _queue tq = [] ->
  try_pop P q work_item_default w =
    (Ret (false, work_item_default), set_log (log w ++ [EvTryPop q false None]) w).
Proof.
  intros Hs Hq He. unfold try_pop, try_to_lock. unfold bind at 1.
  rewrite sync_eq, quiet_after_sync, quiet_mutex_free by done. simpl.
  unfold get_queue. unfold bind at 1. rewrite Hq. unfold queue_empty.
  rewrite He. reflexivity.
Qed.

Lemma quiet_try_pop_front (P : platform) (q : nat) (tq : task_queue)
    (front : work_item) (rest : list work_item) (c : callable) (w : world) :
  sched w = [] -> _queues w !! q = Some tq -> _queue tq = front :: rest ->
  held (heap w) front = Some c ->
  try_pop P q work_item_default w =
    (Ret (true, moved_into work_item_default front),
     set_queues (<[q := {| _queue := rest; _done := _done tq |}]> (_queues w))
       (set_log (log w ++ relocation front ++ [EvTryPop q true (Some c)]) w)).
Proof.
  intros Hs Hq Hf Hc. unfold try_pop, try_to_lock. unfold bind at 1.
  rewrite sync_eq, quiet_after_sync, quiet_mutex_free by done. simpl.
  unfold get_queue. unfold bind at 1. rewrite Hq. unfold queue_empty.
  rewrite Hf. unfold bind at 1.
  rewrite (take_front_ok q _ front rest tq) by (try done; by eapply held_movable).
  unfold_monad. simpl. rewrite held_moved_into_any by (by eapply held_movable).
  rewrite Hc. unfold set_queues, set_log. simpl. by rewrite <- !app_assoc.
Qed.

(** The stealing loop when every queue it looks at is empty. *)
Lemma steal_none (P : platform) (index n : Z) (idxs : list Z) (w : world) :
  sched w = [] -> 0 < n -> 0 <= index ->
  Forall (fun i => 0 <= i /\ index + i <= INT_MAX /\ i < INT_MAX) idxs ->
  Z.to_nat n = length (_queues w) ->
  (forall q tq, _queues w !! q = Some tq -> _queue tq = []) ->
  for_first idxs (run_attempt P index n) work_item_default w =
    (Ret (false, work_item_default),
     set_log (log w ++ failed_pops index n idxs) w).
Proof.
  intros Hs Hn Hidx Hall Hlen Hempty. revert w Hs Hlen Hempty.
  induction idxs as [|i idxs IH]; intros w Hs Hlen Hempty.
  - simpl. unfold ret. by rewrite app_nil_r, set_log_same.
  - apply Forall_cons in Hall as ((Hi0 & Hi1 & Hi2) & Hall).
    rewrite for_first_cons, run_attempt_eq by done.
    set (q := Z.to_nat ((index + i) mod n)).
    assert (Hq : (q < length (_queues w))%nat).
    { rewrite <- Hlen. unfold q.
      pose proof (Z.mod_pos_bound (index + i) n Hn). lia. }
    destruct (lookup_lt_is_Some_2 _ _ Hq) as [tq Htq].
    rewrite (quiet_try_pop_empty P q tq) by (try done; by eapply Hempty).
    rewrite (IH Hall) by done.
    unfold failed_pops. rewrite fmap_cons. fold q.
    unfold set_log. simpl. by rewrite <- app_assoc.
Qed.

(** The stealing loop when one queue holds payloads and the loop comes by
    it: the attempts before find nothing, the first attempt at that queue
    takes its front. *)
Lemma steal_finds (P : platform) (index n : Z) (idxs : list Z) (w : world)
    (q0 : nat) (tq0 : task_queue) (front : work_item) (rest : list work_item)
    (c : callable) :
  sched w = [] -> 0 < n -> 0 <= index ->
  Forall (fun i => 0 <= i /\ index + i <= INT_MAX /\ i < INT_MAX) idxs ->
  Z.to_nat n = length (_queues w) ->
  _queues w !! q0 = Some tq0 -> _queue tq0 = front :: rest ->
  (forall q tq, q <> q0 -> _queues w !! q = Some tq -> _queue tq = []) ->
  held (heap w) front = Some c ->
  (exists j, j ∈ idxs /\ Z.to_nat ((index + j) mod n) = q0) ->
  exists k,
    (k < length idxs)%nat
    /\ for_first idxs (run_attempt P index n) work_item_default w =
         (Ret (true, moved_into work_item_default front),
          set_queues (<[q0 := {| _queue := rest; _done := _done tq0 |}]> (_queues w))
            (set_log (log w ++ failed_pops index n (take k idxs)
                        ++ relocation front ++ [EvTryPop q0 true (Some c)]) w)).
Proof.
  intros Hs Hn Hidx Hall Hlen Hq0 Hfront Hothers Hc. revert w Hs Hlen Hq0 Hothers Hc.
  induction idxs as [|i idxs IH]; intros w Hs Hlen Hq0 Hothers Hc (j & Hj & Hjq).
  - by apply elem_of_nil in Hj.
  - apply Forall_cons in Hall as ((Hi0 & Hi1 & Hi2) & Hall).
    rewrite for_first_cons, run_attempt_eq by done.
    set (q := Z.to_nat ((index + i) mod n)).
    destruct (decide (q = q0)) as [->|Hne].
    + exists O. split; [simpl; lia|].
      by rewrite (quiet_try_pop_front P _ tq0 front rest c) by done.
    + assert (Hq : (q < length (_queues w))%nat).
      { rewrite <- Hlen. unfold q.
        pose proof (Z.mod_pos_bound (index + i) n Hn). lia. }
      destruct (lookup_lt_is_Some_2 _ _ Hq) as [tq Htq].
      rewrite (quiet_try_pop_empty P q tq) by (try done; by eapply Hothers).
      assert (Hj' : j ∈ idxs).
      { apply elem_of_cons in Hj as [->|Hj]; [|done]. by destruct Hne. }
      destruct (IH Hall (set_log (log w ++ [EvTryPop q false None]) w))
        as (k & Hk & Heq); try done.
      { by exists j. }
      exists (S k). split; [simpl; lia|].
      rewrite Heq. cbn [take]. unfold failed_pops. rewrite fmap_cons. fold q.
      unfold set_queues, set_log. simpl. by rewrite <- !app_assoc.
Qed.

Lemma destructor_eq (wi : work_item) (c : callable) (w : world) :
  held (heap w) wi = Some c ->
  work_item_destructor wi w =
    (Ret tt,
     set_log (log w ++ destruction (heap w) wi)
       (set_heap (heap_without (heap w) wi) w)).
Proof.
  intros Hc. unfold held, destruction, heap_without in *.
  destruct wi as [buf [| |p]]; simpl in *; try done.
  - subst buf. by rewrite destructor_embedded, set_heap_same.
  - destruct (heap w !! p) as [[[a c']|]|] eqn:Hp; try done.
    by erewrite destructor_heap by exact Hp.
Qed.

Lemma call_and_destroy_eq (f : work_item) (c : callable) (w : world) :
  held (heap w) f = Some c ->
  scope_exit (work_item_call f) (work_item_destructor f) w =
    (if call_throws (fn_ty c) then Stop Throw else Ret tt,
     set_log (log w ++ EvInvoke c :: destruction (heap w) f)
       (set_heap (heap_without (heap w) f) w)).
Proof.
  intros Hc. unfold scope_exit. rewrite (work_item_call_eq f c) by done.
  pose proof (destructor_eq f c (set_log (log w ++ [EvInvoke c]) w) Hc) as Hd.
  simpl in Hd. rewrite <- app_assoc in Hd. simpl in Hd.
  destruct (call_throws (fn_ty c)); by rewrite Hd.
Qed.

Lemma destruction_moved_into (h : gmap addr cell) (f : work_item) :
  destruction h (moved_into work_item_default f) = destruction h f.
Proof. unfold destruction, moved_into, is_embedded. by destruct f as [buf [| |p]]. Qed.

Lemma heap_without_moved_into (h : gmap addr cell) (f : work_item) :
  heap_without h (moved_into work_item_default f) = heap_without h f.
Proof. unfold heap_without, moved_into, is_embedded. by destruct f as [buf [| |p]]. Qed.

(** One turn of a worker when one queue holds payloads and nobody else
    is at work: the worker comes by that queue within its first [N]
    attempts, takes the front payload, runs it and destroys it. *)
Lemma turn_runs_front (P : platform) (index : Z) (w : world) (q0 : nat)
    (tq0 : task_queue) (front : work_item) (rest : list work_item) (c : callable) :
  let n := _num_threads w in
  sched w = [] -> 0 <= index < n -> n * rounds + index <= INT_MAX ->
  Z.to_nat n = length (_queues w) ->
  _queues w !! q0 = Some tq0 -> _queue tq0 = front :: rest ->
  (forall q tq, q <> q0 -> _queues w !! q = Some tq -> _queue tq = []) ->
  held (heap w) front = Some c ->
  exists k,
    Z.of_nat k < n * rounds
    /\ run_iteration P index w =
         (if call_throws (fn_ty c) then Stop Throw else Ret Continue,
          set_heap (heap_without (heap w) front)
            (set_queues (<[q0 := {| _queue := rest; _done := _done tq0 |}]> (_queues w))
               (set_log (log w ++ failed_pops index n (seqZ 0 (Z.of_nat k))
                           ++ relocation front
                           ++ [EvTryPop q0 true (Some c); EvInvoke c]
                           ++ destruction (heap w) front) w))).
Proof.
  intros n Hs Hidx Hmax Hlen Hq0 Hfront Hothers Hc.
  assert (Hn : 0 < n) by lia.
  assert (Hu : to_unsigned (n * rounds) = n * rounds).
  { unfold to_unsigned. apply Z.mod_small.
    unfold rounds, INT_MAX, UINT_MOD in *. lia. }
  assert (Hall : Forall (fun i => 0 <= i /\ index + i <= INT_MAX /\ i < INT_MAX)
                   (seqZ 0 (n * rounds))).
  { apply Forall_seqZ. intros i Hi. unfold rounds in *. lia. }
  assert (Hq0lt : (q0 < Z.to_nat n)%nat).
  { rewrite Hlen. by eapply lookup_lt_Some. }
  assert (Hj : exists j, j ∈ seqZ 0 (n * rounds) /\ Z.to_nat ((index + j) mod n) = q0).
  { exists ((Z.of_nat q0 - index) mod n).
    pose proof (Z.mod_pos_bound (Z.of_nat q0 - index) n Hn) as Hb.
    split.
    - apply elem_of_seqZ. unfold rounds. lia.
    - rewrite Zplus_mod_idemp_r.
      replace (index + (Z.of_nat q0 - index)) with (Z.of_nat q0) by lia.
      rewrite Z.mod_small by lia. lia. }
  destruct (steal_finds P index n (seqZ 0 (n * rounds)) w q0 tq0 front rest c
              Hs Hn (proj1 Hidx) Hall Hlen Hq0 Hfront Hothers Hc Hj)
    as (k & Hk & Heq).
  rewrite length_seqZ in Hk.
  rewrite take_seqZ in Heq by lia.
  exists k. split; [lia|].
  rewrite run_iteration_eq. fold n. rewrite Hu, Heq.
  assert (Hne : operator_bool (moved_into work_item_default front) = true).
  { apply movable_nonempty. eapply held_movable.
    rewrite held_moved_into_default. exact Hc. }
  rewrite Hne. cbn [negb].
  rewrite (call_and_destroy_eq _ c)
    by (simpl; by rewrite held_moved_into_default).
  simpl. rewrite destruction_moved_into, heap_without_moved_into.
  destruct (call_throws (fn_ty c)); unfold set_heap, set_queues, set_log; simpl;
    by rewrite <- !app_assoc.
Qed.

Lemma pop_done_empty (P : platform) (q : nat) (tq : task_queue) (f : work_item)
    (w : world) :
  sched w = [] -> _queues w !! q = Some tq -> _queue tq = [] -> _done tq = true ->
  pop P q f w = (Ret (false, f), set_log (log w ++ [EvPop q false None]) w).
Proof.
  intros Hs Hq He Hd. unfold pop. unfold bind at 1. rewrite lock_eq.
  rewrite quiet_after_sync by done.
  unfold bind at 1. unfold wait_while_empty. rewrite Hs.
  cbn [wait_ready]. rewrite Hq. unfold queue_empty. rewrite He, Hd.
  cbn [negb andb]. rewrite <- Hs, set_sched_same.
  unfold get_queue. unfold bind at 1. rewrite Hq, He. reflexivity.
Qed.

(** One turn of a worker when every queue is empty, its own is done and
    nobody else is at work: all its attempts fail, [pop] returns false and
    the loop is left. *)
Lemma turn_exits (P : platform) (index : Z) (w : world) (tq : task_queue) :
  let n := _num_threads w in
  sched w = [] -> 0 <= index < n -> n * rounds + index <= INT_MAX ->
  Z.to_nat n = length (_queues w) ->
  (forall q tq, _queues w !! q = Some tq -> _queue tq = []) ->
  _queues w !! Z.to_nat index = Some tq -> _done tq = true ->
  run_iteration P index w =
    (Ret Break,
     set_log (log w ++ failed_pops index n (seqZ 0 (n * rounds))
                ++ [EvPop (Z.to_nat index) false None]) w).
Proof.
  intros n Hs Hidx Hmax Hlen Hempty Hq Hd.
  assert (Hn : 0 < n) by lia.
  assert (Hu : to_unsigned (n * rounds) = n * rounds).
  { unfold to_unsigned. apply Z.mod_small.
    unfold rounds, INT_MAX, UINT_MOD in *. lia. }
  assert (Hall : Forall (fun i => 0 <= i /\ index + i <= INT_MAX /\ i < INT_MAX)
                   (seqZ 0 (n * rounds))).
  { apply Forall_seqZ. intros i Hi. unfold rounds in *. lia. }
  rewrite run_iteration_eq. fold n. rewrite Hu.
  rewrite steal_none by (try done; lia).
  change (operator_bool work_item_default) with false. cbv iota.
  rewrite (pop_done_empty P _ tq) by (try done; by eapply Hempty).
  cbn [negb]. rewrite destructor_empty by done.
  unfold set_log. simpl. by rewrite <- !app_assoc.
Qed.

Lemma schedule_uncontended (P : platform) (f : work_item) (w : world) (tq : task_queue) :
  let s := _next_thread w in
  let n := _num_threads w in
  let q0 := Z.to_nat (to_unsigned (s + 0) mod n) in
  sched w = [] -> 0 < n -> movable f = true ->
  _queues w !! q0 = Some tq ->
  schedule P f w =
    (Ret (moved_from f),
     set_queues (<[q0 := {| _queue := _queue tq ++ [moved_into work_item_default f];
                            _done := _done tq |}]> (_queues w))
       (set_log (log w ++ relocation f ++ [EvNotifyOne q0; EvTryPush q0 true])
          (set_next_thread (to_unsigned (s + 1)) w))).
Proof.
  intros s n q0 Hs Hn Hf Hq.
  unfold schedule. unfold bind at 1. rewrite fetch_increment_eq.
  unfold bind at 1. unfold get_num_threads. cbn [_num_threads set_next_thread].
  fold n s.
  replace (seqZ 0 n) with (0 :: seqZ 1 (n - 1))
    by (rewrite (seqZ_cons 0 n) by lia; f_equal; f_equal; lia).
  unfold bind at 1. rewrite for_first_cons.
  change (schedule_attempt P s n 0 f) with (try_push P q0 f).
  set (w0 := set_next_thread (to_unsigned (s + 1)) w).
  assert (Hs0 : sched w0 = []) by done.
  rewrite (try_push_free P q0 f tq w0)
    by (rewrite ?quiet_after_sync by done; try done; by apply quiet_mutex_free).
  rewrite quiet_after_sync by done. reflexivity.
Qed.

Lemma filter_failed_pops (p : event -> bool) (index n : Z) (idxs : list Z) :
  (forall q, p (EvTryPop q false None) = false) ->
  List.filter p (failed_pops index n idxs) = [].
Proof.
  intros Hp. apply filter_none. unfold failed_pops.
  apply Forall_fmap, Forall_forall. intros j _. apply Hp.
Qed.

Lemma invocation_relocation (wi : work_item) :
  List.filter is_invocation (relocation wi) = [].
Proof.
  unfold relocation. destruct (_target wi); try done. by destruct (_buffer wi).
Qed.

Lemma invocation_destruction (h : gmap addr cell) (wi : work_item) :
  List.filter is_invocation (destruction h wi) = [].
Proof.
  unfold destruction. destruct (_target wi) as [| |p]; try done.
  - by destruct (_buffer wi).
  - by destruct (h !! p) as [[n|]|].
Qed.

Lemma held_heap_without (h : gmap addr cell) (front wi : work_item) :
  (forall p, _target front = heap_ptr p -> _target wi <> heap_ptr p) ->
  held (heap_without h front) wi = held h wi.
Proof.
  intros Hne. unfold held, heap_without.
  destruct (_target front) as [| |p]; try done.
  destruct (_target wi) as [| |p'] eqn:Hwi; try done.
  rewrite lookup_delete_ne; [done|]. intros ->. by apply (Hne p').
Qed.

Lemma owned_cons (wi : work_item) (items : list work_item) :
  owned (wi :: items) =
    match _target wi with
    | heap_ptr p => p :: owned items
    | _ => owned items
    end.
Proof. unfold owned. simpl. by destruct (_target wi). Qed.

Lemma owned_elem (wi : work_item) (items : list work_item) (p : addr) :
  wi ∈ items -> _target wi = heap_ptr p -> p ∈ owned items.
Proof.
  intros Hin Hp. unfold owned. apply list_elem_of_omap.
  exists wi. by rewrite Hp.
Qed.

(** A worker whose queue is done, with nobody else at work, runs what is
    left in its queue, front to back, and then leaves its loop. *)
Lemma drain_own_queue (P : platform) (index : Z) (items : list work_item) :
  forall (cs : list callable) (w : world),
    let n := _num_threads w in
    sched w = [] -> 0 <= index < n -> n * rounds + index <= INT_MAX ->
    Z.to_nat n = length (_queues w) ->
    _queues w !! Z.to_nat index = Some {| _queue := items; _done := true |} ->
    (forall q tq, q <> Z.to_nat index -> _queues w !! q = Some tq -> _queue tq = []) ->
    Forall2 (fun wi c => held (heap w) wi = Some c) items cs ->
    NoDup (owned items) ->
    Forall (fun c => call_throws (fn_ty c) = false) cs ->
    exists evs w',
      run P (S (length items)) index w = (Ret Break, w')
      /\ log w' = log w ++ evs
      /\ List.filter is_invocation evs = EvInvoke <$> cs
      /\ heap w' = foldl heap_without (heap w) items
      /\ (forall q tq, _queues w' !! q = Some tq -> _queue tq = []).
Proof.
  induction items as [|front rest IH]; intros cs w n Hs Hidx Hmax Hlen Hown Hothers
    Hheld Hnodup Hcalls.
  - apply Forall2_nil_inv_l in Hheld as ->.
    assert (Hempty : forall q tq, _queues w !! q = Some tq -> _queue tq = []).
    { intros q tq Hq. destruct (decide (q = Z.to_nat index)) as [->|Hne].
      - rewrite Hown in Hq. by injection Hq as <-.
      - by eapply Hothers. }
    rewrite run_unfold.
    rewrite (turn_exits P index w _ Hs Hidx Hmax Hlen Hempty Hown eq_refl).
    eexists _, _. split; [reflexivity|]. split; [reflexivity|].
    split; [|done].
    rewrite List.filter_app, filter_failed_pops by done. done.
  - apply Forall2_cons_inv_l in Hheld as (c & cs' & Hc & Hheld & ->).
    apply Forall_cons in Hcalls as (Hcall & Hcalls).
    destruct (turn_runs_front P index w (Z.to_nat index) _ front rest c
                Hs Hidx Hmax Hlen Hown eq_refl Hothers Hc) as (k & Hk & Hturn).
    rewrite Hcall in Hturn. cbn [_done] in Hturn.
    rewrite run_unfold, Hturn.
    set (w1 := set_heap _ _).
    assert (Hq : (Z.to_nat index < length (_queues w))%nat) by (by eapply lookup_lt_Some).
    destruct (IH cs' w1) as (evs & w' & Hrun & Hlog & Hinv & Hheap & Hq').
    + done.
    + done.
    + done.
    + subst w1. simpl. by rewrite length_insert.
    + subst w1. simpl. by apply list_lookup_insert_eq.
    + intros q tq Hne Hlook. subst w1. simpl in Hlook.
      rewrite list_lookup_insert_ne in Hlook by done. by eapply Hothers.
    + subst w1. simpl.
      apply Forall2_same_length_lookup. split; [by eapply Forall2_length|].
      intros i wi ci Hwi Hci.
      rewrite held_heap_without.
      * exact (Forall2_lookup_lr _ _ _ _ _ _ Hheld Hwi Hci).
      * intros p Hp Hwp. rewrite owned_cons, Hp in Hnodup.
        apply NoDup_cons in Hnodup as (Hnotin & _). apply Hnotin.
        eapply owned_elem; [|exact Hwp]. by eapply list_elem_of_lookup_2.
    + rewrite owned_cons in Hnodup. destruct (_target front); try done.
      by apply NoDup_cons in Hnodup as (_ & ?).
    + done.
    + exists ((failed_pops index n (seqZ 0 (Z.of_nat k)) ++ relocation front
                ++ [EvTryPop (Z.to_nat index) true (Some c); EvInvoke c]
                ++ destruction (heap w) front) ++ evs), w'.
      split; [exact Hrun|]. split.
      { rewrite Hlog. subst w1. simpl. by rewrite <- !app_assoc. }
      split.
      { rewrite !List.filter_app, filter_failed_pops, invocation_relocation,
          invocation_destruction, Hinv by done. done. }
      split; [|done]. rewrite Hheap. by subst w1.
Qed.

Lemma emplace_cases (P : platform) (a : allocator) (c : callable) (w : world) :
  construct_throws (fn_ty c) = false ->
  exists f0 evs h1,
    emplace P a c w = (Ret f0, set_log (log w ++ evs) (set_heap h1 w))
    /\ held h1 f0 = Some c
    /\ heap_without h1 f0 = heap w
    /\ ((can_embed P c = true
         /\ f0 = {| _buffer := Some c; _target := buffer_ptr |}
         /\ evs = [EvConstruct c] /\ h1 = heap w)
        \/ (can_embed P c = false
            /\ f0 = {| _buffer := None; _target := heap_ptr (fresh (dom (heap w))) |}
            /\ evs = [EvAllocate a (fresh (dom (heap w))); EvConstruct c]
            /\ h1 = <[fresh (dom (heap w)) := Some (a, c)]> (heap w))).
Proof.
  intros Hc. destruct (can_embed P c) eqn:He.
  - eexists _, _, _. split; [|split; [|split; [|left; done]]].
    + rewrite emplace_embed_eq by done. by rewrite set_heap_same.
    + done.
    + done.
  - eexists _, _, _. split; [|split; [|split; [|right; done]]].
    + by rewrite emplace_alloc_eq by done.
    + unfold held. simpl. by rewrite lookup_insert_eq.
    + unfold heap_without. simpl. apply delete_insert_id, fresh_unallocated.
Qed.

(** A task that is submitted to an idle pool while nobody else is at
    work, followed by one turn of any worker's loop. *)
Lemma submit_then_turn (P : platform) (a : allocator) (f : functor) (index : Z)
    (w : world) :
  let n := _num_threads w in
  let c := fu_callable f in
  sched w = [] -> 0 <= index < n -> n * rounds + index <= INT_MAX ->
  Z.to_nat n = length (_queues w) ->
  (forall q tq, _queues w !! q = Some tq -> _queue tq = []) ->
  not_null f = true -> construct_throws (fn_ty c) = false ->
  exists f0 evs h1 q0 k w',
    emplace P a c w = (Ret f0, set_log (log w ++ evs) (set_heap h1 w))
    /\ (operator_call_alloc P a f ;; run_iteration P index) w =
         (if call_throws (fn_ty c) then Stop Throw else Ret Continue, w')
    /\ heap w' = heap w
    /\ _queues w' = _queues w
    /\ log w' = log w ++ evs ++ relocation f0 ++ [EvNotifyOne q0; EvTryPush q0 true]
                  ++ failed_pops index n (seqZ 0 (Z.of_nat k))
                  ++ relocation (moved_into work_item_default f0)
                  ++ [EvTryPop q0 true (Some c); EvInvoke c]
                  ++ destruction h1 f0.
Proof.
  intros n c Hs Hidx Hmax Hlen Hempty Hnull Hthrow.
  assert (Hn : 0 < n) by lia.
  destruct (emplace_cases P a c w Hthrow) as (f0 & evs & h1 & Hemp & Hheld & Hwo & _).
  set (w1 := set_log (log w ++ evs) (set_heap h1 w)) in *.
  set (q0 := Z.to_nat (to_unsigned (_next_thread w + 0) mod n)).
  assert (Hq0 : (q0 < length (_queues w))%nat).
  { rewrite <- Hlen. unfold q0.
    pose proof (Z.mod_pos_bound (to_unsigned (_next_thread w + 0)) n Hn). lia. }
  destruct (lookup_lt_is_Some_2 _ _ Hq0) as [tq Htq].
  pose proof (Hempty _ _ Htq) as Htqe.
  assert (Hmov : movable f0 = true) by (by eapply held_movable).
  assert (Hs1 : sched w1 = []) by exact Hs.
  pose proof (schedule_uncontended P f0 w1 tq Hs1 Hn Hmov Htq) as Hsch.
  cbv zeta in Hsch.
  change (_next_thread w1) with (_next_thread w) in Hsch.
  change (_num_threads w1) with n in Hsch. fold q0 in Hsch.
  rewrite Htqe in Hsch. cbn [app] in Hsch.
  set (w2 := set_queues _ _) in Hsch.
  set (item := moved_into work_item_default f0) in *.
  assert (Hitem : held (heap w2) item = Some c).
  { subst w2 item. simpl. by rewrite held_moved_into_default. }
  assert (Hothers : forall q tq', q <> q0 -> _queues w2 !! q = Some tq' -> _queue tq' = []).
  { intros q tq' Hne Hlook. subst w2. simpl in Hlook.
    rewrite list_lookup_insert_ne in Hlook by done. by eapply Hempty. }
  destruct (turn_runs_front P index w2 q0 {| _queue := [item]; _done := _done tq |}
              item [] c) as (k & Hk & Hturn); try done.
  { subst w2. simpl. by rewrite length_insert. }
  { subst w2. simpl. by apply list_lookup_insert_eq. }
  exists f0, evs, h1, q0, k. eexists. split; [exact Hemp|].
  split.
  { unfold bind. rewrite operator_call_alloc_eq, work_item_ctor_eq by done.
    fold c. rewrite Hemp, Hsch. rewrite destructor_empty by done.
    exact Hturn. }
  cbn [heap _queues log set_heap set_queues set_log _done].
  split.
  { subst w2 item. simpl. by rewrite heap_without_moved_into. }
  split.
  { subst w2. simpl. rewrite list_insert_insert_eq.
    apply list_insert_id. rewrite Htq. f_equal.
    destruct tq as [items d]. simpl in *. by subst items. }
  subst w2 item. simpl. rewrite destruction_moved_into.
  by rewrite <- !app_assoc.
Qed.

(** X3.  From submission to execution.  A callable is submitted to an idle
    pool while no other thread is at work, and then any one of the
    workers makes one turn of its loop.  The worker finds the payload,
    wherever the round-robin counter has put it, and invokes the callable
    exactly once; an exception of the callable leaves the loop.  When the
    turn is over, also by an exception, the queues are as they were
    before the submission and so is the heap: what was allocated has been
    deallocated, through the same allocator, and every copy of the
    callable that was constructed has been destroyed. *)
Theorem submitted_task_runs_once (P : platform) (a : allocator) (f : functor)
    (index : Z) (w : world) :
  let n := _num_threads w in
  let c := fu_callable f in
  let p := fresh (dom (heap w)) in
  sched w = [] -> 0 <= index < n -> n * rounds + index <= INT_MAX ->
  Z.to_nat n = length (_queues w) ->
  (forall q tq, _queues w !! q = Some tq -> _queue tq = []) ->
  not_null f = true -> construct_throws (fn_ty c) = false ->
  let r := (operator_call_alloc P a f ;; run_iteration P index) w in
  r.1 = (if call_throws (fn_ty c) then Stop Throw else Ret Continue)
  /\ heap r.2 = heap w
  /\ _queues r.2 = _queues w
  /\ List.filter is_invocation (new_events w r.2) = [EvInvoke c]
  /\ List.filter is_allocation (new_events w r.2) =
       (if can_embed P c then [] else [EvAllocate a p])
  /\ List.filter is_deallocation (new_events w r.2) =
       (if can_embed P c then [] else [EvDeallocate a p])
  /\ length (List.filter is_construction (new_events w r.2)) =
     length (List.filter is_destruction (new_events w r.2)).
Proof.
  intros n c p Hs Hidx Hmax Hlen Hempty Hnull Hthrow r. subst r.
  destruct (submit_then_turn P a f index w Hs Hidx Hmax Hlen Hempty Hnull Hthrow)
    as (f0 & evs & h1 & q0 & k & w' & Hemp & Hrun & Hheap & Hqs & Hlog).
  fold n c in Hemp, Hrun, Hlog.
  rewrite Hrun. cbn [fst snd].
  split; [done|]. split; [done|]. split; [done|].
  rewrite (new_events_app _ _ _ Hlog).
  destruct (emplace_cases P a c w Hthrow)
    as (f0' & evs' & h1' & Hemp' & _ & _ & Hcases).
  rewrite Hemp in Hemp'.
  assert (Hf0 : f0' = f0) by congruence.
  assert (Hevs : evs' = evs).
  { pose proof (f_equal (fun r => log r.2) Hemp') as Hl. simpl in Hl.
    by apply app_inv_head in Hl. }
  assert (Hh : h1' = h1).
  { pose proof (f_equal (fun r => heap r.2) Hemp') as Hl. done. }
  subst f0' evs' h1'. clear Hemp'.
  rewrite !List.filter_app, !filter_failed_pops by done.
  destruct Hcases as [(-> & -> & -> & ->)|(-> & -> & -> & ->)].
  - done.
  - unfold destruction, relocation. simpl. rewrite lookup_insert_eq. done.
Qed.

Lemma submitted_task_runs_once_witness :
  sched idle_world = []
  /\ 0 <= 1 < _num_threads idle_world
  /\ _num_threads idle_world * rounds + 1 <= INT_MAX
  /\ Z.to_nat (_num_threads idle_world) = length (_queues idle_world)
  /\ not_null (as_function_object large_fn) = true
  /\ construct_throws (fn_ty (fu_callable (as_function_object large_fn))) = false
  /\ List.filter is_invocation
       (new_events idle_world
          ((operator_call_alloc lp64 (user_allocator 3) (as_function_object large_fn) ;;
            run_iteration lp64 1) idle_world).2)
     = [EvInvoke large_fn].
Proof.
  assert (H0 : sched idle_world = []) by reflexivity.
  assert (H1 : 0 <= 1 < _num_threads idle_world) by (simpl; lia).
  assert (H2 : _num_threads idle_world * rounds + 1 <= INT_MAX)
    by (vm_compute; discriminate).
  assert (H3 : Z.to_nat (_num_threads idle_world) = length (_queues idle_world))
    by reflexivity.
  assert (H4 : forall q tq, _queues idle_world !! q = Some tq -> _queue tq = []).
  { intros [|[|q]] tq Hq; simpl in Hq; try done; by injection Hq as <-. }
  assert (H5 : not_null (as_function_object large_fn) = true) by reflexivity.
  assert (H6 : construct_throws (fn_ty (fu_callable (as_function_object large_fn)))
               = false) by reflexivity.
  split; [exact H0|]. split; [exact H1|]. split; [exact H2|].
  split; [exact H3|]. split; [exact H5|]. split; [exact H6|].
  exact (proj1 (proj2 (proj2 (proj2
           (submitted_task_runs_once lp64 (user_allocator 3)
              (as_function_object large_fn) 1 idle_world H0 H1 H2 H3 H4 H5 H6))))).
Defined.

(** X4.  Shutting down with work left.  A worker whose queue has been told
    that it is done, and still holds payloads, runs every one of them
    before it leaves its loop: with nobody else at work and no callable
    that throws, [run] makes one turn for each payload, in the order of
    the queue, invoking each callable exactly once and releasing its
    storage, and leaves the loop in the next turn, when its queue is
    empty. *)
Theorem shutdown_drains (P : platform) (index : Z) (items : list work_item)
    (cs : list callable) (w : world) :
  let n := _num_threads w in
  sched w = [] -> 0 <= index < n -> n * rounds + index <= INT_MAX ->
  Z.to_nat n = length (_queues w) ->
  _queues w !! Z.to_nat index = Some {| _queue := items; _done := true |} ->
  (forall q tq, q <> Z.to_nat index -> _queues w !! q = Some tq -> _queue tq = []) ->
  Forall2 (fun wi c => held (heap w) wi = Some c) items cs ->
  NoDup (owned items) ->
  Forall (fun c => call_throws (fn_ty c) = false) cs ->
  let r := run P (S (length items)) index w in
  r.1 = Ret Break
  /\ List.filter is_invocation (new_events w r.2) = EvInvoke <$> cs
  /\ heap r.2 = foldl heap_without (heap w) items
  /\ (forall q tq, _queues r.2 !! q = Some tq -> _queue tq = []).
Proof.
  intros n Hs Hidx Hmax Hlen Hown Hothers Hheld Hnodup Hcalls r. subst r.
  destruct (drain_own_queue P index items cs w Hs Hidx Hmax Hlen Hown Hothers
              Hheld Hnodup Hcalls) as (evs & w' & -> & Hlog & Hinv & Hheap & Hqs).
  cbn [fst snd]. split; [done|].
  by rewrite (new_events_app _ _ _ Hlog).
Qed.

Lemma shutdown_drains_witness :
  sched draining_world = []
  /\ 0 <= 0 < _num_threads draining_world
  /\ _num_threads draining_world * rounds + 0 <= INT_MAX
  /\ Z.to_nat (_num_threads draining_world) = length (_queues draining_world)
  /\ _queues draining_world !! Z.to_nat 0
     = Some {| _queue := [embedded_item]; _done := true |}
  /\ NoDup (owned [embedded_item])
  /\ (run lp64 2 0 draining_world).1 = Ret Break
  /\ List.filter is_invocation
       (new_events draining_world (run lp64 2 0 draining_world).2)
     = [EvInvoke small_fn].
Proof.
  assert (H0 : sched draining_world = []) by reflexivity.
  assert (H1 : 0 <= 0 < _num_threads draining_world) by (simpl; lia).
  assert (H2 : _num_threads draining_world * rounds + 0 <= INT_MAX)
    by (vm_compute; discriminate).
  assert (H3 : Z.to_nat (_num_threads draining_world)
               = length (_queues draining_world)) by reflexivity.
  assert (H4 : _queues draining_world !! Z.to_nat 0
               = Some {| _queue := [embedded_item]; _done := true |}) by reflexivity.
  assert (H5 : forall q tq, q <> Z.to_nat 0 -> _queues draining_world !! q = Some tq ->
                            _queue tq = []).
  { intros [|q] tq Hne Hq; [by destruct Hne|done]. }
  assert (H6 : Forall2 (fun wi c => held (heap draining_world) wi = Some c)
                 [embedded_item] [small_fn]).
  { by repeat constructor. }
  assert (H7 : NoDup (owned [embedded_item])) by apply NoDup_nil_2.
  assert (H8 : Forall (fun c => call_throws (fn_ty c) = false) [small_fn]).
  { by repeat constructor. }
  split; [exact H0|]. split; [exact H1|]. split; [exact H2|]. split; [exact H3|].
  split; [exact H4|]. split; [exact H7|].
  destruct (shutdown_drains lp64 0 [embedded_item] [small_fn] draining_world
              H0 H1 H2 H3 H4 H5 H6 H7 H8) as (Hr & Hinv & _).
  split; [exact Hr|exact Hinv].
Defined.

(** ** The queue after [done()] *)

(** X5.  [try_pop] never waits and does not look at the done flag.  It takes
    one look at the mutex.  If the mutex is taken, or the queue is empty,
    it returns false at once and leaves the queue and the caller's object
    alone; if the mutex is free and the queue holds a payload it moves the
    front payload into the caller's object and returns true -- also when
    [done()] has been called on the queue. *)
Theorem try_pop_ignores_done (P : platform) (q : nat) (f : work_item)
    (tq : task_queue) (w : world) :
  _queues (after_sync P w) !! q = Some tq ->
  operator_bool f = false ->
  queues_movable w = true ->
  let r := try_pop P q f w in
  sched r.2 = tail (sched w)
  /\ (mutex_free w = false \/ _queue tq = [] ->
        r.1 = Ret (false, f)
        /\ _queues r.2 = _queues (after_sync P w)
        /\ heap r.2 = heap (after_sync P w)
        /\ new_events w r.2 = [EvTryPop q false None])
  /\ (forall front rest,
        mutex_free w = true -> _queue tq = front :: rest ->
        r.1 = Ret (true, moved_into f front)
        /\ _queues r.2 =
             <[q := {| _queue := rest; _done := _done tq |}]> (_queues (after_sync P w))
        /\ held (heap r.2) (moved_into f front) = held (heap (after_sync P w)) front
        /\ new_events w r.2 =
             relocation front ++ [EvTryPop q true (held (heap (after_sync P w)) front)]).
Proof.
  intros Hq Hf Hmov%queues_movable_spec r. subst r.
  pose proof (after_sync_movable P w Hmov) as Hmov1.
  rewrite (try_pop_cases P q f tq) by done.
  split; [|split].
  - destruct (mutex_free w), (_queue tq); simpl; apply sched_after_sync.
  - intros Hcase.
    assert (Heq : match mutex_free w, _queue tq with
                  | true, front :: rest =>
                      (Ret (true, moved_into f front),
                       set_queues (<[q := {| _queue := rest; _done := _done tq |}]>
                                     (_queues (after_sync P w)))
                         (set_log (log w ++ relocation front
                                    ++ [EvTryPop q true (held (heap (after_sync P w)) front)])
                            (after_sync P w)))
                  | _, _ =>
                      (Ret (false, f),
                       set_log (log w ++ [EvTryPop q false None]) (after_sync P w))
                  end
                  = (Ret (false, f),
                     set_log (log w ++ [EvTryPop q false None]) (after_sync P w))).
    { destruct Hcase as [-> | ->]; [done|]. by destruct (mutex_free w). }
    rewrite Heq. simpl.
    by erewrite new_events_app by (simpl; reflexivity).
  - intros front rest Hm Hfr. rewrite Hm, Hfr. simpl.
    erewrite new_events_app by (simpl; reflexivity).
    split; [done|]. split; [done|]. split; [|done].
    apply held_moved_into_any.
    pose proof (movable_queues_lookup _ _ _ Hmov1 Hq) as Hall.
    rewrite Hfr in Hall. by inversion Hall.
Qed.

Lemma try_pop_ignores_done_witness :
  _queues (after_sync lp64 draining_world) !! 0%nat
  = Some {| _queue := [embedded_item]; _done := true |}
  /\ operator_bool work_item_default = false
  /\ queues_movable draining_world = true
  /\ mutex_free draining_world = true
  /\ (try_pop lp64 0 work_item_default draining_world).1
     = Ret (true, moved_into work_item_default embedded_item).
Proof.
  assert (H1 : _queues (after_sync lp64 draining_world) !! 0%nat
               = Some {| _queue := [embedded_item]; _done := true |}) by reflexivity.
  assert (H2 : operator_bool work_item_default = false) by reflexivity.
  assert (H3 : queues_movable draining_world = true) by reflexivity.
  assert (H4 : mutex_free draining_world = true) by reflexivity.
  split; [exact H1|]. split; [exact H2|]. split; [exact H3|]. split; [exact H4|].
  exact (proj1 (proj2 (proj2 (try_pop_ignores_done lp64 0 work_item_default _
                                draining_world H1 H2 H3)) embedded_item [] H4 eq_refl)).
Defined.

Lemma list_find_head {A} (p : A -> Prop) `{!forall x, Decision (p x)} (x : A)
    (l : list A) :
  p x -> list_find p (x :: l) = Some (O, x).
Proof. intros Hx. cbn [list_find]. by rewrite decide_True. Qed.

(** X6.  [pop] does not wait on a queue that is done.  Once the done flag is
    set, [pop] returns as soon as it has the mutex, whatever the other
    threads do: with the front payload and true while the queue holds
    payloads, with false when the queue is empty. *)
Theorem pop_after_done (P : platform) (q : nat) (f : work_item) (w : world) :
  done_set q w ->
  operator_bool f = false ->
  queues_movable w = true ->
  exists tq,
    _queues (after_sync P w) !! q = Some tq
    /\ _done tq = true
    /\ let r := pop P q f w in
       sched r.2 = tail (sched w)
       /\ match _queue tq with
          | [] =>
              r.1 = Ret (false, f)
              /\ _queues r.2 = _queues (after_sync P w)
              /\ new_events w r.2 = [EvPop q false None]
          | front :: rest =>
              r.1 = Ret (true, moved_into f front)
              /\ _queues r.2 =
                   <[q := {| _queue := rest; _done := true |}]> (_queues (after_sync P w))
              /\ new_events w r.2 =
                   relocation front ++ [EvPop q true (held (heap (after_sync P w)) front)]
          end.
Proof.
  intros Hdone Hf Hmov%queues_movable_spec.
  destruct (after_sync_done P w q Hdone) as (tq & Hq & Hd).
  exists tq. split; [done|]. split; [done|]. intros r. subst r.
  assert (Hready : ready q (after_sync P w) = true).
  { unfold ready. rewrite Hq, Hd. apply orb_true_r. }
  assert (Hfind : list_find (fun w1 => ready q w1 = true)
            (wake_ups P (sched (after_sync P w)) (after_sync P w))
            = Some (O, after_sync P w)).
  { destruct (sched (after_sync P w)); cbn [wake_ups]; by apply list_find_head. }
  rewrite (pop_woken P q f w (after_sync P w) O tq) by done.
  rewrite drop_0, set_sched_same.
  destruct (_queue tq) as [|front rest]; simpl.
  - split; [apply sched_after_sync|]. split; [done|]. split; [done|].
    by erewrite new_events_app by (simpl; reflexivity).
  - split; [apply sched_after_sync|]. split; [done|]. rewrite Hd. split; [done|].
    by erewrite new_events_app by (simpl; reflexivity).
Qed.

Lemma pop_after_done_witness :
  done_set 0 draining_world
  /\ operator_bool work_item_default = false
  /\ queues_movable draining_world = true
  /\ exists tq,
       _queues (after_sync lp64 draining_world) !! 0%nat = Some tq
       /\ _done tq = true.
Proof.
  assert (H1 : done_set 0 draining_world).
  { eexists. split; reflexivity. }
  assert (H2 : operator_bool work_item_default = false) by reflexivity.
  assert (H3 : queues_movable draining_world = true) by reflexivity.
  split; [exact H1|]. split; [exact H2|]. split; [exact H3|].
  destruct (pop_after_done lp64 0 work_item_default draining_world H1 H2 H3)
    as (tq & Hq & Hd & _).
  exists tq. split; [exact Hq|exact Hd].
Defined.

(** ** The destructor of the pool *)

Lemma done_eq (P : platform) (q : nat) (tq : task_queue) (w : world) :
  _queues (after_sync P w) !! q = Some tq ->
  done P q w =
    (Ret tt,
     set_log (log w ++ [EvNotifyAll q; EvDone q])
       (set_queues (<[q := {| _queue := _queue tq; _done := true |}]>
                      (_queues (after_sync P w)))
          (after_sync P w))).
Proof.
  intros Hq. unfold done, lock. unfold bind at 1. unfold bind at 1.
  rewrite sync_eq. unfold ret at 1. unfold get_queue. unfold bind at 1.
  rewrite Hq. unfold put_queue. unfold_monad. simpl. rewrite log_after_sync.
  unfold set_log. simpl. by rewrite <- app_assoc.
Qed.

Lemma keeps_done_done_each (P : platform) (qs : list nat) : keeps_done (done_each P qs).
Proof.
  induction qs as [|q qs IH]; simpl.
  - by intros q w H.
  - apply keeps_done_bind; [apply keeps_done_done|done].
Qed.

Lemma done_each_ok (P : platform) (qs : list nat) (w : world) :
  Forall (fun q => (q < length (_queues w))%nat) qs ->
  let r := done_each P qs w in
  r.1 = Ret tt
  /\ length (_queues r.2) = length (_queues w)
  /\ log r.2 = log w ++ flat_map (fun q => [EvNotifyAll q; EvDone q]) qs
  /\ (forall q, q ∈ qs -> done_set q r.2).
Proof.
  revert w. induction qs as [|q qs IH]; intros w Hall r; subst r.
  - simpl. split; [done|]. split; [done|]. split; [by rewrite app_nil_r|].
    intros q Hq. by apply elem_of_nil in Hq.
  - apply Forall_cons in Hall as (Hq & Hall).
    pose proof (done_sets P q w Hq) as Hset.
    assert (Hq' : (q < length (_queues (after_sync P w)))%nat)
      by (by rewrite after_sync_length).
    destruct (lookup_lt_is_Some_2 _ _ Hq') as [tq Htq].
    cbn [done_each]. unfold bind. rewrite (done_eq P q tq) in Hset |- * by done.
    set (w1 := set_log _ _) in *. cbn [snd] in Hset.
    assert (Hlen1 : length (_queues w1) = length (_queues w)).
    { subst w1. simpl. by rewrite length_insert, after_sync_length. }
    destruct (IH w1) as (Hr & Hlen & Hlog & Hsets).
    { eapply Forall_impl; [exact Hall|]. intros q0 Hq0. simpl in *. by rewrite Hlen1. }
    split; [done|]. split; [by rewrite Hlen|]. split.
    + rewrite Hlog. subst w1. simpl. by rewrite <- app_assoc.
    + intros q0 [->|Hin]%elem_of_cons; [|by apply Hsets].
      by apply keeps_done_done_each.
Qed.

(** X7.  The first loop of the destructor of the pool calls [done()] on every
    queue, in the order of the queues, which notifies all waiters of each.
    When the loop is over the done flag of every queue is set, whatever
    the other threads did meanwhile. *)
Theorem done_all_sets_every_flag (P : platform) (w : world) :
  let r := done_all P w in
  r.1 = Ret tt
  /\ length (_queues r.2) = length (_queues w)
  /\ (forall q, (q < length (_queues w))%nat -> done_set q r.2)
  /\ new_events w r.2 =
       flat_map (fun q => [EvNotifyAll q; EvDone q]) (seq 0 (length (_queues w))).
Proof.
  intros r. subst r. unfold done_all.
  destruct (done_each_ok P (seq 0 (length (_queues w))) w) as (Hr & Hlen & Hlog & Hsets).
  { apply Forall_forall. intros q Hq%elem_of_seq. lia. }
  split; [done|]. split; [done|]. split.
  - intros q Hq. apply Hsets, elem_of_seq. lia.
  - by apply new_events_app.
Qed.

(** ** The queue of the main thread *)

Lemma main_push_eq (mq : main_thread_task_queue) (g : work_item) (w : world) :
  movable g = true ->
  main_push mq g w =
    (Ret (mq ++ [moved_into work_item_default g], moved_from g),
     set_log (log w ++ relocation g) w).
Proof.
  intros Hg. unfold main_push, move_construct. unfold bind.
  by rewrite move_assign_ok by done.
Qed.

Lemma main_try_pop_eq (front : work_item) (rest : list work_item) (f : work_item)
    (w : world) :
  operator_bool f = false -> movable front = true ->
  main_try_pop (front :: rest) f w =
    (Ret (true, rest, moved_into f front), set_log (log w ++ relocation front) w).
Proof.
  intros Hf Hfront. unfold main_try_pop. unfold bind at 1.
  rewrite move_assign_ok by done. unfold bind at 1.
  by rewrite destructor_empty by done.
Qed.

(** X8.  The queue of the main thread is first in, first out.  [push] moves
    the payload to the back of the queue; [try_pop] on an empty queue
    returns false and leaves the caller's object alone; after a [push],
    [try_pop] returns true with the payload that has been in the queue
    longest, which is the one just pushed only if the queue was empty.
    The callable that a payload holds is the same before and after its
    passage, and nothing is allocated, freed or invoked on the way. *)
Theorem main_queue_fifo (mq : main_thread_task_queue) (g f : work_item) (w : world) :
  movable g = true -> operator_bool f = false ->
  Forall (fun wi => movable wi = true) mq ->
  let pushed := moved_into work_item_default g in
  let oldest := default pushed (head mq) in
  main_try_pop [] f w = (Ret (false, [], f), w)
  /\ main_push mq g w =
       (Ret (mq ++ [pushed], moved_from g), set_log (log w ++ relocation g) w)
  /\ (do (mq1, _) <- main_push mq g; main_try_pop mq1 f) w =
       (Ret (true, tail (mq ++ [pushed]), moved_into f oldest),
        set_log (log w ++ relocation g ++ relocation oldest) w)
  /\ held (heap w) (moved_into f oldest) = held (heap w) oldest
  /\ held (heap w) pushed = held (heap w) g.
Proof.
  intros Hg Hf Hmq pushed oldest.
  assert (Hpushed : movable pushed = true).
  { subst pushed. unfold movable, moved_into, is_embedded in *.
    by destruct g as [buf [| |p]]. }
  assert (Hold : movable oldest = true).
  { subst oldest. destruct mq as [|front rest]; [done|]. by inversion Hmq. }
  split; [reflexivity|]. split; [by apply main_push_eq|]. split; [|split].
  - unfold bind. rewrite main_push_eq by done. fold pushed.
    destruct mq as [|front rest]; cbn [app].
    + rewrite main_try_pop_eq by done. simpl. by rewrite <- app_assoc.
    + rewrite main_try_pop_eq by done. simpl. by rewrite <- app_assoc.
  - by apply held_moved_into_any.
  - apply held_moved_into_default.
Qed.

Lemma main_queue_fifo_witness :
  movable embedded_item = true
  /\ operator_bool work_item_default = false
  /\ (do (mq1, _) <- main_push [] embedded_item;
      main_try_pop mq1 work_item_default) empty_world
     = (Ret (true, [], embedded_item),
        set_log [EvConstruct small_fn; EvDestroy small_fn;
                 EvConstruct small_fn; EvDestroy small_fn] empty_world).
Proof.
  assert (H1 : movable embedded_item = true) by reflexivity.
  assert (H2 : operator_bool work_item_default = false) by reflexivity.
  split; [exact H1|]. split; [exact H2|].
  exact (proj1 (proj2 (proj2 (main_queue_fifo [] embedded_item work_item_default
                                empty_world H1 H2 (Forall_nil_2 _))))).
Defined.

(** X9.  The function that the main thread runs for each task that was
    scheduled.  On an empty queue it does nothing.  Otherwise it takes the
    payload that has been in the queue longest, invokes its callable
    exactly once and destroys it, giving back storage on the heap, also
    when the callable throws; the other payloads stay in the queue. *)
Theorem main_thread_callback_runs_one (front : work_item) (rest : list work_item)
    (c : callable) (w : world) :
  held (heap w) front = Some c ->
  main_thread_callback [] w = (Ret [], w)
  /\ (main_try_pop (front :: rest) work_item_default w).1
     = Ret (true, rest, moved_into work_item_default front)
  /\ main_thread_callback (front :: rest) w =
       (if call_throws (fn_ty c) then Stop Throw else Ret rest,
        set_log (log w ++ relocation front ++ EvInvoke c :: destruction (heap w) front)
          (set_heap (heap_without (heap w) front) w)).
Proof.
  intros Hc. pose proof (held_movable _ _ _ Hc) as Hmov.
  split; [reflexivity|]. split; [by rewrite main_try_pop_eq|].
  unfold main_thread_callback. unfold bind at 1.
  rewrite main_try_pop_eq by done. unfold bind.
  rewrite (call_and_destroy_eq _ c)
    by (simpl; by rewrite held_moved_into_default).
  simpl. rewrite destruction_moved_into, heap_without_moved_into.
  destruct (call_throws (fn_ty c)); unfold set_heap, set_log; simpl;
    by rewrite <- !app_assoc.
Qed.

Lemma main_thread_callback_runs_one_witness :
  held (heap empty_world) embedded_item = Some small_fn
  /\ main_thread_callback [embedded_item; embedded_item] empty_world
     = (Ret [embedded_item],
        set_log [EvConstruct small_fn; EvDestroy small_fn;
                 EvInvoke small_fn; EvDestroy small_fn] empty_world).
Proof.
  assert (H1 : held (heap empty_world) embedded_item = Some small_fn) by reflexivity.
  split; [exact H1|].
  exact (proj2 (proj2 (main_thread_callback_runs_one embedded_item [embedded_item]
                         small_fn empty_world H1))).
Defined.

Lemma destruction_held (h : gmap addr cell) (wi : work_item) (c : callable) :
  held h wi = Some c ->
  List.filter is_destruction (destruction h wi) = [EvDestroy c]
  /\ List.filter is_invocation (destruction h wi) = []
  /\ length (List.filter is_deallocation (destruction h wi)) = length (owned [wi]).
Proof.
  unfold held, destruction, owned. destruct wi as [buf [| |p]]; simpl; try done.
  - by intros ->.
  - destruct (h !! p) as [[[a c']|]|]; try done. by intros [= ->].
Qed.

Lemma destroy_deque_ok (items : list work_item) :
  forall (cs : list callable) (w : world),
    Forall2 (fun wi c => held (heap w) wi = Some c) items cs ->
    NoDup (owned items) ->
    exists evs w',
      destroy_deque items w = (Ret tt, w')
      /\ log w' = log w ++ evs
      /\ List.filter is_invocation evs = []
      /\ List.filter is_destruction evs = EvDestroy <$> cs
      /\ length (List.filter is_deallocation evs) = length (owned items)
      /\ heap w' = foldl heap_without (heap w) items
      /\ _queues w' = _queues w.
Proof.
  induction items as [|front rest IH]; intros cs w Hheld Hnodup.
  - apply Forall2_nil_inv_l in Hheld as ->.
    exists [], w. by rewrite app_nil_r.
  - apply Forall2_cons_inv_l in Hheld as (c & cs' & Hc & Hheld & ->).
    destruct (destruction_held _ _ _ Hc) as (Hd1 & Hd2 & Hd3).
    cbn [destroy_deque]. unfold bind. rewrite (destructor_eq front c) by done.
    set (w1 := set_log _ _).
    destruct (IH cs' w1) as (evs & w' & Hrun & Hlog & Hinv & Hdes & Hdea & Hheap & Hqs).
    + subst w1. simpl.
      apply Forall2_same_length_lookup. split; [by eapply Forall2_length|].
      intros i wi ci Hwi Hci.
      rewrite held_heap_without.
      * exact (Forall2_lookup_lr _ _ _ _ _ _ Hheld Hwi Hci).
      * intros p Hp Hwp. rewrite owned_cons, Hp in Hnodup.
        apply NoDup_cons in Hnodup as (Hnotin & _). apply Hnotin.
        eapply owned_elem; [|exact Hwp]. by eapply list_elem_of_lookup_2.
    + rewrite owned_cons in Hnodup. destruct (_target front); try done.
      by apply NoDup_cons in Hnodup as (_ & ?).
    + exists (destruction (heap w) front ++ evs), w'.
      split; [exact Hrun|]. split.
      { rewrite Hlog. subst w1. simpl. by rewrite <- app_assoc. }
      rewrite !List.filter_app, Hd1, Hd2, Hinv, Hdes, length_app, Hd3, Hdea.
      split; [done|]. split; [done|]. split.
      { rewrite (owned_cons front rest). unfold owned. simpl.
        by destruct (_target front). }
      split; [by rewrite Hheap|by rewrite Hqs].
Qed.

(** X10.  [clear()] empties the queue of the main thread without running
    anything: every pending payload is destroyed exactly once, the storage
    of every payload that lives on the heap is deallocated, no callable is
    invoked, and the queue is empty afterwards. *)
Theorem main_clear_destroys_pending (items : main_thread_task_queue)
    (cs : list callable) (w : world) :
  Forall2 (fun wi c => held (heap w) wi = Some c) items cs ->
  NoDup (owned items) ->
  let r := main_clear items w in
  r.1 = Ret []
  /\ List.filter is_invocation (new_events w r.2) = []
  /\ List.filter is_destruction (new_events w r.2) ≡ₚ EvDestroy <$> cs
  /\ length (List.filter is_deallocation (new_events w r.2)) = length (owned items)
  /\ heap r.2 = foldl heap_without (heap w) items.
Proof.
  intros Hheld Hnodup r. subst r. unfold main_clear. unfold bind.
  destruct (destroy_deque_ok items cs w Hheld Hnodup)
    as (evs & w' & -> & Hlog & Hinv & Hdes & Hdea & Hheap & _).
  cbn [fst snd ret]. rewrite (new_events_app _ _ _ Hlog).
  split; [done|]. split; [done|]. split; [by rewrite Hdes|]. done.
Qed.

Lemma main_clear_destroys_pending_witness :
  NoDup (owned [embedded_item; embedded_item])
  /\ (main_clear [embedded_item; embedded_item] empty_world).1 = Ret []
  /\ List.filter is_invocation
       (new_events empty_world
          (main_clear [embedded_item; embedded_item] empty_world).2) = [].
Proof.
  assert (H1 : Forall2 (fun wi c => held (heap empty_world) wi = Some c)
                 [embedded_item; embedded_item] [small_fn; small_fn]).
  { by repeat constructor. }
  assert (H2 : NoDup (owned [embedded_item; embedded_item])) by apply NoDup_nil_2.
  split; [exact H2|].
  destruct (main_clear_destroys_pending [embedded_item; embedded_item]
              [small_fn; small_fn] empty_world H1 H2) as (Hr & Hinv & _).
  split; [exact Hr|exact Hinv].
Defined.

(** ** More on the packager *)

(** X11.  Packaging is exception safe.  When the callable needs a node on the
    heap and its copy throws, the exception leaves
    [package_task_as_c_callback], no handle exists, and the storage that
    was allocated for the node has been deallocated through the same
    allocator: the heap is as before. *)
Theorem package_copy_throws (P : platform) (stack : list Byte.byte) (a : allocator)
    (f : callable) (w : world) :
  can_elide_alloc P f = false ->
  construct_throws (fn_ty f) = true ->
  let r := package_task_as_c_callback P stack a f w in
  r.1 = Stop Throw
  /\ heap r.2 = heap w
  /\ new_events w r.2 =
       [EvAllocate a (fresh (dom (heap w))); EvDeallocate a (fresh (dom (heap w)))].
Proof.
  intros He Hc r. subst r.
  unfold package_task_as_c_callback, package_impl_allocated. rewrite He.
  unfold bind. rewrite allocate_unique_throws by done. simpl.
  by erewrite new_events_app by (simpl; reflexivity).
Qed.

Lemma package_copy_throws_witness :
  can_elide_alloc lp64 throwing_fn = false
  /\ construct_throws (fn_ty throwing_fn) = true
  /\ (package_task_as_c_callback lp64 [] (user_allocator 5) throwing_fn empty_world).1
     = Stop Throw
  /\ heap (package_task_as_c_callback lp64 [] (user_allocator 5) throwing_fn
             empty_world).2 = heap empty_world.
Proof.
  assert (H1 : can_elide_alloc lp64 throwing_fn = false) by reflexivity.
  assert (H2 : construct_throws (fn_ty throwing_fn) = true) by reflexivity.
  split; [exact H1|]. split; [exact H2|].
  destruct (package_copy_throws lp64 [] (user_allocator 5) throwing_fn empty_world
              H1 H2) as (Hr & Hh & _).
  split; [exact Hr|exact Hh].
Defined.

(** X12.  A handle of the version without allocation owns nothing.  Its
    [release()] returns what [get()] returns and leaves the handle as it
    is, its destructor does nothing, and calling it invokes the callable
    and leaves the handle as it is: it can be called again, and each call
    invokes a callable with the bytes of the original. *)
Theorem elided_handle_owns_nothing (P : platform) (stack : list Byte.byte)
    (a : allocator) (f : callable) (w : world) :
  can_elide_alloc P f = true ->
  length (fn_repr f) = sizeof_fn (fn_ty f) ->
  exists h,
    package_task_as_c_callback P stack a f w = (Ret h, w)
    /\ c_callback_release h = (c_callback_get h, h)
    /\ (forall w', c_callback_destructor h w' = (Ret tt, w'))
    /\ (forall stack' w',
          c_callback_call P stack' h w' = (invoke f ;; ret h) w')
    /\ (forall stack1 stack2 w',
          call_throws (fn_ty f) = false ->
          (do h1 <- c_callback_call P stack1 h; c_callback_call P stack2 h1) w' =
            (Ret h, set_log (log w' ++ [EvInvoke f; EvInvoke f]) w')).
Proof.
  intros He Hlen.
  assert (Hsz : (sizeof_fn (fn_ty f) <= sizeof_ptr P)%nat).
  { unfold can_elide_alloc in He. apply andb_prop in He as (Hle & _).
    by apply Nat.leb_le. }
  eexists. split.
  { unfold package_task_as_c_callback. rewrite He. reflexivity. }
  split; [reflexivity|]. split; [reflexivity|].
  assert (Hcall : forall stack' w',
            c_callback_call P stack'
              {| _f := callback_elided (fn_ty f);
                 _data := owner_data_t
                   (take (sizeof_ptr P)
                      (memcpy (uninitialized stack (sizeof_converter P (fn_ty f)))
                         (fn_repr f) (sizeof_fn (fn_ty f)))) |} w'
            = (invoke f ;; ret
                 {| _f := callback_elided (fn_ty f);
                    _data := owner_data_t
                      (take (sizeof_ptr P)
                         (memcpy (uninitialized stack (sizeof_converter P (fn_ty f)))
                            (fn_repr f) (sizeof_fn (fn_ty f)))) |}) w').
  { intros stack' w'.
    destruct (elided_round_trip P stack stack' f Hsz Hlen) as (_ & _ & Hround).
    unfold c_callback_call, c_callback_release, call_function_pointer, call_elided.
    cbn [callback data _f _data owner_get owner_release fst snd].
    rewrite Hround. by destruct f. }
  split; [exact Hcall|].
  intros stack1 stack2 w' Hnothrow.
  unfold bind at 1. rewrite Hcall.
  unfold bind at 1. unfold invoke at 1. unfold_monad. rewrite Hnothrow.
  rewrite Hcall. unfold invoke. unfold_monad. rewrite Hnothrow. simpl.
  unfold set_log. simpl. by rewrite <- app_assoc.
Qed.

Lemma elided_handle_owns_nothing_witness :
  can_elide_alloc lp64 pointer_fn = true
  /\ length (fn_repr pointer_fn) = sizeof_fn (fn_ty pointer_fn)
  /\ exists h,
       package_task_as_c_callback lp64 [] std_allocator pointer_fn empty_world
       = (Ret h, empty_world)
       /\ c_callback_destructor h empty_world = (Ret tt, empty_world).
Proof.
  assert (H1 : can_elide_alloc lp64 pointer_fn = true) by reflexivity.
  assert (H2 : length (fn_repr pointer_fn) = sizeof_fn (fn_ty pointer_fn)) by reflexivity.
  split; [exact H1|]. split; [exact H2|].
  destruct (elided_handle_owns_nothing lp64 [] std_allocator pointer_fn empty_world
              H1 H2) as (h & Hp & _ & Hd & _).
  exists h. split; [exact Hp|exact (Hd empty_world)].
Defined.

(** X13.  What the documentation forbids is undefined.  For a handle of the
    allocating version: once the handle has been released or called, its
    data pointer is null, and calling it again passes that null pointer
    to the callback, which dereferences it.  And if the callback is run
    with the data of [get()] while the handle still owns the node, the
    destructor of the handle deletes the node a second time. *)
Theorem allocated_handle_misuse (P : platform) (stack : list Byte.byte) (a : allocator)
    (f : callable) (w : world) :
  can_elide_alloc P f = false ->
  construct_throws (fn_ty f) = false ->
  exists h w1,
    package_task_as_c_callback P stack a f w = (Ret h, w1)
    /\ data (c_callback_get (c_callback_release h).2) = ptr_null
    /\ (forall w', (c_callback_call P stack (c_callback_release h).2 w').1
                   = Stop Undefined)
    /\ (forall w', new_events w' (c_callback_call P stack (c_callback_release h).2 w').2
                   = [])
    /\ (live P stack GetInvokeDestroy h w1).1 = Stop Undefined.
Proof.
  intros He Hc. eexists _, _.
  split; [by apply package_allocated_eq|].
  split; [reflexivity|]. split; [reflexivity|].
  split.
  { intros w'. unfold new_events. simpl. apply drop_all. }
  set (p := fresh (dom (heap w))).
  set (w1 := set_log _ _).
  assert (Hp : heap w1 !! p = Some (Some (a, f))) by (simpl; apply lookup_insert_eq).
  cbn [live c_callback_destructor owner_destructor _data].
  unfold bind, catch, call_function_pointer, c_callback_get.
  cbn [callback data owner_get _data _f].
  rewrite (call_allocated_eq p a f w1 Hp).
  assert (Hdel : forall l,
            (allocator_deleter a (Some p)
               (set_log l (set_heap (delete p (heap w1)) w1))).1 = Stop Undefined).
  { intros l. unfold allocator_deleter, destroy_node, read_node. unfold_monad.
    simpl. by rewrite lookup_delete_eq. }
  destruct (call_throws (fn_ty f)); exact (Hdel _).
Qed.

Lemma allocated_handle_misuse_witness :
  can_elide_alloc lp64 large_fn = false
  /\ construct_throws (fn_ty large_fn) = false
  /\ exists h w1,
       package_task_as_c_callback lp64 [] (user_allocator 7) large_fn empty_world
       = (Ret h, w1)
       /\ (live lp64 [] GetInvokeDestroy h w1).1 = Stop Undefined.
Proof.
  assert (H1 : can_elide_alloc lp64 large_fn = false) by reflexivity.
  assert (H2 : construct_throws (fn_ty large_fn) = false) by reflexivity.
  split; [exact H1|]. split; [exact H2|].
  destruct (allocated_handle_misuse lp64 [] (user_allocator 7) large_fn empty_world
              H1 H2) as (h & w1 & Hp & _ & _ & _ & Hl).
  exists h, w1. split; [exact Hp|exact Hl].
Defined.

(** ** Thread counts and return values at the edges *)

(** X14.  [java_shared_native_pool(int num_threads)] hands its [int] to an
    [unsigned] parameter.  A count that is not negative gives a pool of
    [max(1, num_threads)] queues and threads, thread [i] made by the
    factory for index [i]: unlike [thread_pool], this constructor passes
    the count on.  A negative count is not clamped to one: converted to
    [unsigned] it is [2^32 + num_threads], the constructor runs exactly
    as for that count, which is more than the [int] counter of the loop
    of [start] can reach, and it does not return a pool. *)
Theorem java_pool_negative_count (P : platform) (factory : Z -> nat -> Z -> thread)
    (num_threads : Z) (w : world) :
  - INT_MAX - 1 <= num_threads <= INT_MAX ->
  let r := java_shared_native_pool_ctor P factory num_threads w in
  (0 <= num_threads ->
     r.1 = Ret tt
     /\ _num_threads r.2 = Z.max 1 num_threads
     /\ length (_queues r.2) = Z.to_nat (Z.max 1 num_threads)
     /\ _threads r.2 =
          (fun i => factory i (Z.to_nat i) i) <$> seqZ 0 (Z.max 1 num_threads))
  /\ (num_threads < 0 ->
      r = basic_thread_pool_ctor P factory (Some (UINT_MOD + num_threads)) w
      /\ INT_MAX < UINT_MOD + num_threads
      /\ r.1 <> Ret tt).
Proof.
  intros Hrange r. subst r. unfold java_shared_native_pool_ctor. split.
  - intros Hpos.
    assert (Hu : to_unsigned num_threads = num_threads).
    { unfold to_unsigned, UINT_MOD, INT_MAX in *. apply Z.mod_small. lia. }
    rewrite Hu.
    destruct (basic_thread_pool_counts P factory (Some num_threads) w)
      as (H1 & H2 & H3 & _ & H5).
    { change (default (hardware_concurrency P) (Some num_threads)) with num_threads.
      unfold INT_MAX in *. lia. }
    done.
  - intros Hneg.
    assert (Hu : to_unsigned num_threads = UINT_MOD + num_threads).
    { unfold to_unsigned, UINT_MOD, INT_MAX in *.
      replace num_threads with (2 ^ 32 + num_threads - 1 * 2 ^ 32) at 1 by lia.
      rewrite <- (Z.mod_add (2 ^ 32 + num_threads - 1 * 2 ^ 32) 1 (2 ^ 32)) by lia.
      rewrite Z.mod_small by lia. lia. }
    rewrite Hu.
    assert (Hbig : INT_MAX < UINT_MOD + num_threads)
      by (unfold UINT_MOD, INT_MAX in *; lia).
    split; [done|]. split; [done|].
    rewrite (basic_thread_pool_ctor_overflow P factory
               (Some (UINT_MOD + num_threads)) w); [done|].
    change (default (hardware_concurrency P) (Some (UINT_MOD + num_threads)))
      with (UINT_MOD + num_threads).
    lia.
Qed.

Lemma java_pool_negative_count_witness :
  - INT_MAX - 1 <= -1 <= INT_MAX
  /\ (java_shared_native_pool_ctor lp64 make_thread (-1) empty_world).1 <> Ret tt.
Proof.
  assert (H1 : - INT_MAX - 1 <= -1 <= INT_MAX) by (unfold INT_MAX; lia).
  assert (H2 : -1 < 0) by lia.
  split; [exact H1|].
  exact (proj2 (proj2 (proj2
           (java_pool_negative_count lp64 make_thread (-1) empty_world H1) H2))).
Defined.

(** X15.  [android_main_looper::post()] compares what [write] returns with
    [sizeof(byte)] in [size_t].  It throws only when [write] returns zero;
    a [write] that fails returns -1, which as a [size_t] is the largest
    value, so the failure goes unnoticed and [post()] returns as after a
    byte that was written. *)
Theorem post_misses_failed_write (P : platform) (written : Z) (w : world) :
  (0 < sizeof_ptr P)%nat ->
  -1 <= written <= 1 ->
  ((post P written w).1 = Stop Throw <-> written = 0)
  /\ post P (-1) w = (Ret tt, w)
  /\ post P 1 w = (Ret tt, w).
Proof.
  intros Hptr Hrange.
  assert (Hbig : 2 <= 2 ^ (8 * Z.of_nat (sizeof_ptr P))).
  { change 2 with (2 ^ 1) at 1. apply Z.pow_le_mono_r; lia. }
  assert (Hminus : to_size_t P (-1) = 2 ^ (8 * Z.of_nat (sizeof_ptr P)) - 1).
  { unfold to_size_t.
    rewrite <- (Z.mod_add (-1) 1) by lia.
    rewrite Z.mod_small by lia. lia. }
  assert (Hone : to_size_t P 1 = 1).
  { unfold to_size_t. apply Z.mod_small. lia. }
  assert (Hzero : to_size_t P 0 = 0) by (unfold to_size_t; apply Z.mod_0_l; lia).
  assert (H1 : post P (-1) w = (Ret tt, w)).
  { unfold post. rewrite Hminus.
    destruct (_ <? 1) eqn:E; [apply Z.ltb_lt in E; lia|done]. }
  assert (H2 : post P 1 w = (Ret tt, w)).
  { unfold post. by rewrite Hone. }
  split; [|done].
  assert (Hcases : written = -1 \/ written = 0 \/ written = 1) by lia.
  destruct Hcases as [-> | [-> | ->]].
  - rewrite H1. split; [done|lia].
  - unfold post. rewrite Hzero. simpl. done.
  - rewrite H2. split; [done|lia].
Qed.

Lemma post_misses_failed_write_witness :
  (0 < sizeof_ptr lp64)%nat
  /\ -1 <= -1 <= 1
  /\ post lp64 (-1) empty_world = (Ret tt, empty_world).
Proof.
  assert (H1 : (0 < sizeof_ptr lp64)%nat) by (simpl; lia).
  assert (H2 : -1 <= -1 <= 1) by lia.
  split; [exact H1|]. split; [exact H2|].
  exact (proj1 (proj2 (post_misses_failed_write lp64 (-1) empty_world H1 H2))).
Defined.

(** ** The schedulers of the system *)

(** X16.  A task that is scheduled through a C interface, and the one call of
    the callback that the system makes later.  Scheduling leaves the
    handle released, so that its destructor frees nothing; the call of
    the callback invokes the callable exactly once and, if a node was
    allocated for it, destroys and deallocates the node, also when the
    callable throws.  After the call the heap is as it was before the
    task was scheduled.  A callable that fits into the data pointer goes
    through without any allocation. *)
Theorem system_scheduler_runs_once (P : platform) (stack stack' : list Byte.byte)
    (a : allocator) (f : callable) (w : world) :
  construct_throws (fn_ty f) = false ->
  length (fn_repr f) = sizeof_fn (fn_ty f) ->
  let p := fresh (dom (heap w)) in
  let s := system_schedule P stack a f w in
  let r := (do d <- system_schedule P stack a f; call_function_pointer P stack' d) w in
  (exists d, s.1 = Ret d)
  /\ heap s.2 = (if can_elide_alloc P f then heap w else <[p := Some (a, f)]> (heap w))
  /\ List.filter is_deallocation (new_events w s.2) = []
  /\ r.1 = (if call_throws (fn_ty f) then Stop Throw else Ret tt)
  /\ heap r.2 = heap w
  /\ List.filter is_invocation (new_events w r.2) = [EvInvoke f]
  /\ List.filter is_allocation (new_events w r.2) =
       (if can_elide_alloc P f then [] else [EvAllocate a p])
  /\ List.filter is_deallocation (new_events w r.2) =
       (if can_elide_alloc P f then [] else [EvDeallocate a p]).
Proof.
  intros Hc Hlen p s r. subst s r.
  destruct (can_elide_alloc P f) eqn:He.
  - assert (Hsz : (sizeof_fn (fn_ty f) <= sizeof_ptr P)%nat).
    { unfold can_elide_alloc in He. apply andb_prop in He as (Hle & _).
      by apply Nat.leb_le. }
    destruct (elided_round_trip P stack stack' f Hsz Hlen) as (_ & _ & Hround).
    assert (Hs : system_schedule P stack a f w =
              (Ret {| callback := callback_elided (fn_ty f);
                      data := ptr_bits
                        (take (sizeof_ptr P)
                           (memcpy (uninitialized stack (sizeof_converter P (fn_ty f)))
                              (fn_repr f) (sizeof_fn (fn_ty f)))) |}, w)).
    { unfold system_schedule, package_task_as_c_callback. rewrite He. reflexivity. }
    unfold bind. rewrite Hs. cbn [fst snd].
    unfold call_function_pointer, call_elided. cbn [callback data].
    rewrite Hround.
    replace {| fn_ty := fn_ty f; fn_repr := fn_repr f |} with f by (by destruct f).
    unfold invoke. unfold_monad.
    split; [by eexists|]. split; [done|].
    split; [unfold new_events; by rewrite drop_all|].
    destruct (call_throws (fn_ty f)); simpl;
      by erewrite new_events_app by (simpl; reflexivity).
  - assert (Hs : system_schedule P stack a f w =
              (Ret {| callback := callback_allocated; data := ptr_node p |},
               set_log (log w ++ [EvAllocate a p; EvConstruct f])
                 (set_heap (<[p := Some (a, f)]> (heap w)) w))).
    { unfold system_schedule. unfold bind at 1.
      by rewrite package_allocated_eq by done. }
    unfold bind. rewrite Hs. cbn [fst snd].
    set (w1 := set_log _ _).
    assert (Hp : heap w1 !! p = Some (Some (a, f))) by (simpl; apply lookup_insert_eq).
    unfold call_function_pointer. cbn [callback data].
    rewrite (call_allocated_eq p a f w1 Hp).
    split; [by eexists|]. split; [done|].
    split; [by erewrite new_events_app by (simpl; reflexivity)|].
    assert (Hh : delete p (<[p := Some (a, f)]> (heap w)) = heap w).
    { apply delete_insert_id, fresh_unallocated. }
    destruct (call_throws (fn_ty f)); simpl; rewrite Hh;
      (erewrite new_events_app
         by (simpl; rewrite <- app_assoc; reflexivity)); done.
Qed.

Lemma system_scheduler_runs_once_witness :
  construct_throws (fn_ty large_fn) = false
  /\ length (fn_repr large_fn) = sizeof_fn (fn_ty large_fn)
  /\ heap ((do d <- system_schedule lp64 [] (user_allocator 7) large_fn;
            call_function_pointer lp64 [] d) empty_world).2 = heap empty_world
  /\ List.filter is_invocation
       (new_events empty_world
          ((do d <- system_schedule lp64 [] (user_allocator 7) large_fn;
            call_function_pointer lp64 [] d) empty_world).2)
     = [EvInvoke large_fn].
Proof.
  assert (H1 : construct_throws (fn_ty large_fn) = false) by reflexivity.
  assert (H2 : length (fn_repr large_fn) = sizeof_fn (fn_ty large_fn)) by reflexivity.
  split; [exact H1|]. split; [exact H2|].
  destruct (system_scheduler_runs_once lp64 [] [] (user_allocator 7) large_fn
              empty_world H1 H2) as (_ & _ & _ & _ & Hh & Hi & _).
  split; [exact Hh|exact Hi].
Defined.

(** ** The executor on the Java side *)

Lemma executor_calls_destroyed (cs : list executor_call) (e : executor) :
  destroyed e = true ->
  executor_calls cs e = ([], e).
Proof.
  intros Hd. induction cs as [|c cs IH]; [done|].
  cbn [executor_calls].
  assert (Hstep : executor_step e c = ([], e)).
  { destruct e as [ref d]. simpl in Hd. subst d. by destruct c. }
  by rewrite Hstep, IH.
Qed.

(** X17.  The native pool is shut down once.  However often, and in whatever
    order, [shutdown()] is called and the garbage collector runs
    [finalize()], [nativeShutdown] -- which deletes the native handle --
    is called by the first of these calls only, with the address the
    object was constructed with, which is not zero: the constructor
    refuses an address of zero. *)
Theorem executor_shuts_down_once (ref : Z) (e : executor) (c : executor_call)
    (cs : list executor_call) :
  executor_new ref = Some e ->
  executor_new 0 = None
  /\ ref <> 0
  /\ (executor_calls (c :: cs) e).1 = [ref]
  /\ destroyed (executor_calls (c :: cs) e).2 = true
  /\ (executor_step e c).1 = [ref].
Proof.
  unfold executor_new. destruct (ref =? 0) eqn:E; [done|].
  intros [= <-]. apply Z.eqb_neq in E.
  split; [done|]. split; [done|].
  cbn [executor_calls].
  assert (Hstep : executor_step {| nativeRef := ref; destroyed := false |} c
                  = ([ref], {| nativeRef := ref; destroyed := true |})).
  { by destruct c. }
  rewrite Hstep, executor_calls_destroyed by done. done.
Qed.

Lemma executor_shuts_down_once_witness :
  executor_new 42 = Some {| nativeRef := 42; destroyed := false |}
  /\ (executor_calls [CallShutdown; CallShutdown; CallFinalize]
        {| nativeRef := 42; destroyed := false |}).1 = [42].
Proof.
  assert (H1 : executor_new 42 = Some {| nativeRef := 42; destroyed := false |})
    by reflexivity.
  split; [exact H1|].
  exact (proj1 (proj2 (proj2 (executor_shuts_down_once 42 _ CallShutdown
                                [CallShutdown; CallFinalize] H1)))).
Defined.

(** ** A new pool *)



(** ** The Java runnable *)

Lemma new_ref_deleted (g : global_refs) :
  DeleteGlobalRef (fresh g) ({[fresh g]} ∪ g) = Some g.
Proof.
  unfold DeleteGlobalRef.
  rewrite decide_True by (apply elem_of_union_l, elem_of_singleton_2; reflexivity).
  f_equal. pose proof (is_fresh g) as Hfresh.
  apply set_eq. intros x.
  rewrite elem_of_difference, elem_of_union, elem_of_singleton.
  split; [by intros [[->|Hx] Hne]|].
  intros Hx. split; [by right|]. by intros ->.
Qed.

Lemma runnable_task_relocate_eq (k : nat) (f : runnable_task) (g : global_refs) :
  runnable_task_relocate k f g = Some (f, g).
Proof.
  revert f g. induction k as [|k IH]; intros f g; [done|].
  cbn [runnable_task_relocate runnable_task_move runnable_task_destructor _runnable].
  rewrite IH. by destruct f.
Qed.

(** X19.  The wrapper of a Java runnable holds one global reference and gives
    it up once.  Constructing it makes a new reference.  Moving it hands
    the reference over: the object moved from deletes nothing when it is
    destroyed and fails the assertion when it is called.  However often
    the task is moved on its way through the pool, the object that arrives
    calls the runnable through the reference made at the start, and its
    destructor deletes that reference, after which the references alive
    are those alive before.  A copy has a reference of its own, which its
    own destructor deletes. *)
Theorem runnable_task_balanced (g : global_refs) (k : nat) :
  let made := runnable_task_new g in
  let h := fresh g in
  made = ({| _runnable := Some h |}, {[h]} ∪ g)
  /\ (h ∉ g)
  /\ runnable_task_destructor (runnable_task_move made.1).2 made.2 = Some made.2
  /\ runnable_task_call (runnable_task_move made.1).2 = inl "lost runnable reference"%string
  /\ (exists arrived,
        runnable_task_relocate k made.1 made.2 = Some (arrived, made.2)
        /\ runnable_task_call arrived = inr h
        /\ runnable_task_destructor arrived made.2 = Some g)
  /\ (let copied := runnable_task_copy made.1 made.2 in
      _runnable copied.1 <> _runnable made.1
      /\ runnable_task_destructor copied.1 copied.2 = Some made.2
      /\ runnable_task_destructor made.1 made.2 = Some g).
Proof.
  intros made h. subst made h. unfold runnable_task_new, NewGlobalRef.
  cbn [fst snd].
  split; [done|]. split; [apply is_fresh|]. split; [done|]. split; [done|].
  split.
  - eexists. split; [apply runnable_task_relocate_eq|].
    split; [done|]. apply new_ref_deleted.
  - unfold runnable_task_copy, NewGlobalRef. cbn [_runnable fst snd].
    split.
    + intros [= Heq]. pose proof (is_fresh ({[fresh g]} ∪ g)) as Hf.
      rewrite Heq in Hf. set_solver.
    + split; [apply new_ref_deleted|apply new_ref_deleted].
Qed.

(** ** Round robin *)

Lemma submit_uncontended (P : platform) (a : allocator) (f : functor) (w : world)
    (tq : task_queue) :
  let s := _next_thread w in
  let n := _num_threads w in
  let q0 := Z.to_nat (s mod n) in
  sched w = [] -> 0 < n -> 0 <= s < UINT_MOD ->
  not_null f = true -> construct_throws (fn_ty (fu_callable f)) = false ->
  _queues w !! q0 = Some tq ->
  exists item w',
    operator_call_alloc P a f w = (Ret tt, w')
    /\ sched w' = []
    /\ _num_threads w' = n
    /\ _next_thread w' = to_unsigned (s + 1)
    /\ _queues w' =
         <[q0 := {| _queue := _queue tq ++ [item]; _done := _done tq |}]> (_queues w)
    /\ held (heap w') item = Some (fu_callable f)
    /\ heap_extends (heap w) (heap w').
Proof.
  intros s n q0 Hs Hn Hrange Hnull Hthrow Htq.
  destruct (emplace_cases P a (fu_callable f) w Hthrow)
    as (f0 & evs & h1 & Hemp & Hheld & _ & _).
  pose proof (emplace_heap P a (fu_callable f) w) as [Hext _].
  rewrite Hemp in Hext. cbn [snd heap set_log set_heap] in Hext.
  set (w1 := set_log (log w ++ evs) (set_heap h1 w)) in *.
  assert (Hmov : movable f0 = true) by (by eapply held_movable).
  assert (Hs1 : sched w1 = []) by exact Hs.
  assert (Hq0 : Z.to_nat (to_unsigned (_next_thread w1 + 0) mod _num_threads w1) = q0).
  { subst q0 s n. simpl. unfold to_unsigned.
    by rewrite Z.add_0_r, (Z.mod_small (_next_thread w) UINT_MOD) by done. }
  pose proof (schedule_uncontended P f0 w1 tq Hs1 Hn Hmov) as Hsch.
  cbv zeta in Hsch. rewrite Hq0 in Hsch. specialize (Hsch Htq).
  eexists _, _. split.
  { rewrite operator_call_alloc_eq, work_item_ctor_eq by done.
    rewrite Hemp, Hsch. by rewrite destructor_empty. }
  simpl. split; [done|]. split; [done|]. split; [done|]. split; [done|].
  split; [by rewrite held_moved_into_default|done].
Qed.

Lemma turns_at_0 (s n : Z) (q : nat) : turns_at s n 0 q = O.
Proof. reflexivity. Qed.

Lemma turns_at_S (s n : Z) (m : nat) (q : nat) :
  turns_at s n (S m) q =
    ((if Nat.eqb (Z.to_nat (s mod n)) q then 1 else 0) + turns_at (s + 1) n m q)%nat.
Proof.
  unfold turns_at.
  rewrite (seqZ_cons 0 (Z.of_nat (S m))) by lia.
  replace (Z.pred (Z.of_nat (S m))) with (Z.of_nat m) by lia.
  change (Z.succ 0) with (1 + 0). rewrite <- fmap_add_seqZ.
  cbn [List.filter]. rewrite Z.add_0_r.
  assert (Hshift : forall l,
            length (List.filter (fun k => Nat.eqb (Z.to_nat ((s + k) mod n)) q)
                      (Z.add 1 <$> l))
            = length (List.filter (fun k => Nat.eqb (Z.to_nat ((s + 1 + k) mod n)) q) l)).
  { induction l as [|k l IH]; [done|]. rewrite fmap_cons. cbn [List.filter].
    replace (s + (1 + k)) with (s + 1 + k) by lia.
    destruct (Nat.eqb _ q); simpl; by rewrite IH. }
  destruct (Nat.eqb (Z.to_nat (s mod n)) q); simpl; by rewrite Hshift.
Qed.

Lemma filter_single (p : Z -> bool) (n k0 : Z) :
  0 <= k0 < n -> p k0 = true ->
  (forall k, 0 <= k < n -> k <> k0 -> p k = false) ->
  List.filter p (seqZ 0 n) = [k0].
Proof.
  intros Hk0 Hp Hother.
  replace n with (k0 + (1 + (n - k0 - 1))) by lia.
  rewrite seqZ_app, (seqZ_app (0 + k0) 1) by lia.
  rewrite !List.filter_app.
  rewrite (filter_none p (seqZ 0 k0)).
  2:{ apply Forall_seqZ. intros k Hk. apply Hother; lia. }
  rewrite (filter_none p (seqZ (0 + k0 + 1) _)).
  2:{ apply Forall_seqZ. intros k Hk. apply Hother; lia. }
  rewrite (seqZ_cons (0 + k0) 1) by lia. simpl.
  rewrite Z.add_0_l in *. by rewrite Hp.
Qed.

(** In [N] numbers in a row every remainder modulo [N] comes up once. *)
Lemma turns_at_full_round (s n : Z) (q : nat) :
  0 < n -> (q < Z.to_nat n)%nat -> turns_at s n (Z.to_nat n) q = 1%nat.
Proof.
  intros Hn Hq. unfold turns_at. rewrite Z2Nat.id by lia.
  set (k0 := (Z.of_nat q - s) mod n).
  pose proof (Z.mod_pos_bound (Z.of_nat q - s) n Hn) as Hk0. fold k0 in Hk0.
  assert (Hhit : (s + k0) mod n = Z.of_nat q).
  { subst k0. rewrite Zplus_mod_idemp_r.
    replace (s + (Z.of_nat q - s)) with (Z.of_nat q) by lia.
    apply Z.mod_small. lia. }
  rewrite (filter_single _ n k0); [done|done| |].
  - apply Nat.eqb_eq. rewrite Hhit. lia.
  - intros k Hk Hne. apply Nat.eqb_neq. intros Heq.
    assert (Hmod : (s + k) mod n = (s + k0) mod n).
    { rewrite Hhit. pose proof (Z.mod_pos_bound (s + k) n Hn). lia. }
    assert (Hdiff : (k - k0) mod n = 0).
    { replace (k - k0) with ((s + k) - (s + k0)) by lia.
      rewrite Zminus_mod, Hmod, Z.sub_diag. apply Z.mod_0_l. lia. }
    apply Z.mod_divide in Hdiff; [|lia].
    destruct Hdiff as [c Hc].
    assert (c = 0) by nia. lia.
Qed.

Lemma submit_each_uncontended (P : platform) (a : allocator) (fs : list functor) :
  forall (w : world),
    let s := _next_thread w in
    let n := _num_threads w in
    sched w = [] -> 0 < n -> Z.to_nat n = length (_queues w) ->
    0 <= s -> s + Z.of_nat (length fs) < UINT_MOD ->
    Forall (fun f => not_null f = true
                     /\ construct_throws (fn_ty (fu_callable f)) = false) fs ->
    exists w',
      submit_each P a fs w = (Ret tt, w')
      /\ _next_thread w' = s + Z.of_nat (length fs)
      /\ length (_queues w') = length (_queues w)
      /\ heap_extends (heap w) (heap w')
      /\ (forall q tq,
            _queues w !! q = Some tq ->
            exists tq' added,
              _queues w' !! q = Some tq'
              /\ _done tq' = _done tq
              /\ _queue tq' = _queue tq ++ added
              /\ length added = turns_at s n (length fs) q)
      /\ (forall k f,
            fs !! k = Some f ->
            exists tq tq' item,
              _queues w !! Z.to_nat ((s + Z.of_nat k) mod n) = Some tq
              /\ _queues w' !! Z.to_nat ((s + Z.of_nat k) mod n) = Some tq'
              /\ _queue tq' !! (length (_queue tq)
                                 + turns_at s n k (Z.to_nat ((s + Z.of_nat k) mod n)))%nat
                 = Some item
              /\ held (heap w') item = Some (fu_callable f)).
Proof.
  induction fs as [|f fs IH]; intros w s n Hs Hn Hlen Hs0 Hwrap Hall.
  - exists w. split; [done|]. split; [simpl; lia|]. split; [done|].
    split; [apply heap_extends_refl|]. split.
    + intros q tq Hq. exists tq, []. split; [done|]. split; [done|].
      split; [by rewrite app_nil_r|done].
    + intros k f Hk. by rewrite lookup_nil in Hk.
  - apply Forall_cons in Hall as ((Hnull & Hthrow) & Hall).
    cbn [length] in Hwrap.
    set (q0 := Z.to_nat (s mod n)).
    assert (Hq0 : (q0 < length (_queues w))%nat).
    { rewrite <- Hlen. unfold q0. pose proof (Z.mod_pos_bound s n Hn). lia. }
    destruct (lookup_lt_is_Some_2 _ _ Hq0) as [tq0 Htq0].
    destruct (submit_uncontended P a f w tq0) as
      (item & w1 & Hsub & Hs1 & Hn1 & Hnext1 & Hqs1 & Hheld1 & Hext1); try done.
    { fold s. lia. }
    fold s n q0 in Hqs1.
    assert (Hnext1' : _next_thread w1 = s + 1).
    { rewrite Hnext1. fold s. unfold to_unsigned. apply Z.mod_small. lia. }
    destruct (IH w1) as (w' & Hrun & Hnext & Hlen' & Hext' & Hqs & Hks).
    + done.
    + by rewrite Hn1.
    + by rewrite Hn1, Hqs1, length_insert.
    + rewrite Hnext1'. lia.
    + rewrite Hnext1'. lia.
    + done.
    + rewrite Hn1, Hnext1' in Hqs, Hks. fold n in Hqs, Hks.
      assert (Hqueues : forall q tq,
                _queues w !! q = Some tq ->
                exists tq' added,
                  _queues w' !! q = Some tq'
                  /\ _done tq' = _done tq
                  /\ _queue tq' = _queue tq ++ added
                  /\ length added = turns_at s n (S (length fs)) q
                  /\ (q = q0 -> head added = Some item)).
      { intros q tq Hq. rewrite turns_at_S. fold q0.
        destruct (decide (q = q0)) as [->|Hne].
        - rewrite Htq0 in Hq. injection Hq as <-.
          destruct (Hqs q0 {| _queue := _queue tq0 ++ [item]; _done := _done tq0 |})
            as (tq' & added & Hq' & Hd' & Hadd & Hl').
          { rewrite Hqs1. by apply list_lookup_insert_eq. }
          exists tq', (item :: added). split; [done|]. split; [done|].
          split; [rewrite Hadd; simpl; by rewrite <- app_assoc|].
          split; [|done]. rewrite Nat.eqb_refl. simpl. by rewrite Hl'.
        - destruct (Hqs q tq) as (tq' & added & Hq' & Hd' & Hadd & Hl').
          { rewrite Hqs1. by rewrite list_lookup_insert_ne. }
          exists tq', added. split; [done|]. split; [done|]. split; [done|].
          split; [|done].
          assert (Hneq : Nat.eqb q0 q = false) by (apply Nat.eqb_neq; lia).
          by rewrite Hneq. }
      exists w'. cbn [submit_each]. unfold bind. rewrite Hsub.
      split; [exact Hrun|]. split.
      { rewrite Hnext, Hnext1'. cbn [length]. lia. }
      split; [by rewrite Hlen', Hqs1, length_insert|].
      split; [by eapply heap_extends_trans|].
      split.
      { intros q tq Hq.
        destruct (Hqueues q tq Hq) as (tq' & added & H1 & H2 & H3 & H4 & _).
        by exists tq', added. }
      intros k g Hk. destruct k as [|k].
      * injection Hk as <-. rewrite Z.add_0_r. fold q0.
        destruct (Hqueues q0 tq0 Htq0) as (tq' & added & H1 & _ & H3 & _ & H5).
        exists tq0, tq', item. split; [done|]. split; [done|].
        rewrite turns_at_0, Nat.add_0_r. split.
        -- rewrite H3. specialize (H5 eq_refl).
           destruct added as [|x added]; [done|]. injection H5 as ->.
           by rewrite list_lookup_middle.
        -- rewrite (held_extends (heap w1) (heap w')); [done|done|].
           rewrite Hheld1. by eexists.
      * cbn [lookup list_lookup] in Hk.
        destruct (Hks k g Hk) as (tq1 & tq' & it & H1 & H2 & H3 & H4).
        replace (s + 1 + Z.of_nat k) with (s + Z.of_nat (S k)) in H1, H2, H3 by lia.
        set (q := Z.to_nat ((s + Z.of_nat (S k)) mod n)) in *.
        rewrite turns_at_S. fold q0.
        destruct (decide (q = q0)) as [Heq|Hne].
        -- rewrite Heq in *. rewrite Hqs1, list_lookup_insert_eq in H1 by done.
           injection H1 as <-. cbn [_queue] in H3. rewrite length_app in H3.
           cbn [length] in H3.
           exists tq0, tq', it. split; [done|]. split; [done|].
           split; [|done]. rewrite Nat.eqb_refl. rewrite <- H3. f_equal. lia.
        -- rewrite Hqs1, list_lookup_insert_ne in H1 by done.
           exists tq1, tq', it. split; [done|]. split; [done|].
           split; [|done].
           assert (Hneq : Nat.eqb q0 q = false) by (apply Nat.eqb_neq; lia).
           by rewrite Hneq.
Qed.

(** X20.  Round robin is fair.  When callables are submitted one after
    the other while no other thread is at work and the counter does not
    wrap, the [k]-th of them goes to queue [(s + k) mod N]: its payload
    stands there behind the payloads the queue had and behind those of
    the earlier submissions to the same queue, and holds the callable
    that was submitted.  Every queue keeps the payloads it had, in
    their places and holding what they held, and its done flag, and
    receives as many payloads as there are such [k] for it.  [N]
    submissions in a row put exactly one payload on every queue. *)
Theorem round_robin_is_fair (P : platform) (a : allocator) (fs : list functor)
    (w : world) :
  let s := _next_thread w in
  let n := _num_threads w in
  sched w = [] -> 0 < n -> Z.to_nat n = length (_queues w) ->
  0 <= s -> s + Z.of_nat (length fs) < UINT_MOD ->
  Forall (fun f => not_null f = true
                   /\ construct_throws (fn_ty (fu_callable f)) = false) fs ->
  let r := submit_each P a fs w in
  r.1 = Ret tt
  /\ _next_thread r.2 = s + Z.of_nat (length fs)
  /\ (forall k f,
        fs !! k = Some f ->
        let q := Z.to_nat ((s + Z.of_nat k) mod n) in
        exists tq tq' item,
          _queues w !! q = Some tq
          /\ _queues r.2 !! q = Some tq'
          /\ _queue tq' !! (length (_queue tq) + turns_at s n k q)%nat = Some item
          /\ held (heap r.2) item = Some (fu_callable f))
  /\ (forall q tq,
        _queues w !! q = Some tq ->
        exists tq' added,
          _queues r.2 !! q = Some tq'
          /\ _done tq' = _done tq
          /\ _queue tq' = _queue tq ++ added
          /\ length added = turns_at s n (length fs) q
          /\ length (_queue tq')
             = (length (_queue tq) + turns_at s n (length fs) q)%nat)
  /\ (forall wi c, held (heap w) wi = Some c -> held (heap r.2) wi = Some c)
  /\ (length fs = Z.to_nat n ->
      forall q tq,
        _queues w !! q = Some tq ->
        exists tq' item,
          _queues r.2 !! q = Some tq'
          /\ _queue tq' = _queue tq ++ [item]
          /\ length (_queue tq') = S (length (_queue tq))).
Proof.
  intros s n Hs Hn Hlen Hs0 Hwrap Hall r. subst r.
  destruct (submit_each_uncontended P a fs w Hs Hn Hlen Hs0 Hwrap Hall)
    as (w' & -> & Hnext & _ & Hext & Hqs & Hks).
  fold s n in Hqs, Hks.
  cbn [fst snd]. split; [done|]. split; [done|]. split; [exact Hks|].
  split.
  { intros q tq Hq.
    destruct (Hqs q tq Hq) as (tq' & added & H1 & H2 & H3 & H4).
    exists tq', added. split; [done|]. split; [done|]. split; [done|].
    split; [done|]. by rewrite H3, length_app, H4. }
  split.
  { intros wi c Hc. rewrite (held_extends (heap w) (heap w')); [done|done|].
    rewrite Hc. by eexists. }
  intros Hfull q tq Hq.
  destruct (Hqs q tq Hq) as (tq' & added & H1 & _ & H3 & H4).
  rewrite Hfull, turns_at_full_round in H4; [|done|].
  2:{ rewrite Hlen. by eapply lookup_lt_Some. }
  destruct added as [|item [|x added]]; try done.
  exists tq', item. split; [done|]. split; [done|].
  rewrite H3, length_app. simpl. lia.
Qed.

Lemma round_robin_is_fair_witness :
  sched idle_world = []
  /\ 0 < _num_threads idle_world
  /\ Z.to_nat (_num_threads idle_world) = length (_queues idle_world)
  /\ 0 <= _next_thread idle_world
  /\ _next_thread idle_world + Z.of_nat 2 < UINT_MOD
  /\ (submit_each lp64 std_allocator
        [as_function_object small_fn; as_function_object large_fn] idle_world).1
     = Ret tt
  /\ _next_thread (submit_each lp64 std_allocator
        [as_function_object small_fn; as_function_object large_fn] idle_world).2
     = 2
  /\ exists tq' item,
       _queues (submit_each lp64 std_allocator
          [as_function_object small_fn; as_function_object large_fn] idle_world).2
         !! 1%nat = Some tq'
       /\ _queue tq' !! 0%nat = Some item
       /\ held (heap (submit_each lp64 std_allocator
             [as_function_object small_fn; as_function_object large_fn] idle_world).2)
            item = Some large_fn.
Proof.
  assert (H0 : sched idle_world = []) by reflexivity.
  assert (H1 : 0 < _num_threads idle_world) by reflexivity.
  assert (H2 : Z.to_nat (_num_threads idle_world) = length (_queues idle_world))
    by reflexivity.
  assert (H3 : 0 <= _next_thread idle_world) by (simpl; lia).
  assert (H4 : _next_thread idle_world
               + Z.of_nat (length [as_function_object small_fn;
                                   as_function_object large_fn]) < UINT_MOD)
    by (vm_compute; reflexivity).
  assert (H5 : Forall (fun f => not_null f = true
                         /\ construct_throws (fn_ty (fu_callable f)) = false)
                 [as_function_object small_fn; as_function_object large_fn]).
  { by repeat constructor. }
  split; [exact H0|]. split; [exact H1|]. split; [exact H2|]. split; [exact H3|].
  split; [exact H4|].
  destruct (round_robin_is_fair lp64 std_allocator
              [as_function_object small_fn; as_function_object large_fn]
              idle_world H0 H1 H2 H3 H4 H5) as (Hr & Hn & Hks & _).
  split; [exact Hr|]. split; [exact Hn|].
  destruct (Hks 1%nat (as_function_object large_fn) eq_refl)
    as (tq & tq' & item & Hq & Hq' & Hitem & Hheld).
  vm_compute in Hq. injection Hq as Htq. subst tq.
  exists tq', item. split; [exact Hq'|]. split; [exact Hitem|exact Hheld].
Defined.
